(** * The catalog-driven SQL safety gateway of ai-analytics-service

    A shallow embedding of the validator ([src/ai/sql/validator]), the
    allowlist builder ([src/ai/sql/allowlist.ts]), the catalog search
    ([app/api/chat/catalog-search.ts]) and the two tool entry points
    ([app/api/chat/query-executor.ts], [app/api/chat/sql-executor.ts]),
    followed by the properties of the specification.

    Strings.  A JavaScript string is a sequence of UTF-16 code units.  The
    embedding works on sequences of code units in the range U+0000..U+00FF
    ([list ascii]); inside that range [toLowerCase], the regular-expression
    classes [\s], [\w], [.] and the assertion [\b] are exactly the
    functions below.  Code units above U+00FF are outside the model.
    Beyond that range [toLowerCase] has further mappings, among them
    U+212A to [k] and U+0130 to [i] followed by U+0307, so that lower-casing
    can put a word character next to a word that had none before.  The
    statements on the keyword scan are therefore made on the lower-cased
    text, which is the text the scan reads. *)

From Stdlib Require Import Ascii String List Bool Arith ZArith Lia Permutation Sorted.
Import ListNotations.

(** ** JavaScript string primitives *)

Module JS.

Definition str := list ascii.

Definition js (s : string) : str := list_ascii_of_string s.

Definition code (c : ascii) : nat := nat_of_ascii c.

Definition inRange (lo hi : nat) (c : ascii) : bool :=
  (lo <=? code c) && (code c <=? hi).

Definition isUpperAZ (c : ascii) : bool := inRange 65 90 c.
Definition isLowerAZ (c : ascii) : bool := inRange 97 122 c.
Definition isDigit (c : ascii) : bool := inRange 48 57 c.

(** [\w] : [A-Za-z0-9_]. *)
Definition isWordChar (c : ascii) : bool :=
  isUpperAZ c || isLowerAZ c || isDigit c || (code c =? 95).

(** [\s] and the characters removed by [trim] : TAB LF VT FF CR SP NBSP. *)
Definition isWhiteSpace (c : ascii) : bool :=
  inRange 9 13 c || (code c =? 32) || (code c =? 160).

(** Line terminators ([.] does not match them, [$] with flag m stops there). *)
Definition isLineTerminator (c : ascii) : bool :=
  (code c =? 10) || (code c =? 13).

(** [String.prototype.toLowerCase] on one code unit: A-Z and the Latin-1
    capitals U+00C0..U+00DE (U+00D7 excepted) move up by 32. *)
Definition toLowerChar (c : ascii) : ascii :=
  if isUpperAZ c || (inRange 192 222 c && negb (code c =? 215))
  then ascii_of_nat (code c + 32) else c.

Definition toLowerCase (s : str) : str := map toLowerChar s.

(** Canonicalisation of a code unit under the regular-expression flag [i]
    (without flag u): the upper-case mapping, kept only when it is one code
    unit.  U+00FF and U+00B5 map outside the range and to nothing another
    code unit of the range maps to; they are left in place, which preserves
    the equality test the matcher makes. *)
Definition canonicalize (c : ascii) : ascii :=
  if isLowerAZ c || (inRange 224 254 c && negb (code c =? 247))
  then ascii_of_nat (code c - 32) else c.

Definition chr_eqb (a b : ascii) : bool := Ascii.eqb a b.

Fixpoint str_eqb (a b : str) : bool :=
  match a, b with
  | [], [] => true
  | x :: a', y :: b' => chr_eqb x y && str_eqb a' b'
  | _, _ => false
  end.

(** [arr.includes(x)] / [set.has(x)] on strings. *)
Definition mem (x : str) (l : list str) : bool := existsb (str_eqb x) l.

Fixpoint startsWith (s p : str) : bool :=
  match p with
  | [] => true
  | x :: p' =>
      match s with
      | [] => false
      | y :: s' => chr_eqb x y && startsWith s' p'
      end
  end.

(** [s.includes(p)] : [p] occurs in [s] as a substring. *)
Fixpoint includes (s p : str) : bool :=
  startsWith s p ||
  match s with
  | [] => false
  | _ :: s' => includes s' p
  end.

Fixpoint dropWhile (p : ascii -> bool) (s : str) : str :=
  match s with
  | [] => []
  | c :: r => if p c then dropWhile p r else s
  end.

Fixpoint takeWhile (p : ascii -> bool) (s : str) : str :=
  match s with
  | [] => []
  | c :: r => if p c then c :: takeWhile p r else []
  end.

Definition trim (s : str) : str :=
  rev (dropWhile isWhiteSpace (rev (dropWhile isWhiteSpace s))).

(** [s.split(d)] for a one-character separator; [''.split(d)] is [['']]. *)
Fixpoint split (d : ascii) (s : str) : list str :=
  match s with
  | [] => [[]]
  | c :: r =>
      if chr_eqb c d then [] :: split d r
      else match split d r with
           | h :: t => (c :: h) :: t
           | [] => [[c]]
           end
  end.

(** [s.split(/\s+/)] : every maximal run of white space is one separator;
    a leading or trailing run leaves an empty first or last piece.
    [inRun] tells that the previous code unit belonged to a separator. *)
Fixpoint splitWsFrom (inRun : bool) (acc : str) (s : str) : list str :=
  match s with
  | [] => [rev acc]
  | c :: r =>
      if isWhiteSpace c
      then if inRun then splitWsFrom true acc r
           else rev acc :: splitWsFrom true [] r
      else splitWsFrom false (c :: acc) r
  end.

Definition splitWs (s : str) : list str := splitWsFrom false [] s.

(** [parts.join(sep)]. *)
Fixpoint join (sep : str) (parts : list str) : str :=
  match parts with
  | [] => []
  | [p] => p
  | p :: rest => p ++ sep ++ join sep rest
  end.

(** [s.replace(re, repl)] with flag g, for a pattern that never matches the
    empty string: [matchLen s] is the length of the match of the pattern
    starting at the head of [s], if there is one.  [skip] counts the code
    units of the current match still to be dropped. *)
Fixpoint replaceAll (matchLen : str -> option nat) (repl : str)
         (skip : nat) (s : str) : str :=
  match s with
  | [] => []
  | c :: r =>
      match skip with
      | S k => replaceAll matchLen repl k r
      | O =>
          match matchLen s with
          | Some (S n) => repl ++ replaceAll matchLen repl n r
          | _ => c :: replaceAll matchLen repl 0 r
          end
      end
  end.

(** [new Set(xs)] and [set.add(x)] : insertion order, no duplicates. *)
Definition setAdd (x : str) (s : list str) : list str :=
  if mem x s then s else s ++ [x].

Definition setOf (xs : list str) : list str :=
  fold_left (fun s x => setAdd x s) xs [].

(** A [Map<string, V>] : entries in insertion order, keys unique;
    [map.set] overwrites in place or appends. *)
Fixpoint mapSet {V} (k : str) (v : V) (m : list (str * V)) : list (str * V) :=
  match m with
  | [] => [(k, v)]
  | (k', v') :: m' =>
      if str_eqb k' k then (k', v) :: m' else (k', v') :: mapSet k v m'
  end.

Fixpoint mapGet {V} (k : str) (m : list (str * V)) : option V :=
  match m with
  | [] => None
  | (k', v) :: m' => if str_eqb k' k then Some v else mapGet k m'
  end.

Definition mapKeys {V} (m : list (str * V)) : list str := map fst m.

(** *** A cursor into the subject of a regular expression: the code unit
    before the current position (needed by [\b]) and the rest. *)
Record cursor := Cursor { before : option ascii; after : str }.

Definition isWordOpt (c : option ascii) : bool :=
  match c with Some x => isWordChar x | None => false end.

(** [\b] *)
Definition atBoundary (k : cursor) : bool :=
  xorb (isWordOpt (before k)) (isWordOpt (hd_error (after k))).

(** A literal under flag [i]. *)
Fixpoint lit_ci (w : str) (k : cursor) : option cursor :=
  match w with
  | [] => Some k
  | x :: w' =>
      match after k with
      | [] => None
      | c :: r =>
          if chr_eqb (canonicalize x) (canonicalize c)
          then lit_ci w' (Cursor (Some c) r) else None
      end
  end.

(** [C*] followed by the rest of the pattern [cont]: greedy, and on failure
    of [cont] the run is given back one code unit at a time.  [acc] is the
    text consumed so far, reversed. *)
Fixpoint starThen {A} (p : ascii -> bool) (cont : str -> cursor -> option A)
         (acc : str) (prev : option ascii) (s : str) : option A :=
  match s with
  | c :: r =>
      if p c
      then match starThen p cont (c :: acc) (Some c) r with
           | Some a => Some a
           | None => cont acc (Cursor prev s)
           end
      else cont acc (Cursor prev s)
  | [] => cont acc (Cursor prev s)
  end.

(** [C+] followed by [cont]. *)
Definition plusThen {A} (p : ascii -> bool) (cont : str -> cursor -> option A)
           (k : cursor) : option A :=
  match after k with
  | c :: r => if p c then starThen p cont [c] (Some c) r else None
  | [] => None
  end.

(** [re.exec(s)] without flags g and y: the match at the leftmost start
    position that has one. *)
Fixpoint searchFrom {A} (m : cursor -> option A) (prev : option ascii)
         (s : str) : option A :=
  match m (Cursor prev s) with
  | Some a => Some a
  | None =>
      match s with
      | [] => None
      | c :: r => searchFrom m (Some c) r
      end
  end.

Definition search {A} (m : cursor -> option A) (s : str) : option A :=
  searchFrom m None s.

(** [re.test(s)] *)
Definition test {A} (m : cursor -> option A) (s : str) : bool :=
  match search m s with Some _ => true | None => false end.

(** [s.match(re)] with flag g, for a pattern without look-behind that never
    matches the empty string: all matches, left to right, each search
    resuming where the previous match ended. *)
Fixpoint matchAll (m : str -> option str) (skip : nat) (s : str) : list str :=
  match s with
  | [] => []
  | _ :: r =>
      match skip with
      | S k => matchAll m k r
      | O =>
          match m s with
          | Some tok => tok :: matchAll m (length tok - 1) r
          | None => matchAll m 0 r
          end
      end
  end.

End JS.
Export JS.

Notation "x <- e ;; k" :=
  (match e with Some x => k | None => None end)
  (at level 61, e at next level, right associativity, only parsing).

Definition guard (b : bool) : option unit := if b then Some tt else None.

(** ** The catalog ([src/ai/catalog/types.ts]) *)

Module Catalog.

(** One entry of [columns].  Of [meta] only [meta.type] is read, and only
    compared with a string: [meta_type] is that member when it is a string. *)
Record ColumnInfo := {
  col_description : option str;
  data_type : option str;
  meta_type : option str
}.

(** [columns] is the object's own enumerable properties, in the order
    [Object.keys] and [Object.entries] enumerate them. *)
Record AiCatalogModel := {
  name : str;
  description : option str;
  domain : option str;
  grain : option str;
  schema : option str;
  relation_name : option str;
  dimensions : option (list str);
  metrics : option (list str);
  columns : list (str * ColumnInfo)
}.

Record AiCatalog := {
  version : nat;
  generated_at : str;
  models : list AiCatalogModel
}.

(** Truthiness of an optional string: neither undefined/null nor empty. *)
Definition truthy (s : option str) : bool :=
  match s with
  | Some (_ :: _) => true
  | _ => false
  end.

End Catalog.
Export Catalog.

(** ** The allowlist ([src/ai/sql/allowlist.ts]) *)

Module AllowlistTs.

Record Allowlist := {
  tables : list (str * list str);
  modelToTable : list (str * str)
}.

Definition backtick : ascii := ascii_of_nat 96.

(** [(m.relation_name && m.relation_name.trim()) ||
     (m.schema ? `schema`.`name` : `name`)] *)
Definition tableOf (m : AiCatalogModel) : str :=
  let fallback :=
    if truthy (schema m)
    then match schema m with
         | Some s => backtick :: s ++ backtick :: js "." ++ backtick :: name m ++ [backtick]
         | None => []
         end
    else backtick :: name m ++ [backtick] in
  match relation_name m with
  | Some (c :: r) =>
      match trim (c :: r) with
      | [] => fallback
      | t => t
      end
  | _ => fallback
  end.

(** [new Set(Object.keys(m.columns || {}))] *)
Definition columnSet (m : AiCatalogModel) : list str :=
  setOf (map fst (columns m)).

Definition addModel (al : Allowlist) (m : AiCatalogModel) : Allowlist :=
  let table := tableOf m in
  {| tables := mapSet table (columnSet m) (tables al);
     modelToTable := mapSet (name m) table (modelToTable al) |}.

Definition buildAllowlist (catalog : AiCatalog) : Allowlist :=
  fold_left addModel (models catalog) {| tables := []; modelToTable := [] |}.

End AllowlistTs.
Export AllowlistTs.

(** ** The validator ([src/ai/sql/validator.ts]) *)

Module Validator.

Inductive RejectReason :=
| SqlEmpty
| MultiStatement
| OnlySelect
| ForbiddenKeyword (kw : str)
| SelectStar
| FromNotFound
| TableNotAllowlisted (fromTableRaw : str)
| ColumnNotAllowlisted (c : str).

(** The message the [SqlValidationError] carries. *)
Definition message (r : RejectReason) : str :=
  match r with
  | SqlEmpty => js "SQL is empty."
  | MultiStatement => js "Multi-statement SQL is not allowed."
  | OnlySelect => js "Only SELECT queries are allowed."
  | ForbiddenKeyword kw => js "Forbidden keyword detected: " ++ kw
  | SelectStar => js "SELECT * is not allowed. Specify columns explicitly."
  | FromNotFound => js "FROM clause not found."
  | TableNotAllowlisted t => js "Table is not allowlisted: " ++ t
  | ColumnNotAllowlisted c => js "Column is not allowlisted: " ++ c
  end.

(** What a [throw] carries: a [SqlValidationError], another [Error], or a
    value that is no [Error]. *)
Inductive Exn :=
| SqlValidationError (r : RejectReason)
| Error (msg : str)
| NonError.

Definition Result (A : Type) : Type := (Exn + A)%type.

Record ValidatedQuery := {
  table : str;
  referencedColumns : list str
}.

Definition FORBIDDEN_KEYWORDS : list str :=
  map js [ "insert"; "update"; "delete"; "drop"; "alter"; "create";
           "truncate"; "optimize"; "attach"; "detach"; "grant"; "revoke";
           "system"; "kill"; "set"; "use"; "show"; "describe";
           "explain" ]%string.

(** [/--.*$/m] at the head of [s] : two dashes and the rest of the line. *)
Definition lineCommentLen (s : str) : option nat :=
  if startsWith s (js "--")
  then Some (2 + length (takeWhile (fun c => negb (isLineTerminator c)) (skipn 2 s)))
  else None.

(** Number of code units up to and including the first [*/] of [s]. *)
Fixpoint closeEnd (s : str) : option nat :=
  match s with
  | [] => None
  | _ :: r => if startsWith s (js "*/") then Some 2 else option_map S (closeEnd r)
  end.

(** [/\/\*[\s\S]*?\*\//] at the head of [s]. *)
Definition blockCommentLen (s : str) : option nat :=
  if startsWith s (js "/*")
  then option_map (fun n => 2 + n) (closeEnd (skipn 2 s))
  else None.

(** [/\s+/] at the head of [s]. *)
Definition whiteSpaceLen (s : str) : option nat :=
  match length (takeWhile isWhiteSpace s) with
  | O => None
  | n => Some n
  end.

Definition normalize (sql : str) : str :=
  trim
    (replaceAll whiteSpaceLen (js " ") 0
       (replaceAll blockCommentLen [] 0
          (replaceAll lineCommentLen [] 0 sql))).

Definition lower (sql : str) : str := toLowerCase sql.

Definition hasMultiStatement (sql : str) : bool := includes sql (js ";").

Definition startsWithSelectOrWith (sqlLower : str) : bool :=
  startsWith sqlLower (js "select ") || startsWith sqlLower (js "with ").

(** [/\bkw\b/i] *)
Definition wordPattern (kw : str) (k : cursor) : option cursor :=
  _ <- guard (atBoundary k) ;;
  k1 <- lit_ci kw k ;;
  _ <- guard (atBoundary k1) ;;
  Some k1.

Definition containsForbidden (sqlLower : str) : option str :=
  find (fun kw => test (wordPattern kw) sqlLower) FORBIDDEN_KEYWORDS.

(** [/\bselect\b\s+\*/i] *)
Definition selectStarPattern (k : cursor) : option cursor :=
  k1 <- wordPattern (js "select") k ;;
  plusThen isWhiteSpace (fun _ k2 => lit_ci (js "*") k2) k1.

(** The class of group 1: backtick, double quote, [\w] and the dot. *)
Definition isTableChar (c : ascii) : bool :=
  (code c =? 96) || (code c =? 34) || isWordChar c || (code c =? 46).

(** [/\bfrom\b\s+(C+)\b/i] with [C] the class above, giving the text of
    group 1. *)
Definition fromPattern (k : cursor) : option str :=
  k1 <- wordPattern (js "from") k ;;
  plusThen isWhiteSpace
    (fun _ k2 =>
       plusThen isTableChar
         (fun group k3 => _ <- guard (atBoundary k3) ;; Some (rev group))
         k2)
    k1.

Definition extractFromTable (normalizedSql : str) : option str :=
  search fromPattern normalizedSql.

Definition stripQuotesTable (t : str) : str :=
  filter (fun c => negb ((code c =? 34) || (code c =? 96))) t.

(** [[A-Za-z_]] *)
Definition isIdentStart (c : ascii) : bool :=
  isUpperAZ c || isLowerAZ c || (code c =? 95).

(** The token pattern at the head of [s] : an identifier [[A-Za-z_]\w*],
    then optionally a dot and a second identifier, both greedy.  Gives the
    text matched. *)
Definition identPattern (s : str) : option str :=
  match s with
  | c :: r =>
      if isIdentStart c
      then
        let a := takeWhile isWordChar r in
        match dropWhile isWordChar r with
        | d :: e :: r2 =>
            if (code d =? 46) && isIdentStart e
            then Some (c :: a ++ d :: e :: takeWhile isWordChar r2)
            else Some (c :: a)
        | _ => Some (c :: a)
        end
      else None
  | [] => None
  end.

Definition stop : list str :=
  map js [ "select"; "from"; "where"; "group"; "by"; "order"; "limit";
           "with"; "as"; "and"; "or"; "not"; "in"; "is"; "null"; "asc";
           "desc"; "distinct"; "sum"; "avg"; "min"; "max"; "count"; "date";
           "toDate"; "toStartOfWeek"; "having"; "case"; "when"; "then";
           "else"; "end"; "on"; "join"; "inner"; "left"; "right"; "full";
           "cross" ]%string.

Definition dot : ascii := ascii_of_nat 46.

Definition nonEmpty (s : str) : bool :=
  match s with [] => false | _ => true end.

(** [stripQuotesTable(fromTable).toLowerCase().split('.')
      .map(p => p.trim()).filter(Boolean)] *)
Definition fromPartsOf (fromTable : str) : list str :=
  filter nonEmpty
    (map trim (split dot (toLowerCase (stripQuotesTable fromTable)))).

(** The body of the loop over the tokens: [None] is a [continue], [Some c]
    is the column added to [cols]. *)
Definition columnOfToken (fromTable tok : str) : option str :=
  let fromTableStripped := toLowerCase (stripQuotesTable fromTable) in
  let fromParts := fromPartsOf fromTable in
  let l := toLowerCase tok in
  if mem l stop then None
  else if mem l FORBIDDEN_KEYWORDS then None
  else
    let tokParts := split dot l in
    if existsb (fun part => mem part fromParts) tokParts then None
    else if (1 <? length fromParts) && (1 <? length tokParts)
            && str_eqb (join [dot] tokParts) fromTableStripped
    then None
    else Some (if includes tok [dot] then last (split dot tok) [] else tok).

Definition findReferencedColumns (normalizedSql fromTable : str) : list str :=
  let tokens := matchAll identPattern 0 normalizedSql in
  fold_left
    (fun cols tok =>
       match columnOfToken fromTable tok with
       | Some c => setAdd c cols
       | None => cols
       end)
    tokens [].

Definition throw {A} (r : RejectReason) : Result A := inl (SqlValidationError r).

Definition validateSql (sql : str) (allowlist : Allowlist) : Result ValidatedQuery :=
  let normalized := normalize sql in
  let sqlLower := lower normalized in
  if negb (nonEmpty normalized) then throw SqlEmpty
  else if hasMultiStatement normalized then throw MultiStatement
  else if negb (startsWithSelectOrWith sqlLower) then throw OnlySelect
  else
    match containsForbidden sqlLower with
    | Some (c :: kw) => throw (ForbiddenKeyword (c :: kw))
    | _ =>
        if test selectStarPattern normalized then throw SelectStar
        else
          match extractFromTable normalized with
          | None | Some [] => throw FromNotFound
          | Some fromTableRaw =>
              let fromTableStripped := stripQuotesTable fromTableRaw in
              match find (fun t => str_eqb (stripQuotesTable t) fromTableStripped)
                         (mapKeys (tables allowlist)) with
              | None | Some [] => throw (TableNotAllowlisted fromTableRaw)
              | Some allowedTable =>
                  match mapGet allowedTable (tables allowlist) with
                  | None =>
                      inl (Error (js "Cannot read properties of undefined"))
                  | Some allowedCols =>
                      let referenced := findReferencedColumns normalized fromTableRaw in
                      match find (fun c => negb (mem c allowedCols)) referenced with
                      | Some c => throw (ColumnNotAllowlisted c)
                      | None =>
                          inr {| table := allowedTable;
                                 referencedColumns := referenced |}
                      end
                  end
              end
          end
    end.

End Validator.
Export Validator.

(** ** Loading the catalog ([src/ai/catalog/loadCatalog.ts]) *)

Module LoadCatalog.

(** [file] is what [JSON.parse(fs.readFileSync(p))] yields: [None] when
    reading or parsing throws.  [!json?.models?.length] rejects a document
    without models.  The path is not modelled: each of the two messages
    stands for the text the source throws there, which for the second one
    ends with the resolved path. *)
Definition loadAiCatalog (file : option AiCatalog) : Result AiCatalog :=
  match file with
  | None => inl (Error (js "ENOENT: no such file or directory"))
  | Some json =>
      match models json with
      | [] => inl (Error (js "ai_catalog.json invalid or empty"))
      | _ => inr json
      end
  end.

End LoadCatalog.
Export LoadCatalog.

(** ** Catalog search ([app/api/chat/catalog-search.ts]) *)

Module CatalogSearch.

Record CatalogSearchResult := {
  model : AiCatalogModel;
  relevanceScore : nat;
  matchedFields : list str
}.

(** The inner loop over the query words, left by [break] at the first hit. *)
Definition anyWord (hit : str -> bool) (queryWords : list str) : bool :=
  existsb hit queryWords.

(** [if (!matchedFields.includes(f)) matchedFields.push(f)] *)
Definition credit (f : str) (matchedFields : list str) : list str :=
  if mem f matchedFields then matchedFields else matchedFields ++ [f].

(** The loops over metrics, dimensions and column descriptions: every item
    that hits adds [w] to the score and credits the field once.  The state
    is the pair (score, matchedFields). *)
Definition scoreItems (w : nat) (field : str) (hit : str -> str -> bool)
           (queryWords : list str) (items : list str)
           (st : nat * list str) : nat * list str :=
  fold_left
    (fun st item =>
       if anyWord (hit item) queryWords
       then (fst st + w, credit field (snd st))
       else st)
    items st.

Definition calculateRelevanceScore (model : AiCatalogModel) (query : str)
  : nat * list str :=
  let queryLower := toLowerCase query in
  let queryWords := splitWs queryLower in
  let st := (0, []) in
  (* Check description *)
  let st :=
    match description model with
    | Some (c :: d) =>
        let descLower := toLowerCase (c :: d) in
        if includes descLower queryLower
           || existsb (fun word => includes descLower word) queryWords
        then (fst st + 10, snd st ++ [js "description"])
        else st
    | _ => st
    end in
  (* Check metrics *)
  let st :=
    match metrics model with
    | Some ms =>
        scoreItems 5 (js "metrics")
          (fun metric word => includes metric word || includes word metric)
          queryWords (map toLowerCase ms) st
    | None => st
    end in
  (* Check dimensions *)
  let st :=
    match dimensions model with
    | Some ds =>
        scoreItems 3 (js "dimensions")
          (fun dim word => includes dim word || includes word dim)
          queryWords (map toLowerCase ds) st
    | None => st
    end in
  (* Check grain *)
  let st :=
    match grain model with
    | Some (c :: g) =>
        let grainLower := toLowerCase (c :: g) in
        if includes queryLower grainLower || includes grainLower queryLower
        then (fst st + 4, snd st ++ [js "grain"])
        else st
    | _ => st
    end in
  (* Check domain *)
  let st :=
    match domain model with
    | Some (c :: d) =>
        let domainLower := toLowerCase (c :: d) in
        if includes queryLower domainLower
        then (fst st + 2, snd st ++ [js "domain"])
        else st
    | _ => st
    end in
  (* Check column descriptions *)
  let colDescs :=
    flat_map
      (fun e => match col_description (snd e) with
                | Some (c :: d) => [toLowerCase (c :: d)]
                | _ => []
                end)
      (columns model) in
  scoreItems 2 (js "columns")
    (fun descLower word => includes descLower word || includes word descLower)
    queryWords colDescs st.

Definition scoreOf (query : str) (m : AiCatalogModel) : CatalogSearchResult :=
  let r := calculateRelevanceScore m query in
  {| model := m; relevanceScore := fst r; matchedFields := snd r |}.

(** [Array.prototype.sort(cmp)] is a stable sort: with a comparator that is
    a consistent ordering its result is the one list that is ordered by
    [cmp] and keeps elements that compare equal in their order.  It is
    computed here by insertion from the right. *)
Section Sort.
Variable A : Type.
Variable cmp : A -> A -> Z.

Fixpoint insertSorted (x : A) (l : list A) : list A :=
  match l with
  | [] => [x]
  | y :: l' => if (cmp x y <=? 0)%Z then x :: l else y :: insertSorted x l'
  end.

Definition sort (l : list A) : list A := fold_right insertSorted [] l.
End Sort.

Arguments insertSorted {A} cmp x l.
Arguments sort {A} cmp l.

(** [(a, b) => b.relevanceScore - a.relevanceScore] *)
Definition byScoreDesc (a b : CatalogSearchResult) : Z :=
  (Z.of_nat (relevanceScore b) - Z.of_nat (relevanceScore a))%Z.

Definition searchCatalog (file : option AiCatalog) (query : str)
  : Result (list CatalogSearchResult) :=
  match loadAiCatalog file with
  | inl e => inl e
  | inr catalog =>
      let results :=
        filter (fun r => 0 <? relevanceScore r)
               (map (scoreOf query) (models catalog)) in
      inr (sort byScoreDesc results)
  end.

End CatalogSearch.
Export CatalogSearch.

(** ** The tool entry points ([app/api/chat/query-executor.ts],
       [app/api/chat/sql-executor.ts]) *)

Module Tools.

Record QueryResult := {
  rows : list (list (str * str));
  rowCount : nat
}.

Record Limits := { maxRows : Z; maxExecutionTimeSeconds : Z }.

(** What a run can observe of its surroundings: the catalog document on
    disk and the reply of the execution client to a query. *)
Record World := {
  catalogFile : option AiCatalog;
  runSelectReply : str -> Limits -> Result QueryResult
}.

(** The trace of a run: [validateSql] returning a value, and a call of the
    execution client [runSelect]. *)
Inductive Event :=
| EvValidated (sql : str) (v : ValidatedQuery)
| EvRunSelect (sql : str) (limits : Limits).

(** Computations that may throw and that extend the trace. *)
Definition M (A : Type) : Type := list Event -> Result A * list Event.

Definition ret {A} (a : A) : M A := fun t => (inr a, t).

Definition bind {A B} (m : M A) (f : A -> M B) : M B :=
  fun t => match m t with
           | (inl e, t') => (inl e, t')
           | (inr a, t') => f a t'
           end.

Definition lift {A} (r : Result A) : M A := fun t => (r, t).

Definition emit (ev : Event) : M unit := fun t => (inr tt, t ++ [ev]).

(** [try { body } catch (error) { handler }] *)
Definition tryCatch {A} (body : M A) (handler : Exn -> A)
  : list Event -> A * list Event :=
  fun t => match body t with
           | (inl e, t') => (handler e, t')
           | (inr a, t') => (a, t')
           end.

Notation "x <~ e ;; k" := (bind e (fun x => k))
  (at level 61, e at next level, right associativity).

Definition callValidateSql (sql : str) (allowlist : Allowlist) : M ValidatedQuery :=
  v <~ lift (validateSql sql allowlist) ;;
  _ <~ emit (EvValidated sql v) ;;
  ret v.

Definition runSelect (w : World) (sql : str) (limits : Limits) : M QueryResult :=
  _ <~ emit (EvRunSelect sql limits) ;;
  lift (runSelectReply w sql limits).

Inductive ErrorCode :=
| NO_MODEL_FOUND
| NO_RELATION_NAME
| NO_COLUMNS
| SQL_VALIDATION_ERROR
| EXECUTION_ERROR
| UNKNOWN_ERROR.

Inductive QueryExecutorResult :=
| QFailure (error : ErrorCode) (msg : str)
| QSuccess (modelName : str) (modelDescription : option str)
           (relationName : str) (sql : str)
           (validation : ValidatedQuery) (result : QueryResult).

Inductive SqlExecutorResult :=
| SFailure (error : ErrorCode) (msg : str)
| SSuccess (validation : ValidatedQuery) (result : QueryResult).

(** The [catch] clause shared by both tools. *)
Definition onError {R} (failure : ErrorCode -> str -> R) (error : Exn) : R :=
  match error with
  | SqlValidationError r => failure SQL_VALIDATION_ERROR (message r)
  | Error m => failure EXECUTION_ERROR m
  | NonError => failure UNKNOWN_ERROR (js "An unknown error occurred")
  end.

Definition limits : Limits :=
  {| maxRows := 10000%Z; maxExecutionTimeSeconds := 30%Z |}.

(** Members every object inherits from [Object.prototype]: reading one of
    them from [model.columns] gives a function, which is truthy. *)
Definition OBJECT_PROTOTYPE : list str :=
  map js [ "constructor"; "__defineGetter__"; "__defineSetter__";
           "hasOwnProperty"; "__lookupGetter__"; "__lookupSetter__";
           "isPrototypeOf"; "propertyIsEnumerable"; "toString"; "valueOf";
           "__proto__"; "toLocaleString" ]%string.

(** Truthiness of [model.columns[k]]. *)
Definition hasColumn (model : AiCatalogModel) (k : str) : bool :=
  match mapGet k (columns model) with
  | Some _ => true
  | None => mem k OBJECT_PROTOTYPE
  end.

(** [model.columns[k]?.meta?.type === 'metric'] *)
Definition metaTypeIsMetric (model : AiCatalogModel) (k : str) : bool :=
  match mapGet k (columns model) with
  | Some info =>
      match meta_type info with
      | Some t => str_eqb t (js "metric")
      | None => false
      end
  | None => false
  end.

Definition orEmpty (l : option (list str)) : list str :=
  match l with Some xs => xs | None => [] end.

Definition aggregated (aggregation col : str) : str :=
  aggregation ++ js "(" ++ col ++ js ") AS " ++ col.

(** The dimensions and the metrics pushed to [selectParts]. *)
Definition dimensionParts (model : AiCatalogModel) : list str :=
  filter (hasColumn model) (orEmpty (dimensions model)).

Definition metricParts (model : AiCatalogModel) : list str :=
  flat_map
    (fun metric =>
       if hasColumn model metric
       then
         let isSum :=
           metaTypeIsMetric model metric
           && (includes (toLowerCase metric) (js "total")
               || includes (toLowerCase metric) (js "sum")) in
         [aggregated (if isSum then js "sum" else js "avg") metric]
       else [])
    (orEmpty (metrics model)).

(** [colInfo.data_type?.toLowerCase().includes(w)] *)
Definition dataTypeIncludes (info : ColumnInfo) (w : str) : bool :=
  match data_type info with
  | Some t => includes (toLowerCase t) w
  | None => false
  end.

(** The loop over [Object.entries(model.columns)] run when [selectParts]
    is empty. *)
Definition numericParts (model : AiCatalogModel) : list str :=
  flat_map
    (fun e =>
       let colName := fst e in
       let colInfo := snd e in
       if dataTypeIncludes colInfo (js "float") || dataTypeIncludes colInfo (js "int")
       then [aggregated (js "avg") colName]
       else if mem colName (orEmpty (dimensions model)) then [colName]
       else [])
    (columns model).

Definition selectPartsOf (model : AiCatalogModel) : list str :=
  let selectParts := dimensionParts model ++ metricParts model in
  match selectParts with
  | [] => numericParts model
  | _ => selectParts
  end.

Definition newline : ascii := ascii_of_nat 10.

(** Step 2 of [queryExecutorTool.execute] : the SQL text, or [None] when
    [selectParts] stays empty. *)
Definition generateSql (model : AiCatalogModel) (relation : str) : option str :=
  match selectPartsOf model with
  | [] => None
  | selectParts =>
      let groupByParts := dimensionParts model in
      let sql := js "SELECT " ++ join (js ", ") selectParts
                 ++ newline :: js "FROM " ++ relation in
      let sql :=
        match groupByParts with
        | [] => sql
        | _ => sql ++ newline :: js "GROUP BY " ++ join (js ", ") groupByParts
        end in
      let sql :=
        match groupByParts, orEmpty (metrics model) with
        | g :: _, _ => sql ++ newline :: js "ORDER BY " ++ g
        | [], m0 :: _ => sql ++ newline :: js "ORDER BY " ++ m0 ++ js " DESC"
        | [], [] => sql
        end in
      Some sql
  end.

Definition dquote : ascii := ascii_of_nat 34.

Definition queryExecutorBody (w : World) (query : str) : M QueryExecutorResult :=
  (* Step 1: Search catalog *)
  catalogResults <~ lift (searchCatalog (catalogFile w) query) ;;
  match catalogResults with
  | [] =>
      ret (QFailure NO_MODEL_FOUND
             (js "No matching models found for query: " ++ dquote :: query ++ [dquote]))
  | first :: _ =>
      let model := model first in
      match relation_name model with
      | Some (c :: r) =>
          let relation := c :: r in
          (* Step 2: Generate SQL based on model structure *)
          match generateSql model relation with
          | None =>
              ret (QFailure NO_COLUMNS
                     (js "Model " ++ name model ++ js " has no usable columns"))
          | Some sql =>
              (* Step 3: Validate and execute SQL *)
              catalog <~ lift (loadAiCatalog (catalogFile w)) ;;
              let allowlist := buildAllowlist catalog in
              validation <~ callValidateSql sql allowlist ;;
              result <~ runSelect w sql limits ;;
              ret (QSuccess (name model) (description model) relation sql
                            validation result)
          end
      | _ =>
          ret (QFailure NO_RELATION_NAME
                 (js "Model " ++ name model ++ js " has no relation_name"))
      end
  end.

(** [queryExecutorTool.execute] : the natural-language entry point. *)
Definition queryExecutor (w : World) (query : str)
  : QueryExecutorResult * list Event :=
  tryCatch (queryExecutorBody w query) (onError QFailure) [].

Definition sqlExecutorBody (w : World) (sql : str) : M SqlExecutorResult :=
  catalog <~ lift (loadAiCatalog (catalogFile w)) ;;
  let allowlist := buildAllowlist catalog in
  validation <~ callValidateSql sql allowlist ;;
  result <~ runSelect w sql limits ;;
  ret (SSuccess validation result).

(** [sqlExecutorTool.execute] : the direct-SQL entry point. *)
Definition sqlExecutor (w : World) (sql : str)
  : SqlExecutorResult * list Event :=
  tryCatch (sqlExecutorBody w sql) (onError SFailure) [].

End Tools.
Export Tools.

(** ** Notions the specification uses *)

Module Spec.

(** The code unit just before a suffix, when the prefix is [pre]. *)
Definition lastOf (pre : str) : option ascii := last (map Some pre) None.

(** [kw] occurs in [s] as a standalone word, case-insensitively: some
    occurrence [w] equal to [kw] up to case has no word character next to
    it on either side. *)
Definition standaloneWord (kw s : str) : Prop :=
  exists pre w post,
    s = pre ++ w ++ post /\
    toLowerCase w = kw /\
    isWordOpt (lastOf pre) = false /\
    isWordOpt (hd_error post) = false.

(** [kw] itself is a standalone word of [s]: the text holds [kw], letter
    for letter, with no word character next to it on either side.  On the
    lower-cased query this is what the keyword scan looks for; it is read
    on the text the scan receives, since lower-casing can change what
    stands next to a word. *)
Definition occursAsWord (kw s : str) : Prop :=
  exists pre post,
    s = pre ++ kw ++ post /\
    isWordOpt (lastOf pre) = false /\
    isWordOpt (hd_error post) = false.

(** The select-star pattern: the word [select] in any letter case, not
    preceded by a word character, then white space, then a star. *)
Definition selectStarText (s : str) : Prop :=
  exists pre w ws post,
    s = pre ++ w ++ ws ++ js "*" ++ post /\
    toLowerCase w = js "select" /\
    isWordOpt (lastOf pre) = false /\
    ws <> [] /\
    forallb isWhiteSpace ws = true.

(** Every call of the execution client in a trace comes after a successful
    validation of the same SQL text against [allowlist]. *)
Definition gated (allowlist : Allowlist) (trace : list Event) : Prop :=
  forall pre sql lim post,
    trace = pre ++ EvRunSelect sql lim :: post ->
    exists v, In (EvValidated sql v) pre /\ validateSql sql allowlist = inr v.

End Spec.
Export Spec.

(** ** Concrete catalogs, allowlists and queries used below *)

Module Examples.

(** The allowlist [{T: {a, b}}]. *)
Definition allowlistTab : Allowlist :=
  {| tables := [(js "T", [js "a"; js "b"])]; modelToTable := [] |}.

(** The allowlist [{T: {a}}]. *)
Definition allowlistTa : Allowlist :=
  {| tables := [(js "T", [js "a"])]; modelToTable := [] |}.

Definition column (ty : string) : ColumnInfo :=
  {| col_description := None; data_type := Some (js ty); meta_type := None |}.

(** Two models that resolve to the same table: the first through
    [relation_name], the second through a [relation_name] with blanks
    around it. *)
Definition modelFirst : AiCatalogModel :=
  {| name := js "first"; description := None; domain := None; grain := None;
     schema := Some (js "other"); relation_name := Some (js "`db`.`t`");
     dimensions := Some [js "q"]; metrics := None;
     columns := [(js "x", column "String")] |}.

Definition modelSecond : AiCatalogModel :=
  {| name := js "second"; description := None; domain := None; grain := None;
     schema := None; relation_name := Some (js " `db`.`t` ");
     dimensions := None; metrics := Some [js "q"];
     columns := [(js "y", column "Float64"); (js "z", column "Int32")] |}.

Definition catalogTwo : AiCatalog :=
  {| version := 1; generated_at := js "2024-01-01T00:00:00Z";
     models := [modelFirst; modelSecond] |}.

(** Three models for the search: scores 2, 10 and 2 for the query [ltv]. *)
Definition searchModel (n d : string) : AiCatalogModel :=
  {| name := js n; description := None; domain := Some (js d); grain := None;
     schema := None; relation_name := None;
     dimensions := None; metrics := None; columns := [] |}.

Definition catalogThree : AiCatalog :=
  {| version := 1; generated_at := js "2024-01-01T00:00:00Z";
     models := [ searchModel "m1" "ltv";
                 {| name := js "m2"; description := Some (js "LTV by week");
                    domain := None; grain := None; schema := None;
                    relation_name := None; dimensions := None;
                    metrics := None; columns := [] |};
                 searchModel "m3" "ltv";
                 searchModel "m4" "costs" ] |}.

(** Scenario A of the specification. *)
Definition modelLtv : AiCatalogModel :=
  {| name := js "ltv_weekly"; description := Some (js "LTV by week");
     domain := None; grain := Some (js "weekly"); schema := None;
     relation_name := Some (js "`db`.`ltv_weekly`");
     dimensions := Some [js "week"]; metrics := Some [js "avg_ltv_12"];
     columns := [(js "week", column "Date");
                 (js "avg_ltv_12", column "Float64")] |}.

Definition catalogLtv : AiCatalog :=
  {| version := 1; generated_at := js "2024-01-01T00:00:00Z";
     models := [modelLtv] |}.

Definition worldLtv : World :=
  {| catalogFile := Some catalogLtv;
     runSelectReply := fun _ _ => inr {| rows := []; rowCount := 0 |} |}.

Definition sqlLtv : str :=
  js "SELECT week, avg(avg_ltv_12) AS avg_ltv_12" ++ newline ::
  js "FROM `db`.`ltv_weekly`" ++ newline ::
  js "GROUP BY week" ++ newline ::
  js "ORDER BY week".

(** A model with a dimension, no metric and one numeric column. *)
Definition modelDimensionOnly : AiCatalogModel :=
  {| name := js "revenue_weekly"; description := Some (js "revenue by week");
     domain := None; grain := None; schema := None;
     relation_name := Some (js "`db`.`revenue_weekly`");
     dimensions := Some [js "week"]; metrics := Some [];
     columns := [(js "week", column "Date");
                 (js "revenue", column "Float64")] |}.

Definition commentedDrop : str := js "SELECT a FROM T -- drop".

Definition upperCaseDrop : str := js "SELECT a /* c */ FROM T WHERE DROP = 1".

Definition trailingSemicolon : str := js "SELECT a FROM T;".

Definition unknownTable : str := js "SELECT x FROM unknown_table".

(** The allowlist whose one key is the backticked [unknown_table]. *)
Definition allowlistQuoted : Allowlist :=
  {| tables := [(backtick :: js "unknown_table" ++ [backtick], [js "x"])];
     modelToTable := [] |}.

Definition selectAC : str := js "SELECT a, c FROM T".

Definition selectAB : str := js "SELECT a, b FROM T".

(** A query that names the table where a column is expected. *)
Definition selectTableName : str := js "SELECT a, t FROM T".

Definition scenarioC : str := js "SELECT a FROM allowedT; DROP TABLE allowedT".

Definition tab : ascii := ascii_of_nat 9.

(** [sElEcT], a line break, a tab, then the star. *)
Definition spacedStar : str :=
  js "sElEcT" ++ newline :: tab :: js "* FROM T".

End Examples.
Export Examples.

(** ** Pieces of the definitions above, named for the proofs *)

Module Gates.

(** The gates before the allowlist is looked at: the reason of the first
    rejection, or the text of the FROM target. *)
Definition frontGates (normalized : str) : RejectReason + str :=
  if negb (nonEmpty normalized) then inl SqlEmpty
  else if hasMultiStatement normalized then inl MultiStatement
  else if negb (startsWithSelectOrWith (lower normalized)) then inl OnlySelect
  else
    match containsForbidden (lower normalized) with
    | Some (c :: kw) => inl (ForbiddenKeyword (c :: kw))
    | _ =>
        if test selectStarPattern normalized then inl SelectStar
        else
          match extractFromTable normalized with
          | None | Some [] => inl FromNotFound
          | Some fromTableRaw => inr fromTableRaw
          end
    end.

(** The table gate and the column gate. *)
Definition backGates (normalized fromTableRaw : str) (allowlist : Allowlist)
  : Result ValidatedQuery :=
  match find (fun t => str_eqb (stripQuotesTable t) (stripQuotesTable fromTableRaw))
             (mapKeys (tables allowlist)) with
  | None | Some [] => throw (TableNotAllowlisted fromTableRaw)
  | Some allowedTable =>
      match mapGet allowedTable (tables allowlist) with
      | None => inl (Error (js "Cannot read properties of undefined"))
      | Some allowedCols =>
          let referenced := findReferencedColumns normalized fromTableRaw in
          match find (fun c => negb (mem c allowedCols)) referenced with
          | Some c => throw (ColumnNotAllowlisted c)
          | None => inr {| table := allowedTable; referencedColumns := referenced |}
          end
      end
  end.

(** A keyword made of word characters at both ends. *)
Definition wordLike (kw : str) : bool :=
  isWordOpt (hd_error kw) && isWordOpt (last (map Some kw) None).

(** The end of the FROM pattern: the boundary after group 1. *)
Definition groupEnd (group : str) (k : cursor) : option str :=
  _ <- guard (atBoundary k) ;; Some (rev group).

(** The effect of one model on the [tables] map of the allowlist. *)
Definition addTable (t : list (str * list str)) (m : AiCatalogModel)
  : list (str * list str) :=
  mapSet (tableOf m) (columnSet m) t.

(** The comparator [(a, b) => key(b) - key(a)]. *)
Definition descending {A} (key : A -> nat) (a b : A) : Z :=
  (Z.of_nat (key b) - Z.of_nat (key a))%Z.

(** The scored models the search keeps, before sorting. *)
Definition positives (query : str) (ms : list AiCatalogModel)
  : list CatalogSearchResult :=
  filter (fun r => 0 <? relevanceScore r) (map (scoreOf query) ms).

End Gates.
Export Gates.

(** ** Shapes of the texts the validator produces, named for the proofs *)

Module Shapes.

(** All code units of the model, and the letters [a] to [z]. *)
Definition allChars : list ascii := map ascii_of_nat (seq 0 256).

Definition lowerLetters : list ascii := map ascii_of_nat (seq 97 26).

(** A bare identifier: [[A-Za-z_]] followed by word characters. *)
Definition isIdent (s : str) : bool :=
  match s with
  | c :: r => isIdentStart c && forallb isWordChar r
  | [] => false
  end.

(** No white space but single blanks between other code units:
    [prevWs] tells that a blank may not come next. *)
Fixpoint singleSpaced (prevWs : bool) (s : str) : bool :=
  match s with
  | [] => true
  | c :: r =>
      if isWhiteSpace c
      then (code c =? 32) && negb prevWs && singleSpaced true r
      else singleSpaced false r
  end.

End Shapes.
Export Shapes.

(** ** Further concrete inputs *)

Module MoreExamples.

Definition useAsColumn : str := js "SELECT a FROM T WHERE Use = 1".

Definition quotedFrom : str := js "SELECT a FROM `db`.`t` WHERE a = 1".

Definition raggedQuery : str :=
  tab :: js "SELECT  a," ++ newline :: js "   b FROM T -- note" ++ [newline].

Definition blankQuery : str := [tab; newline] ++ js "   ".

Definition leadingBlank : str := js " zzz".

(** A client that always throws. *)
Definition worldDown : World :=
  {| catalogFile := Some catalogLtv;
     runSelectReply := fun _ _ => inl (Error (js "connect ECONNREFUSED")) |}.

(** A model found by the search that has a schema but no [relation_name],
    and a model without any column. *)
Definition modelNoRelation : AiCatalogModel :=
  {| name := js "costs"; description := Some (js "costs by country");
     domain := None; grain := None; schema := Some (js "db");
     relation_name := None; dimensions := Some [js "country"];
     metrics := Some [js "cost"];
     columns := [(js "country", column "String"); (js "cost", column "Float64")] |}.

Definition modelNoColumns : AiCatalogModel :=
  {| name := js "empty"; description := Some (js "profit by country");
     domain := None; grain := None; schema := None;
     relation_name := Some (js "`db`.`empty`");
     dimensions := Some [js "country"]; metrics := Some [js "profit"];
     columns := [(js "note", column "String")] |}.

(** A model whose listed dimension is no column: the fall-back loop runs. *)
Definition modelFallback : AiCatalogModel :=
  {| name := js "raw"; description := None; domain := None; grain := None;
     schema := None; relation_name := Some (js "`db`.`raw`");
     dimensions := Some [js "region"]; metrics := None;
     columns := [(js "revenue", column "Float64"); (js "note", column "String");
                 (js "clicks", column "UInt32")] |}.

Definition catalogOdd : AiCatalog :=
  {| version := 1; generated_at := js "2024-01-01T00:00:00Z";
     models := [modelNoRelation; modelNoColumns] |}.

Definition worldOdd : World :=
  {| catalogFile := Some catalogOdd;
     runSelectReply := fun _ _ => inr {| rows := []; rowCount := 0 |} |}.

Definition dottedColumns : str := js "SELECT t1.a, b, t2.a FROM T".

(** The allowlist with the one table [`db`.`t`] and its one column [a],
    and queries on it that name the schema and the table in the body. *)
Definition allowlistDbT : Allowlist :=
  {| tables := [(js "`db`.`t`", [js "a"])]; modelToTable := [] |}.

Definition selectSchemaNames : str := js "SELECT a, db, t FROM `db`.`t`".

Definition selectSchemaColumn : str := js "SELECT a, DB.x FROM `db`.`t`".

Definition selectOtherColumn : str := js "SELECT a, x FROM `db`.`t`".

End MoreExamples.
Export MoreExamples.

(** ** Pieces of [buildAllowlist], named for the proofs *)

Module AllowlistPieces.

(** The effect of one model on the [modelToTable] map. *)
Definition addName (t : list (str * str)) (m : AiCatalogModel)
  : list (str * str) :=
  mapSet (name m) (tableOf m) t.

End AllowlistPieces.
Export AllowlistPieces.

(** ** Pieces of the catalog search, named for the proofs *)

Module SearchPieces.

(** The names [matchedFields] can hold, in the order the fields are
    examined. *)
Definition FIELDS : list str :=
  map js [ "description"; "metrics"; "dimensions"; "grain"; "domain";
           "columns" ]%string.

(** The score and the credited fields agree: nothing credited, score 0. *)
Definition consistent (names : list str) (st : nat * list str) : Prop :=
  (fst st = 0 <-> snd st = [])
  /\ NoDup (snd st)
  /\ incl (snd st) names.

Definition score (query : str) (m : AiCatalogModel) : nat :=
  fst (calculateRelevanceScore m query).

End SearchPieces.
Export SearchPieces.

(** ** The catalog search tool ([catalogSearchTool.execute] in
       [app/api/chat/catalog-search.ts]) *)

Module CatalogSearchTool.

(** One element of [results] in the tool's reply. *)
Record CatalogSearchEntry := {
  cs_modelName : str;
  cs_description : option str;
  cs_relationName : option str;
  cs_schema : option str;
  cs_dimensions : list str;
  cs_metrics : list str;
  cs_columns : list str;
  cs_relevanceScore : nat;
  cs_matchedFields : list str
}.

(** [{success: false, message, results: []}] or [{success: true, results}]. *)
Inductive CatalogSearchToolResult :=
| CSFailure (msg : str)
| CSSuccess (results : list CatalogSearchEntry).

Definition entryOf (r : CatalogSearchResult) : CatalogSearchEntry :=
  {| cs_modelName := name (model r);
     cs_description := description (model r);
     cs_relationName := relation_name (model r);
     cs_schema := schema (model r);
     cs_dimensions := orEmpty (dimensions (model r));
     cs_metrics := orEmpty (metrics (model r));
     cs_columns := map fst (columns (model r));
     cs_relevanceScore := relevanceScore r;
     cs_matchedFields := matchedFields r |}.

(** The tool has no [try]: what [searchCatalog] throws, it throws. *)
Definition catalogSearchTool (file : option AiCatalog) (query : str)
  : Result CatalogSearchToolResult :=
  match searchCatalog file query with
  | inl e => inl e
  | inr [] => inr (CSFailure (js "No matching models found in catalog"))
  | inr results => inr (CSSuccess (map entryOf results))
  end.

End CatalogSearchTool.
Export CatalogSearchTool.

(** ** Strings, sets and maps *)

Lemma chr_eqb_eq (a b : ascii) : chr_eqb a b = true <-> a = b.
Proof. apply Ascii.eqb_eq. Qed.

Lemma chr_eqb_refl (a : ascii) : chr_eqb a a = true.
Proof. apply Ascii.eqb_refl. Qed.

Lemma str_eqb_eq (a b : str) : str_eqb a b = true <-> a = b.
Proof.
  revert b; induction a as [|x a IH]; intros [|y b]; simpl; split; intros H;
    try reflexivity; try discriminate.
  - apply andb_true_iff in H as [H1 H2].
    apply chr_eqb_eq in H1. apply IH in H2. congruence.
  - injection H as -> ->. rewrite chr_eqb_refl. simpl. now apply IH.
Qed.

Lemma str_eqb_refl (a : str) : str_eqb a a = true.
Proof. now apply str_eqb_eq. Qed.

Lemma str_eqb_neq (a b : str) : str_eqb a b = false <-> a <> b.
Proof.
  split.
  - intros H E. apply str_eqb_eq in E. congruence.
  - intros H. destruct (str_eqb a b) eqn:E; [|reflexivity].
    apply str_eqb_eq in E. contradiction.
Qed.

Lemma mem_In (x : str) (l : list str) : mem x l = true <-> In x l.
Proof.
  unfold mem. rewrite existsb_exists. split.
  - intros (y & Hy & E). apply str_eqb_eq in E. now subst.
  - intros H. exists x. split; [assumption | apply str_eqb_refl].
Qed.

Lemma mem_not_In (x : str) (l : list str) : mem x l = false <-> ~ In x l.
Proof.
  rewrite <- mem_In. destruct (mem x l); split; congruence.
Qed.

Lemma includes_char (s : str) (c : ascii) : includes s [c] = true <-> In c s.
Proof.
  induction s as [|y s IH]; simpl.
  - split; [discriminate | contradiction].
  - replace (startsWith s []) with true by (destruct s; reflexivity).
    rewrite andb_true_r, orb_true_iff, IH, chr_eqb_eq.
    split; intros [H|H]; auto.
Qed.

Lemma setAdd_In (x y : str) (s : list str) :
  In y (setAdd x s) <-> y = x \/ In y s.
Proof.
  unfold setAdd. destruct (mem x s) eqn:E.
  - apply mem_In in E. split; [auto | intros [->|H]; assumption].
  - rewrite in_app_iff. simpl. split; intros H; intuition auto.
Qed.

Lemma mapGet_mapSet_same {V} (k : str) (v : V) (m : list (str * V)) :
  mapGet k (mapSet k v m) = Some v.
Proof.
  induction m as [|[k' v'] m IH]; simpl.
  - now rewrite str_eqb_refl.
  - destruct (str_eqb k' k) eqn:E; simpl; rewrite E; [reflexivity | exact IH].
Qed.

Lemma mapGet_mapSet_other {V} (k k0 : str) (v : V) (m : list (str * V)) :
  k0 <> k -> mapGet k (mapSet k0 v m) = mapGet k m.
Proof.
  intros Hne. induction m as [|[k' v'] m IH]; simpl.
  - assert (E : str_eqb k0 k = false) by now apply str_eqb_neq.
    now rewrite E.
  - destruct (str_eqb k' k0) eqn:E; simpl.
    + apply str_eqb_eq in E. subst k'.
      assert (E : str_eqb k0 k = false) by now apply str_eqb_neq.
      now rewrite E.
    + destruct (str_eqb k' k); [reflexivity | exact IH].
Qed.

Lemma mapGet_key_Some {V} (k : str) (m : list (str * V)) :
  In k (mapKeys m) -> exists v, mapGet k m = Some v.
Proof.
  unfold mapKeys. induction m as [|[k' v'] m IH]; simpl; [contradiction|].
  intros [->|H].
  - rewrite str_eqb_refl. eauto.
  - destruct (str_eqb k' k); eauto.
Qed.

(** ** Code units *)

Ltac by_cases_on_char c :=
  destruct c as [[] [] [] [] [] [] [] []]; vm_compute; try reflexivity;
  try discriminate; try tauto.

Lemma toLowerChar_word (c : ascii) : isWordChar (toLowerChar c) = isWordChar c.
Proof. by_cases_on_char c. Qed.

Lemma toLowerChar_dot (c : ascii) : chr_eqb (toLowerChar c) dot = chr_eqb c dot.
Proof. by_cases_on_char c. Qed.

Lemma last_cons_default {A} (x d : A) (l : list A) : last (x :: l) d = last l x.
Proof.
  revert x d. induction l as [|y l IH]; intros x d; [reflexivity|].
  change (last (x :: y :: l) d) with (last (y :: l) d).
  rewrite (IH y d), (IH y x). reflexivity.
Qed.

(** ** The regular-expression search *)

Lemma searchFrom_found {A} (m : cursor -> option A) (pre : str) :
  forall prev s a,
    m (Cursor (last (map Some pre) prev) s) = Some a ->
    exists a', searchFrom m prev (pre ++ s) = Some a'.
Proof.
  induction pre as [|c pre IH]; intros prev s a H.
  - simpl in H. simpl app. destruct s; simpl; rewrite H; eauto.
  - simpl app. simpl searchFrom.
    destruct (m (Cursor prev (c :: pre ++ s))); [eauto|].
    apply (IH (Some c) s a).
    simpl map in H. now rewrite last_cons_default in H.
Qed.

Lemma lit_ci_self (w rest : str) :
  forall b, lit_ci w (Cursor b (w ++ rest))
            = Some (Cursor (last (map Some w) b) rest).
Proof.
  induction w as [|x w IH]; intros b; [reflexivity|].
  simpl. rewrite chr_eqb_refl, IH.
  now rewrite <- (last_cons_default (Some x) b).
Qed.

Lemma last_nonempty_default {A} (l : list A) (d d' : A) :
  l <> [] -> last l d = last l d'.
Proof.
  destruct l as [|x l]; [congruence|]. intros _.
  now rewrite !last_cons_default.
Qed.

Lemma wordPattern_at (kw rest : str) (b : option ascii) :
  wordLike kw = true ->
  isWordOpt b = false ->
  isWordOpt (hd_error rest) = false ->
  exists k, wordPattern kw (Cursor b (kw ++ rest)) = Some k.
Proof.
  unfold wordLike. intros Hw Hb Hr.
  apply andb_true_iff in Hw as [Hh Hl].
  assert (Hne : kw <> []) by (intros ->; discriminate).
  unfold wordPattern, atBoundary. simpl before. simpl after.
  replace (hd_error (kw ++ rest)) with (hd_error kw)
    by (destruct kw; [congruence | reflexivity]).
  rewrite Hb, Hh. simpl. rewrite lit_ci_self. simpl.
  rewrite (last_nonempty_default (map Some kw) b None)
    by (destruct kw; [congruence | discriminate]).
  rewrite Hl, Hr. simpl. eauto.
Qed.

Lemma occursAsWord_test (kw s : str) :
  wordLike kw = true ->
  occursAsWord kw s ->
  test (wordPattern kw) s = true.
Proof.
  intros Hw (pre & post & -> & Hpre & Hpost).
  unfold test, search.
  destruct (wordPattern_at kw post (last (map Some pre) None) Hw Hpre Hpost)
    as [k Hk].
  destruct (searchFrom_found _ _ _ _ _ Hk) as [k' ->]. reflexivity.
Qed.

Lemma forbidden_wordLike (kw : str) :
  In kw FORBIDDEN_KEYWORDS -> wordLike kw = true.
Proof.
  assert (H : forallb wordLike FORBIDDEN_KEYWORDS = true) by reflexivity.
  rewrite forallb_forall in H. apply H.
Qed.

Lemma forbidden_nonEmpty (kw : str) :
  In kw FORBIDDEN_KEYWORDS -> exists c r, kw = c :: r.
Proof.
  intros H. apply forbidden_wordLike in H.
  destruct kw; [discriminate | eauto].
Qed.

Lemma containsForbidden_Some (sqlLower kw : str) :
  In kw FORBIDDEN_KEYWORDS ->
  test (wordPattern kw) sqlLower = true ->
  exists c r, containsForbidden sqlLower = Some (c :: r)
              /\ In (c :: r) FORBIDDEN_KEYWORDS.
Proof.
  intros Hin Ht. unfold containsForbidden.
  destruct (find (fun kw0 => test (wordPattern kw0) sqlLower) FORBIDDEN_KEYWORDS)
    as [k|] eqn:E.
  - apply find_some in E as [Hk _].
    destruct (forbidden_nonEmpty _ Hk) as (c & r & ->). eauto.
  - apply (find_none _ _ E) in Hin. congruence.
Qed.

Lemma canonicalize_lower (c : ascii) :
  chr_eqb (canonicalize (toLowerChar c)) (canonicalize c) = true.
Proof. by_cases_on_char c. Qed.

Lemma whiteSpace_not_word (c : ascii) :
  isWhiteSpace c = true -> isWordChar c = false.
Proof. by_cases_on_char c. Qed.

Lemma lit_ci_lower (w rest : str) :
  forall b, lit_ci (toLowerCase w) (Cursor b (w ++ rest))
            = Some (Cursor (last (map Some w) b) rest).
Proof.
  induction w as [|x w IH]; intros b; [reflexivity|].
  simpl. rewrite canonicalize_lower, IH.
  now rewrite <- (last_cons_default (Some x) b).
Qed.

(** A greedy run that takes all of [run] and meets a code unit outside the
    class hands over to the rest of the pattern there. *)
Lemma starThen_run {A} (p : ascii -> bool) (cont : str -> cursor -> option A)
      (run rest : str) (a : A) :
  forallb p run = true ->
  (forall c, hd_error rest = Some c -> p c = false) ->
  forall acc prev,
    cont (rev run ++ acc) (Cursor (last (map Some run) prev) rest) = Some a ->
    starThen p cont acc prev (run ++ rest) = Some a.
Proof.
  intros Hrun Hrest. induction run as [|c run IH]; intros acc prev Hc.
  - simpl in *. destruct rest as [|c r]; [exact Hc|].
    simpl. now rewrite (Hrest c eq_refl).
  - simpl in Hrun. apply andb_true_iff in Hrun as [Hp Hrun].
    simpl app. simpl starThen. rewrite Hp.
    rewrite (IH Hrun (c :: acc) (Some c)); [reflexivity|].
    simpl map in Hc. rewrite last_cons_default in Hc.
    simpl rev in Hc. now rewrite <- app_assoc in Hc.
Qed.

Lemma plusThen_run {A} (p : ascii -> bool) (cont : str -> cursor -> option A)
      (run rest : str) (a : A) (prev : option ascii) :
  run <> [] ->
  forallb p run = true ->
  (forall c, hd_error rest = Some c -> p c = false) ->
  cont (rev run) (Cursor (last (map Some run) prev) rest) = Some a ->
  plusThen p cont (Cursor prev (run ++ rest)) = Some a.
Proof.
  intros Hne Hrun Hrest Hc. destruct run as [|c run]; [congruence|].
  simpl in Hrun. apply andb_true_iff in Hrun as [Hp Hrun].
  unfold plusThen. simpl after. simpl app. cbv iota. rewrite Hp.
  apply starThen_run; auto.
  simpl map in Hc. rewrite last_cons_default in Hc.
  simpl rev in Hc. exact Hc.
Qed.

Lemma selectStarText_test (s : str) :
  selectStarText s -> test selectStarPattern s = true.
Proof.
  intros (pre & w & ws & post & -> & Hlow & Hpre & Hne & Hws).
  unfold test, search.
  assert (Hw : isWordOpt (hd_error w) = true
               /\ isWordOpt (last (map Some w) None) = true
               /\ w <> []).
  { destruct w as [|c1 [|c2 [|c3 [|c4 [|c5 [|c6 [|c7 w]]]]]]];
      try discriminate Hlow.
    injection Hlow as H1 H2 H3 H4 H5 H6.
    repeat split; [| |discriminate].
    - simpl. rewrite <- toLowerChar_word, H1. reflexivity.
    - simpl. rewrite <- toLowerChar_word, H6. reflexivity. }
  destruct Hw as (Hh & Hl & Hwne).
  assert (Hsp : exists c ws', ws = c :: ws' /\ isWhiteSpace c = true).
  { destruct ws as [|c ws']; [congruence|]. simpl in Hws.
    apply andb_true_iff in Hws as [Hc _]. eauto. }
  destruct Hsp as (c & ws' & Ews & Hc).
  assert (Hm : exists k,
             selectStarPattern
               (Cursor (last (map Some pre) None) (w ++ ws ++ js "*" ++ post))
             = Some k).
  { unfold selectStarPattern, wordPattern, atBoundary. cbn [before after].
    replace (hd_error (w ++ ws ++ js "*" ++ post)) with (hd_error w)
      by (destruct w; [congruence | reflexivity]).
    unfold lastOf in Hpre. rewrite Hpre, Hh. simpl guard. cbv iota.
    rewrite <- Hlow, lit_ci_lower. cbn [before after].
    rewrite (last_nonempty_default (map Some w) _ None)
      by (destruct w; [congruence | discriminate]).
    rewrite Hl.
    replace (isWordOpt (hd_error (ws ++ js "*" ++ post))) with false
      by (rewrite Ews; simpl; symmetry; now apply whiteSpace_not_word).
    simpl guard. cbv iota.
    eexists. apply plusThen_run; auto.
    - intros x [= <-]. reflexivity.
    - simpl. reflexivity. }
  destruct Hm as [k Hk].
  destruct (searchFrom_found _ _ _ _ _ Hk) as [k' ->]. reflexivity.
Qed.

(** ** The validator as the composition of its gates *)

Lemma validateSql_gates (sql : str) (al : Allowlist) :
  validateSql sql al =
  match frontGates (normalize sql) with
  | inl r => throw r
  | inr fromTableRaw => backGates (normalize sql) fromTableRaw al
  end.
Proof.
  unfold validateSql, frontGates, backGates.
  destruct (negb (nonEmpty (normalize sql))); [reflexivity|].
  destruct (hasMultiStatement (normalize sql)); [reflexivity|].
  destruct (negb (startsWithSelectOrWith (lower (normalize sql)))); [reflexivity|].
  destruct (containsForbidden (lower (normalize sql))) as [[|c kw]|];
    try reflexivity;
    (destruct (test selectStarPattern (normalize sql)); [reflexivity|]);
    destruct (extractFromTable (normalize sql)) as [[|c' raw]|]; reflexivity.
Qed.

Lemma backGates_inr (n raw : str) (al : Allowlist) (v : ValidatedQuery) :
  backGates n raw al = inr v ->
  exists cols,
    In (table v) (mapKeys (tables al)) /\
    stripQuotesTable (table v) = stripQuotesTable raw /\
    mapGet (table v) (tables al) = Some cols /\
    referencedColumns v = findReferencedColumns n raw /\
    forall c, In c (referencedColumns v) -> In c cols.
Proof.
  unfold backGates.
  destruct (find _ (mapKeys (tables al))) as [[|c t]|] eqn:Ef; try discriminate.
  destruct (mapGet (c :: t) (tables al)) as [cols|] eqn:Eg; try discriminate.
  destruct (find _ (findReferencedColumns n raw)) as [x|] eqn:Ec; try discriminate.
  intros [= <-]. simpl. exists cols.
  apply find_some in Ef as [Hin Heq]. apply str_eqb_eq in Heq.
  repeat split; auto.
  intros x Hx. apply (find_none _ _ Ec) in Hx.
  apply negb_false_iff in Hx. now apply mem_In.
Qed.

(** ** The gates before the allowlist *)

(** C3.  A query whose normalized text contains a semicolon anywhere is
    rejected with the multi-statement reason, whatever the allowlist; a
    trailing semicolon is no exception.  Scenario C is rejected at this
    gate, so the table and column gates are not reached. *)
Theorem multi_statement_rejected :
  (forall sql al,
      In ";"%char (normalize sql) ->
      validateSql sql al = inl (SqlValidationError MultiStatement))
  /\ (forall al,
         validateSql scenarioC al = inl (SqlValidationError MultiStatement)
         /\ frontGates (normalize scenarioC) = inl MultiStatement).
Proof.
  split.
  - intros sql al Hin. unfold validateSql.
    destruct (normalize sql) as [|c n] eqn:En; [contradiction|].
    change (negb (nonEmpty (c :: n))) with false. cbv iota.
    assert (Hm : hasMultiStatement (c :: n) = true)
      by (apply includes_char; exact Hin).
    rewrite Hm. reflexivity.
  - intros al. split; reflexivity.
Qed.

Lemma multi_statement_rejected_witness :
  In ";"%char (normalize trailingSemicolon)
  /\ validateSql trailingSemicolon allowlistTa
     = inl (SqlValidationError MultiStatement).
Proof.
  split.
  - vm_compute. tauto.
  - apply (proj1 multi_statement_rejected). vm_compute. tauto.
Defined.

(** C2.  [SELECT * FROM T] is rejected with the explicit-columns reason for
    every allowlist; and every query whose normalized text has the
    select-star pattern, in any letter case and with any white space before
    the star, is rejected before the allowlist is read, with the same
    reason for all allowlists: the explicit-columns reason, unless one of
    the three earlier gates rejects first. *)
Theorem select_star_rejected :
  (forall al,
      validateSql (js "SELECT * FROM T") al = inl (SqlValidationError SelectStar)
      /\ message SelectStar
         = js "SELECT * is not allowed. Specify columns explicitly.")
  /\ (forall sql al,
         selectStarText (normalize sql) ->
         exists r,
           validateSql sql al = inl (SqlValidationError r)
           /\ (r = MultiStatement \/ r = OnlySelect
               \/ (exists kw, r = ForbiddenKeyword kw) \/ r = SelectStar)
           /\ (hasMultiStatement (normalize sql) = false ->
               startsWithSelectOrWith (lower (normalize sql)) = true ->
               containsForbidden (lower (normalize sql)) = None ->
               r = SelectStar)
           /\ forall al', validateSql sql al' = inl (SqlValidationError r)).
Proof.
  split; [intros al; split; reflexivity|].
  intros sql al Hs. apply selectStarText_test in Hs as Ht.
  assert (Hf : exists r,
             frontGates (normalize sql) = inl r
             /\ (r = MultiStatement \/ r = OnlySelect
                 \/ (exists kw, r = ForbiddenKeyword kw) \/ r = SelectStar)
             /\ (hasMultiStatement (normalize sql) = false ->
                 startsWithSelectOrWith (lower (normalize sql)) = true ->
                 containsForbidden (lower (normalize sql)) = None ->
                 r = SelectStar)).
  { unfold frontGates.
    destruct (normalize sql) as [|c n]; [discriminate Ht|].
    change (negb (nonEmpty (c :: n))) with false. cbv iota.
    destruct (hasMultiStatement (c :: n)).
    { eexists. split; [reflexivity|]. split; [auto | discriminate]. }
    destruct (startsWithSelectOrWith (lower (c :: n))); simpl negb; cbv iota.
    2:{ eexists. split; [reflexivity|]. split; [auto | discriminate]. }
    rewrite Ht.
    destruct (containsForbidden (lower (c :: n))) as [[|x kw]|];
      eexists; (split; [reflexivity|]); (split; [eauto 6|]);
      intros _ _ E; try reflexivity; discriminate E. }
  destruct Hf as (r & Hr & Hcases & Hstar).
  exists r. rewrite !validateSql_gates, Hr. repeat split; auto.
  intros al'. rewrite validateSql_gates, Hr. reflexivity.
Qed.

Lemma select_star_rejected_witness :
  selectStarText (normalize spacedStar)
  /\ validateSql spacedStar allowlistTab = inl (SqlValidationError SelectStar)
  /\ exists r,
       validateSql spacedStar allowlistTab = inl (SqlValidationError r)
       /\ (r = MultiStatement \/ r = OnlySelect
           \/ (exists kw, r = ForbiddenKeyword kw) \/ r = SelectStar)
       /\ (hasMultiStatement (normalize spacedStar) = false ->
           startsWithSelectOrWith (lower (normalize spacedStar)) = true ->
           containsForbidden (lower (normalize spacedStar)) = None ->
           r = SelectStar)
       /\ forall al', validateSql spacedStar al' = inl (SqlValidationError r).
Proof.
  assert (H : selectStarText (normalize spacedStar)).
  { exists [], (js "sElEcT"), (js " "), (js " FROM T").
    repeat split; try reflexivity. discriminate. }
  split; [exact H | split; [reflexivity|]].
  exact (proj2 select_star_rejected spacedStar allowlistTab H).
Defined.

(** C1, as the code has it.  The keyword scan reads the normalized text
    (comments stripped, white space collapsed, trimmed) after it has been
    lower-cased.  A query for which that text holds a denylisted keyword as
    a standalone word is rejected for every allowlist: by the
    multi-statement gate, the read-only gate or the keyword scan.  The
    keyword is looked for in the lower-cased text, not in the query as
    written: lower-casing is what makes the scan blind to letter case, and
    it is also what decides which characters stand next to the word. *)
Theorem forbidden_keyword_rejected :
  forall sql al kw,
    In kw FORBIDDEN_KEYWORDS ->
    occursAsWord kw (lower (normalize sql)) ->
    exists r,
      validateSql sql al = inl (SqlValidationError r)
      /\ (r = MultiStatement \/ r = OnlySelect
          \/ exists kw', In kw' FORBIDDEN_KEYWORDS /\ r = ForbiddenKeyword kw').
Proof.
  intros sql al kw Hin Hw.
  pose proof (occursAsWord_test _ _ (forbidden_wordLike _ Hin) Hw) as Ht.
  destruct (containsForbidden_Some _ _ Hin Ht) as (c & r & Hc & Hk).
  rewrite validateSql_gates. unfold frontGates, throw.
  destruct (normalize sql) as [|x n] eqn:En.
  - destruct Hw as (pre & post & E & _).
    destruct (forbidden_nonEmpty _ Hin) as (c0 & r0 & ->).
    destruct pre; discriminate E.
  - change (negb (nonEmpty (x :: n))) with false. cbv iota.
    destruct (hasMultiStatement (x :: n)); [now eauto|].
    destruct (negb (startsWithSelectOrWith (lower (x :: n)))); [now eauto|].
    rewrite Hc. eauto 8.
Qed.

Lemma forbidden_keyword_rejected_witness :
  In (js "drop") FORBIDDEN_KEYWORDS
  /\ occursAsWord (js "drop") (lower (normalize upperCaseDrop))
  /\ exists r,
       validateSql upperCaseDrop allowlistTa = inl (SqlValidationError r)
       /\ (r = MultiStatement \/ r = OnlySelect
           \/ exists kw', In kw' FORBIDDEN_KEYWORDS /\ r = ForbiddenKeyword kw').
Proof.
  assert (Hin : In (js "drop") FORBIDDEN_KEYWORDS) by (vm_compute; tauto).
  assert (Hw : occursAsWord (js "drop") (lower (normalize upperCaseDrop))).
  { exists (js "select a from t where "), (js " = 1").
    repeat split; reflexivity. }
  split; [exact Hin | split; [exact Hw |]].
  exact (forbidden_keyword_rejected upperCaseDrop allowlistTa (js "drop") Hin Hw).
Defined.

(** C1, as stated, fails: a keyword inside a comment is a standalone word
    of the SQL string, yet the query is accepted. *)
Lemma forbidden_keyword_in_comment_accepted :
  In (js "drop") FORBIDDEN_KEYWORDS
  /\ standaloneWord (js "drop") commentedDrop
  /\ validateSql commentedDrop allowlistTa
     = inr {| table := js "T"; referencedColumns := [js "a"] |}.
Proof.
  split; [vm_compute; tauto|].
  split; [|reflexivity].
  exists (js "SELECT a FROM T -- "), (js "drop"), [].
  repeat split; reflexivity.
Qed.

(** ** The table gate *)

Lemma find_all_false {A} (f : A -> bool) (l : list A) :
  (forall x, In x l -> f x = false) -> find f l = None.
Proof.
  induction l as [|y l IH]; intros H; [reflexivity|].
  simpl. rewrite (H y (or_introl eq_refl)). apply IH.
  intros x Hx. apply H. now right.
Qed.

Lemma tableChar_of_word (c : ascii) : isWordChar c = true -> isTableChar c = true.
Proof. by_cases_on_char c. Qed.

Lemma word_not_quote (c : ascii) :
  isWordChar c = true -> negb ((code c =? 34) || (code c =? 96)) = true.
Proof. by_cases_on_char c. Qed.

(** After a word character the group can always end somewhere. *)
Lemma group_after_word (s : str) :
  forall acc prev,
    isWordOpt prev = true ->
    starThen isTableChar groupEnd acc prev s <> None.
Proof.
  induction s as [|c r IH]; intros acc prev Hp.
  - simpl. unfold groupEnd, atBoundary. simpl. rewrite Hp. discriminate.
  - simpl.
    destruct (isWordChar c) eqn:Ew.
    + rewrite (tableChar_of_word _ Ew).
      specialize (IH (c :: acc) (Some c) Ew).
      destruct (starThen isTableChar groupEnd (c :: acc) (Some c) r);
        [discriminate | congruence].
    + assert (G : groupEnd acc (Cursor prev (c :: r)) <> None).
      { unfold groupEnd, atBoundary. simpl. rewrite Hp, Ew. discriminate. }
      destruct (isTableChar c); [|exact G].
      destruct (starThen isTableChar groupEnd (c :: acc) (Some c) r);
        [discriminate | exact G].
Qed.

(** The text of group 1 ends with a word character. *)
Lemma group_ends_with_word (s : str) :
  forall acc prev g,
    prev = hd_error acc ->
    starThen isTableChar groupEnd acc prev s = Some g ->
    exists acc', g = rev acc' /\ isWordOpt (hd_error acc') = true.
Proof.
  induction s as [|c r IH]; intros acc prev g Hp H.
  - simpl in H. unfold groupEnd, atBoundary in H. simpl in H.
    destruct (isWordOpt prev) eqn:Ew; [|discriminate H].
    injection H as <-. exists acc. now rewrite <- Hp.
  - simpl in H.
    assert (Done : groupEnd acc (Cursor prev (c :: r)) = Some g ->
                   isWordOpt prev = true ->
                   exists acc', g = rev acc' /\ isWordOpt (hd_error acc') = true).
    { unfold groupEnd. intros Hg Hw.
      destruct (guard _); [|discriminate Hg].
      injection Hg as <-. exists acc. now rewrite <- Hp. }
    assert (Here : groupEnd acc (Cursor prev (c :: r)) = Some g ->
                   isWordChar c = false ->
                   exists acc', g = rev acc' /\ isWordOpt (hd_error acc') = true).
    { intros Hg Hc. apply (Done Hg).
      unfold groupEnd, atBoundary in Hg. simpl in Hg. rewrite Hc in Hg.
      destruct (isWordOpt prev); [reflexivity | discriminate Hg]. }
    destruct (isTableChar c) eqn:Et.
    + destruct (starThen isTableChar groupEnd (c :: acc) (Some c) r) as [a|] eqn:Er.
      * injection H as ->. apply (IH (c :: acc) (Some c) g eq_refl Er).
      * destruct (isWordChar c) eqn:Ew; [|now apply Here].
        exfalso. now apply (group_after_word r (c :: acc) (Some c) Ew).
    + apply (Here H).
      destruct (isWordChar c) eqn:Ew; [|reflexivity].
      now rewrite (tableChar_of_word _ Ew) in Et.
Qed.

Lemma starThen_from_cont {A} (p : ascii -> bool)
      (cont : str -> cursor -> option A) (s : str) :
  forall acc prev a,
    starThen p cont acc prev s = Some a ->
    exists acc' k, cont acc' k = Some a.
Proof.
  induction s as [|c r IH]; intros acc prev a H; simpl in H; [eauto|].
  destruct (p c); [|eauto].
  destruct (starThen p cont (c :: acc) (Some c) r) eqn:E; [|eauto].
  injection H as ->. eauto.
Qed.

Lemma plusThen_from_cont {A} (p : ascii -> bool)
      (cont : str -> cursor -> option A) (k : cursor) (a : A) :
  plusThen p cont k = Some a -> exists acc' k', cont acc' k' = Some a.
Proof.
  unfold plusThen. destruct (after k) as [|c r]; [discriminate|].
  destruct (p c); [|discriminate]. apply starThen_from_cont.
Qed.

Lemma searchFrom_from_pattern {A} (m : cursor -> option A) (s : str) :
  forall prev a, searchFrom m prev s = Some a -> exists k, m k = Some a.
Proof.
  induction s as [|c r IH]; intros prev a H; simpl in H.
  - destruct (m (Cursor prev [])) eqn:E; [|discriminate H].
    injection H as ->. eauto.
  - destruct (m (Cursor prev (c :: r))) eqn:E; [injection H as ->; eauto|].
    now apply IH in H.
Qed.

(** What [extractFromTable] returns keeps a word character when the quotes
    are removed. *)
Lemma extractFromTable_stripped (n raw : str) :
  extractFromTable n = Some raw -> stripQuotesTable raw <> [].
Proof.
  unfold extractFromTable, search. intros H.
  apply searchFrom_from_pattern in H as [k H].
  unfold fromPattern in H.
  destruct (wordPattern (js "from") k) as [k1|]; [|discriminate H].
  apply plusThen_from_cont in H as (_ & k2 & H).
  change (plusThen isTableChar groupEnd k2 = Some raw) in H.
  unfold plusThen in H. destruct (after k2) as [|c r]; [discriminate H|].
  destruct (isTableChar c); [|discriminate H].
  apply group_ends_with_word in H as (acc & -> & Hw); [|reflexivity].
  destruct acc as [|x acc]; [discriminate Hw|]. simpl in Hw.
  unfold stripQuotesTable. simpl rev. rewrite filter_app. simpl filter.
  rewrite (word_not_quote _ Hw). intros E.
  apply app_eq_nil in E as [_ E]. discriminate E.
Qed.

Lemma frontGates_inr (n raw : str) :
  frontGates n = inr raw -> extractFromTable n = Some raw.
Proof.
  unfold frontGates.
  destruct (negb (nonEmpty n)); [discriminate|].
  destruct (hasMultiStatement n); [discriminate|].
  destruct (negb (startsWithSelectOrWith (lower n))); [discriminate|].
  destruct (containsForbidden (lower n)) as [[|c kw]|]; try discriminate;
    (destruct (test selectStarPattern n); [discriminate|]);
    destruct (extractFromTable n) as [[|x r]|]; try discriminate;
    now intros [= <-].
Qed.

(** The table gate rejects exactly when no key of the allowlist equals the
    FROM target once quotes are removed on both sides. *)
Lemma table_gate_iff (n raw : str) (al : Allowlist) :
  stripQuotesTable raw <> [] ->
  backGates n raw al = inl (SqlValidationError (TableNotAllowlisted raw))
  <-> (forall t, In t (mapKeys (tables al)) ->
                 stripQuotesTable t <> stripQuotesTable raw).
Proof.
  intros Hne. unfold backGates. split.
  - intros H t Hin Heq.
    destruct (find _ (mapKeys (tables al))) as [t'|] eqn:Ef.
    + apply find_some in Ef as [Hin' Heq']. apply str_eqb_eq in Heq'.
      destruct t' as [|c t'].
      * apply Hne. now rewrite <- Heq'.
      * destruct (mapGet_key_Some (c :: t') (tables al) Hin') as [cols Hg].
        rewrite Hg in H.
        destruct (find _ (findReferencedColumns n raw)); discriminate H.
    + apply (find_none _ _ Ef) in Hin.
      apply str_eqb_neq in Hin. contradiction.
  - intros H. rewrite find_all_false; [reflexivity|].
    intros t Hin. apply str_eqb_neq. now apply H.
Qed.

(** C4.  [SELECT x FROM unknown_table] is rejected with the
    table-not-allowlisted reason exactly by the allowlists none of whose
    keys is [unknown_table] once backticks and double quotes are removed.
    In general the FROM target that passed the earlier gates is compared
    with the keys after quotes are removed on both sides. *)
Theorem unknown_table_rejected :
  forall al,
    ((forall t, In t (mapKeys (tables al)) ->
                stripQuotesTable t <> js "unknown_table")
     <-> validateSql unknownTable al
         = inl (SqlValidationError (TableNotAllowlisted (js "unknown_table"))))
    /\ message (TableNotAllowlisted (js "unknown_table"))
       = js "Table is not allowlisted: unknown_table"
    /\ (forall sql raw,
           frontGates (normalize sql) = inr raw ->
           validateSql sql al = inl (SqlValidationError (TableNotAllowlisted raw))
           <-> (forall t, In t (mapKeys (tables al)) ->
                          stripQuotesTable t <> stripQuotesTable raw)).
Proof.
  intros al. split; [|split; [reflexivity|]].
  - rewrite validateSql_gates.
    change (frontGates (normalize unknownTable)) with
      (inr (A := RejectReason) (js "unknown_table")).
    cbv iota. symmetry. apply table_gate_iff. discriminate.
  - intros sql raw Hf. rewrite validateSql_gates, Hf.
    apply table_gate_iff.
    apply (extractFromTable_stripped (normalize sql)), frontGates_inr, Hf.
Qed.

Lemma unknown_table_rejected_witness :
  (forall t, In t (mapKeys (tables allowlistTab)) ->
             stripQuotesTable t <> js "unknown_table")
  /\ validateSql unknownTable allowlistTab
     = inl (SqlValidationError (TableNotAllowlisted (js "unknown_table")))
  /\ validateSql unknownTable allowlistQuoted
     = inr {| table := backtick :: js "unknown_table" ++ [backtick];
              referencedColumns := [js "x"] |}.
Proof.
  assert (H : forall t, In t (mapKeys (tables allowlistTab)) ->
                        stripQuotesTable t <> js "unknown_table").
  { intros t [<-|[]]. discriminate. }
  split; [exact H | split; [|reflexivity]].
  apply (proj1 (proj1 (unknown_table_rejected allowlistTab))). exact H.
Defined.

(** ** The column gate *)

(** C5.  With an allowlist whose only table is [T] and whose columns for
    [T] are exactly [a] and [b], [SELECT a, c FROM T] is rejected with the
    column-not-allowlisted reason naming [c], and [SELECT a, b FROM T] is
    accepted with table [T] and referenced columns [a] and [b]. *)
Theorem column_gate :
  forall al cols,
    tables al = [(js "T", cols)] ->
    (forall c, In c cols <-> c = js "a" \/ c = js "b") ->
    validateSql selectAC al
    = inl (SqlValidationError (ColumnNotAllowlisted (js "c")))
    /\ message (ColumnNotAllowlisted (js "c")) = js "Column is not allowlisted: c"
    /\ validateSql selectAB al
       = inr {| table := js "T"; referencedColumns := [js "a"; js "b"] |}.
Proof.
  intros al cols Ht Hc.
  assert (Ha : mem (js "a") cols = true) by (apply mem_In, Hc; now left).
  assert (Hb : mem (js "b") cols = true) by (apply mem_In, Hc; now right).
  assert (Hn : mem (js "c") cols = false).
  { apply mem_not_In. intros H. apply Hc in H as [H|H]; discriminate H. }
  rewrite !validateSql_gates.
  change (frontGates (normalize selectAC)) with (inr (A := RejectReason) (js "T")).
  change (frontGates (normalize selectAB)) with (inr (A := RejectReason) (js "T")).
  cbv iota. unfold backGates. rewrite Ht.
  change (findReferencedColumns (normalize selectAC) (js "T"))
    with [js "a"; js "c"].
  change (findReferencedColumns (normalize selectAB) (js "T"))
    with [js "a"; js "b"].
  simpl in Ha, Hb, Hn |- *. rewrite Ha, Hb, Hn. simpl. auto.
Qed.

Lemma column_gate_witness :
  validateSql selectAC allowlistTab
  = inl (SqlValidationError (ColumnNotAllowlisted (js "c")))
  /\ message (ColumnNotAllowlisted (js "c")) = js "Column is not allowlisted: c"
  /\ validateSql selectAB allowlistTab
     = inr {| table := js "T"; referencedColumns := [js "a"; js "b"] |}.
Proof.
  apply (column_gate allowlistTab [js "a"; js "b"]); [reflexivity|].
  intros c. simpl. split.
  - intros [H|[H|[]]]; auto.
  - intros [H|H]; auto.
Defined.

(** ** Column extraction *)

Lemma split_nonempty (d : ascii) (s : str) : split d s <> [].
Proof.
  destruct s as [|c r]; simpl; [discriminate|].
  destruct (chr_eqb c d); [discriminate|].
  destruct (split d r); discriminate.
Qed.

Lemma split_lower (s : str) :
  split dot (toLowerCase s) = map toLowerCase (split dot s).
Proof.
  induction s as [|c r IH]; [reflexivity|].
  unfold toLowerCase in *. simpl. rewrite toLowerChar_dot, IH.
  destruct (chr_eqb c dot); [reflexivity|].
  destruct (split dot r); reflexivity.
Qed.

Lemma split_without_separator (d : ascii) (s : str) :
  includes s [d] = false -> split d s = [s].
Proof.
  induction s as [|c r IH]; [reflexivity|].
  intros H. simpl in H.
  replace (startsWith r []) with true in H by (destruct r; reflexivity).
  rewrite andb_true_r in H. apply orb_false_iff in H as [H1 H2].
  simpl. replace (chr_eqb c d) with false.
  - now rewrite (IH H2).
  - symmetry. destruct (chr_eqb c d) eqn:E; [|reflexivity].
    apply chr_eqb_eq in E. subst. now rewrite chr_eqb_refl in H1.
Qed.

Lemma last_In {A} (l : list A) (d : A) : l <> [] -> In (last l d) l.
Proof.
  induction l as [|x l IH]; [congruence|]. intros _.
  destruct l as [|y l]; [now left|].
  right. apply IH. discriminate.
Qed.

(** The column a token contributes is one of its dotted segments. *)
Lemma column_is_segment (tok : str) :
  In (if includes tok [dot] then last (split dot tok) [] else tok)
     (split dot tok).
Proof.
  destruct (includes tok [dot]) eqn:E.
  - apply last_In, split_nonempty.
  - rewrite (split_without_separator _ _ E). now left.
Qed.

Lemma columnOfToken_Some (fromTable tok c : str) :
  columnOfToken fromTable tok = Some c ->
  In c (split dot tok)
  /\ forall part, In part (split dot (toLowerCase tok)) ->
                  ~ In part (fromPartsOf fromTable).
Proof.
  unfold columnOfToken.
  destruct (mem (toLowerCase tok) stop); [discriminate|].
  destruct (mem (toLowerCase tok) FORBIDDEN_KEYWORDS); [discriminate|].
  destruct (existsb _ (split dot (toLowerCase tok))) eqn:Ex; [discriminate|].
  destruct (_ && _); [discriminate|].
  intros [= <-]. split; [apply column_is_segment|].
  intros part Hp Hin.
  rewrite <- not_true_iff_false in Ex. apply Ex.
  apply existsb_exists. exists part. split; [exact Hp | now apply mem_In].
Qed.

Lemma findReferencedColumns_origin (n fromTable c : str) :
  In c (findReferencedColumns n fromTable) ->
  exists tok, In tok (matchAll identPattern 0 n)
              /\ columnOfToken fromTable tok = Some c.
Proof.
  unfold findReferencedColumns.
  generalize (matchAll identPattern 0 n). intros tokens.
  assert (G : forall cols,
             In c (fold_left
                     (fun cols tok =>
                        match columnOfToken fromTable tok with
                        | Some c => setAdd c cols
                        | None => cols
                        end) tokens cols) ->
             In c cols \/ exists tok, In tok tokens
                                      /\ columnOfToken fromTable tok = Some c).
  { induction tokens as [|t tokens IH]; intros cols H; [now left|].
    simpl in H. apply IH in H as [H|(tok & Hin & Hc)].
    - destruct (columnOfToken fromTable t) as [c'|] eqn:E; [|now left].
      apply setAdd_In in H as [->|H]; [|now left].
      right. exists t. split; [now left | exact E].
    - right. exists tok. split; [now right | exact Hc]. }
  intros H. apply G in H as [[]|H]. exact H.
Qed.

Lemma fromPartsOf_stripped (t raw : str) :
  stripQuotesTable t = stripQuotesTable raw -> fromPartsOf t = fromPartsOf raw.
Proof. unfold fromPartsOf. now intros ->. Qed.

Lemma validateSql_inr (sql : str) (al : Allowlist) (v : ValidatedQuery) :
  validateSql sql al = inr v ->
  exists raw cols,
    frontGates (normalize sql) = inr raw /\
    In (table v) (mapKeys (tables al)) /\
    stripQuotesTable (table v) = stripQuotesTable raw /\
    mapGet (table v) (tables al) = Some cols /\
    referencedColumns v = findReferencedColumns (normalize sql) raw /\
    forall c, In c (referencedColumns v) -> In c cols.
Proof.
  rewrite validateSql_gates.
  destruct (frontGates (normalize sql)) as [r|raw]; [discriminate|].
  intros H. apply backGates_inr in H as (cols & H).
  exists raw, cols. tauto.
Qed.

Lemma columnOfToken_table_part (fromTable tok part : str) :
  In part (split dot (toLowerCase tok)) ->
  In part (fromPartsOf fromTable) ->
  columnOfToken fromTable tok = None.
Proof.
  intros Hp Hf.
  destruct (columnOfToken fromTable tok) as [c|] eqn:E; [|reflexivity].
  apply columnOfToken_Some in E as [_ E]. now apply E in Hp.
Qed.

(** ** The allowlist builder *)

Lemma setOf_fold_In (c : str) (xs : list str) :
  forall s, In c (fold_left (fun s x => setAdd x s) xs s) <-> In c s \/ In c xs.
Proof.
  induction xs as [|x xs IH]; intros s; simpl.
  - tauto.
  - rewrite IH, setAdd_In. intuition auto.
Qed.

Lemma setAdd_NoDup (x : str) (s : list str) : NoDup s -> NoDup (setAdd x s).
Proof.
  intros H. unfold setAdd. destruct (mem x s) eqn:E; [exact H|].
  apply mem_not_In in E.
  apply (Permutation_NoDup (Permutation_cons_append s x)).
  now constructor.
Qed.

Lemma setOf_In (c : str) (xs : list str) : In c (setOf xs) <-> In c xs.
Proof. unfold setOf. rewrite setOf_fold_In. simpl. tauto. Qed.

Lemma setOf_NoDup (xs : list str) : NoDup (setOf xs).
Proof.
  unfold setOf. generalize (NoDup_nil str). generalize (@nil str).
  induction xs as [|x xs IH]; intros s Hs; simpl; [exact Hs|].
  apply IH. now apply setAdd_NoDup.
Qed.

Lemma tables_fold (ms : list AiCatalogModel) :
  forall al, tables (fold_left addModel ms al) = fold_left addTable ms (tables al).
Proof.
  induction ms as [|m ms IH]; intros al; [reflexivity|].
  simpl. now rewrite IH.
Qed.

Lemma addTable_fold_other (k : str) (ms : list AiCatalogModel) :
  forall t,
    (forall x, In x ms -> tableOf x <> k) ->
    mapGet k (fold_left addTable ms t) = mapGet k t.
Proof.
  induction ms as [|m ms IH]; intros t H; [reflexivity|].
  simpl. rewrite IH by (intros x Hx; apply H; now right).
  apply mapGet_mapSet_other. apply H. now left.
Qed.

Lemma addTable_fold_last (before after : list AiCatalogModel) (m : AiCatalogModel) :
  forall t,
    (forall x, In x after -> tableOf x <> tableOf m) ->
    mapGet (tableOf m) (fold_left addTable (before ++ m :: after) t)
    = Some (columnSet m).
Proof.
  intros t H. rewrite fold_left_app. simpl.
  rewrite (addTable_fold_other _ _ _ H).
  apply mapGet_mapSet_same.
Qed.

(** Among the models that resolve to [k] there is a last one. *)
Lemma last_with_identity (k : str) (ms : list AiCatalogModel) :
  (exists m, In m ms /\ tableOf m = k) ->
  exists before m' after,
    ms = before ++ m' :: after /\ tableOf m' = k /\
    forall x, In x after -> tableOf x <> k.
Proof.
  induction ms as [|a ms IH]; intros (m & Hin & Hk); [contradiction|].
  destruct (existsb (fun x => str_eqb (tableOf x) k) ms) eqn:E.
  - apply existsb_exists in E as (x & Hx & Ex). apply str_eqb_eq in Ex.
    destruct IH as (before & m' & after & -> & Hm' & Hafter); [eauto|].
    exists (a :: before), m', after. auto.
  - assert (Hnone : forall x, In x ms -> tableOf x <> k).
    { intros x Hx Ex. rewrite <- not_true_iff_false in E. apply E.
      apply existsb_exists. exists x. split; [exact Hx | now apply str_eqb_eq]. }
    destruct Hin as [->|Hin]; [|now apply Hnone in Hin].
    exists [], m, ms. auto.
Qed.

(** C7.  [buildAllowlist] is a function of the catalog alone.  For every
    model the result has an entry under that model's table identity; its
    value is the key set of the columns of the last model of the catalog
    with that identity, hence of the model itself when no later model
    resolves to the same table.  The identity is [relation_name] (trimmed)
    when that is not blank, else the backticked schema and name when a
    schema is given, else the backticked name.  The key set has exactly
    the keys of [columns]; nothing else of the model is read. *)
Theorem buildAllowlist_complete :
  forall catalog,
    (forall m, In m (models catalog) ->
       exists before m' after,
         models catalog = before ++ m' :: after
         /\ tableOf m' = tableOf m
         /\ (forall x, In x after -> tableOf x <> tableOf m)
         /\ mapGet (tableOf m) (tables (buildAllowlist catalog))
            = Some (columnSet m'))
    /\ (forall before m after,
           models catalog = before ++ m :: after ->
           (forall x, In x after -> tableOf x <> tableOf m) ->
           mapGet (tableOf m) (tables (buildAllowlist catalog))
           = Some (columnSet m))
    /\ (forall m, NoDup (columnSet m)
                  /\ forall c, In c (columnSet m) <-> In c (map fst (columns m)))
    /\ (forall m r, relation_name m = Some r -> trim r <> [] ->
                    tableOf m = trim r)
    /\ (forall m s,
           (forall r, relation_name m = Some r -> trim r = []) ->
           schema m = Some s -> s <> [] ->
           tableOf m
           = backtick :: s ++ backtick :: js "." ++ backtick :: name m ++ [backtick])
    /\ (forall m,
           (forall r, relation_name m = Some r -> trim r = []) ->
           truthy (schema m) = false ->
           tableOf m = backtick :: name m ++ [backtick])
    /\ (forall al m1 m2,
           name m1 = name m2 -> schema m1 = schema m2 ->
           relation_name m1 = relation_name m2 -> columns m1 = columns m2 ->
           addModel al m1 = addModel al m2).
Proof.
  intros catalog.
  assert (Last : forall before m after,
             models catalog = before ++ m :: after ->
             (forall x, In x after -> tableOf x <> tableOf m) ->
             mapGet (tableOf m) (tables (buildAllowlist catalog))
             = Some (columnSet m)).
  { intros before m after E H. unfold buildAllowlist.
    rewrite tables_fold, E. now apply addTable_fold_last. }
  split; [|split; [exact Last|]].
  - intros m Hin.
    destruct (last_with_identity (tableOf m) (models catalog))
      as (before & m' & after & E & Hk & Hafter); [eauto|].
    exists before, m', after. repeat split; auto.
    rewrite <- Hk. apply (Last before m' after E).
    now rewrite Hk.
  - split; [|split; [|split; [|split]]].
    + intros m. split; [apply setOf_NoDup | intros c; apply setOf_In].
    + intros m r Hr Ht. unfold tableOf. rewrite Hr.
      destruct r as [|c r]; [now destruct Ht|].
      destruct (trim (c :: r)); [now destruct Ht | reflexivity].
    + intros m s Hr Hs Hne. unfold tableOf. rewrite Hs.
      destruct s as [|c s]; [now destruct Hne|]. simpl truthy. cbv iota.
      destruct (relation_name m) as [[|x r]|]; try reflexivity.
      now rewrite (Hr _ eq_refl).
    + intros m Hr Hs. unfold tableOf. rewrite Hs.
      destruct (relation_name m) as [[|x r]|]; try reflexivity.
      now rewrite (Hr _ eq_refl).
    + intros al m1 m2 Hn Hs Hr Hc. unfold addModel, tableOf, columnSet.
      now rewrite Hn, Hs, Hr, Hc.
Qed.

Lemma buildAllowlist_complete_witness :
  In modelFirst (models catalogTwo)
  /\ tableOf modelFirst = tableOf modelSecond
  /\ exists before m' after,
       models catalogTwo = before ++ m' :: after
       /\ tableOf m' = tableOf modelFirst
       /\ (forall x, In x after -> tableOf x <> tableOf modelFirst)
       /\ mapGet (tableOf modelFirst) (tables (buildAllowlist catalogTwo))
          = Some (columnSet m').
Proof.
  assert (H : In modelFirst (models catalogTwo)) by (left; reflexivity).
  split; [exact H | split; [reflexivity|]].
  exact (proj1 (buildAllowlist_complete catalogTwo) modelFirst H).
Defined.

(** ** The stable sort and the catalog search *)

Section SortByKey.
Variable A : Type.
Variable key : A -> nat.

Lemma descending_le (x y : A) : (descending key x y <=? 0)%Z = (key y <=? key x).
Proof.
  unfold descending.
  destruct (key y <=? key x) eqn:E.
  - apply Nat.leb_le in E. apply Z.leb_le. lia.
  - apply Nat.leb_gt in E. apply Z.leb_gt. lia.
Qed.

Lemma insertSorted_perm (x : A) (l : list A) :
  Permutation (insertSorted (descending key) x l) (x :: l).
Proof.
  induction l as [|y l IH]; simpl; [reflexivity|].
  destruct (descending key x y <=? 0)%Z; [reflexivity|].
  rewrite IH. apply perm_swap.
Qed.

Lemma sort_perm (l : list A) : Permutation (sort (descending key) l) l.
Proof.
  induction l as [|x l IH]; simpl; [reflexivity|].
  rewrite insertSorted_perm. now constructor.
Qed.

Lemma insertSorted_sorted (x : A) (l : list A) :
  StronglySorted (fun a b => key b <= key a) l ->
  StronglySorted (fun a b => key b <= key a) (insertSorted (descending key) x l).
Proof.
  induction 1 as [|y l Hs IH Hall]; simpl.
  - repeat constructor.
  - rewrite descending_le. destruct (key y <=? key x) eqn:E.
    + apply Nat.leb_le in E. constructor; [now constructor|].
      constructor; [exact E|].
      eapply Forall_impl; [|exact Hall]. simpl. intros z Hz. lia.
    + apply Nat.leb_gt in E. constructor; [exact IH|].
      apply (Permutation_Forall (Permutation_sym (insertSorted_perm x l))).
      constructor; [lia | exact Hall].
Qed.

Lemma sort_sorted (l : list A) :
  StronglySorted (fun a b => key b <= key a) (sort (descending key) l).
Proof.
  induction l as [|x l IH]; simpl; [constructor|].
  now apply insertSorted_sorted.
Qed.

(** Insertion leaves the elements of one key in their order: the new
    element passes only elements of a strictly larger key. *)
Lemma insertSorted_filter (v : nat) (x : A) (l : list A) :
  filter (fun a => key a =? v) (insertSorted (descending key) x l)
  = filter (fun a => key a =? v) (x :: l).
Proof.
  induction l as [|y l IH]; [reflexivity|].
  simpl insertSorted. rewrite descending_le.
  destruct (key y <=? key x) eqn:E; [reflexivity|].
  apply Nat.leb_gt in E.
  change (filter (fun a => key a =? v) (y :: insertSorted (descending key) x l))
    with (if key y =? v
          then y :: filter (fun a => key a =? v) (insertSorted (descending key) x l)
          else filter (fun a => key a =? v) (insertSorted (descending key) x l)).
  rewrite IH. simpl.
  destruct (key y =? v) eqn:Ey; [|reflexivity].
  apply Nat.eqb_eq in Ey.
  assert (Ex : (key x =? v) = false) by (apply Nat.eqb_neq; lia).
  now rewrite Ex.
Qed.

Lemma sort_stable (v : nat) (l : list A) :
  filter (fun a => key a =? v) (sort (descending key) l) = filter (fun a => key a =? v) l.
Proof.
  induction l as [|x l IH]; [reflexivity|].
  simpl sort. rewrite insertSorted_filter. simpl. now rewrite IH.
Qed.

End SortByKey.

Lemma searchCatalog_loaded (file : option AiCatalog) (catalog : AiCatalog)
      (query : str) :
  loadAiCatalog file = inr catalog ->
  searchCatalog file query
  = inr (sort byScoreDesc (positives query (models catalog))).
Proof. intros H. unfold searchCatalog. now rewrite H. Qed.

(** C8.  For a loaded catalog the search returns the scored models of
    strictly positive score, each as often as the catalog has it, ordered
    by score descending; the results of one score are in catalog order. *)
Theorem searchCatalog_ranked :
  forall file catalog query,
    loadAiCatalog file = inr catalog ->
    exists results,
      searchCatalog file query = inr results
      /\ Permutation results (positives query (models catalog))
      /\ (forall r, In r results <->
                    exists m, In m (models catalog) /\ r = scoreOf query m
                              /\ 0 < relevanceScore r)
      /\ StronglySorted
           (fun a b => relevanceScore b <= relevanceScore a) results
      /\ (forall v,
             filter (fun r => relevanceScore r =? v) results
             = filter (fun r => relevanceScore r =? v)
                      (positives query (models catalog))).
Proof.
  intros file catalog query Hload.
  exists (sort byScoreDesc (positives query (models catalog))).
  split; [now apply searchCatalog_loaded|].
  pose proof (sort_perm _ relevanceScore (positives query (models catalog))) as P.
  split; [exact P|]. split; [|split].
  - intros r. split.
    + intros H. apply (Permutation_in _ P) in H.
      unfold positives in H. apply filter_In in H as [H Hpos].
      apply in_map_iff in H as (m & <- & Hm).
      exists m. apply Nat.ltb_lt in Hpos. auto.
    + intros (m & Hm & -> & Hpos).
      apply (Permutation_in _ (Permutation_sym P)).
      unfold positives. apply filter_In. split.
      * now apply in_map.
      * now apply Nat.ltb_lt.
  - apply (sort_sorted _ relevanceScore).
  - intros v. apply (sort_stable _ relevanceScore).
Qed.

Lemma searchCatalog_ranked_witness :
  loadAiCatalog (Some catalogThree) = inr catalogThree
  /\ map (fun r => (name (model r), relevanceScore r))
         (sort byScoreDesc (positives (js "ltv") (models catalogThree)))
     = [(js "m2", 10); (js "m1", 2); (js "m3", 2)]
  /\ exists results,
       searchCatalog (Some catalogThree) (js "ltv") = inr results
       /\ Permutation results (positives (js "ltv") (models catalogThree))
       /\ (forall r, In r results <->
                     exists m, In m (models catalogThree)
                               /\ r = scoreOf (js "ltv") m
                               /\ 0 < relevanceScore r)
       /\ StronglySorted
            (fun a b => relevanceScore b <= relevanceScore a) results
       /\ (forall v,
              filter (fun r => relevanceScore r =? v) results
              = filter (fun r => relevanceScore r =? v)
                       (positives (js "ltv") (models catalogThree))).
Proof.
  split; [reflexivity | split; [reflexivity|]].
  exact (searchCatalog_ranked (Some catalogThree) catalogThree (js "ltv") eq_refl).
Defined.

(** ** The tool entry points *)

Lemma gated_nil (al : Allowlist) : gated al [].
Proof. intros [|x pre] sql lim post H; discriminate H. Qed.

Lemma gated_validated_then_run (al : Allowlist) (sql : str)
      (v : ValidatedQuery) (lim : Limits) :
  validateSql sql al = inr v ->
  gated al [EvValidated sql v; EvRunSelect sql lim].
Proof.
  intros Hv pre sql' lim' post H.
  destruct pre as [|x [|y pre]].
  - discriminate H.
  - injection H as Hx Hs Hl Hp. subst. exists v. split; [now left | exact Hv].
  - injection H as _ _ H. destruct pre; discriminate H.
Qed.

(** A run of the natural-language tool leaves an empty trace, or one
    successful validation followed by the one call of the client, both for
    the same SQL text. *)
Lemma queryExecutor_trace (w : World) (query : str) :
  snd (queryExecutor w query) = []
  \/ exists catalog sql v,
       loadAiCatalog (catalogFile w) = inr catalog
       /\ validateSql sql (buildAllowlist catalog) = inr v
       /\ snd (queryExecutor w query)
          = [EvValidated sql v; EvRunSelect sql limits].
Proof.
  unfold queryExecutor, tryCatch, queryExecutorBody, callValidateSql, runSelect,
    bind, lift, emit, ret.
  destruct (searchCatalog (catalogFile w) query) as [e|[|first rest]];
    [now left | now left |].
  destruct (relation_name (model first)) as [[|c rel]|]; [now left | | now left].
  destruct (generateSql (model first) (c :: rel)) as [sql|]; [|now left].
  destruct (loadAiCatalog (catalogFile w)) as [e|catalog] eqn:El; [now left|].
  destruct (validateSql sql (buildAllowlist catalog)) as [e|v] eqn:Ev; [now left|].
  right. exists catalog, sql, v. repeat split; auto.
  simpl. destruct (runSelectReply w sql limits); reflexivity.
Qed.

Lemma sqlExecutor_trace (w : World) (sql : str) :
  snd (sqlExecutor w sql) = []
  \/ exists catalog v,
       loadAiCatalog (catalogFile w) = inr catalog
       /\ validateSql sql (buildAllowlist catalog) = inr v
       /\ snd (sqlExecutor w sql) = [EvValidated sql v; EvRunSelect sql limits].
Proof.
  unfold sqlExecutor, tryCatch, sqlExecutorBody, callValidateSql, runSelect,
    bind, lift, emit, ret.
  destruct (loadAiCatalog (catalogFile w)) as [e|catalog] eqn:El; [now left|].
  destruct (validateSql sql (buildAllowlist catalog)) as [e|v] eqn:Ev; [now left|].
  right. exists catalog, v. repeat split; auto.
  simpl. destruct (runSelectReply w sql limits); reflexivity.
Qed.

(** C6.  In a run of either entry point every call of the execution client
    comes after [validateSql] has returned a value for the same SQL text,
    validated against the allowlist of the loaded catalog; without a
    loadable catalog the client is not called at all.  A search without
    candidates ends the run with NO_MODEL_FOUND and a rejection by the
    validator ends it with SQL_VALIDATION_ERROR carrying the validator's
    message, in both cases with no call of the client. *)
Theorem execution_gated :
  forall w,
    (forall query,
        match loadAiCatalog (catalogFile w) with
        | inr catalog =>
            gated (buildAllowlist catalog) (snd (queryExecutor w query))
        | inl _ => snd (queryExecutor w query) = []
        end)
    /\ (forall sql,
           match loadAiCatalog (catalogFile w) with
           | inr catalog =>
               gated (buildAllowlist catalog) (snd (sqlExecutor w sql))
           | inl _ => snd (sqlExecutor w sql) = []
           end)
    /\ (forall query,
           searchCatalog (catalogFile w) query = inr [] ->
           exists msg,
             queryExecutor w query = (QFailure NO_MODEL_FOUND msg, []))
    /\ (forall query first rest relation sql catalog r,
           searchCatalog (catalogFile w) query = inr (first :: rest) ->
           relation_name (model first) = Some relation ->
           relation <> [] ->
           generateSql (model first) relation = Some sql ->
           loadAiCatalog (catalogFile w) = inr catalog ->
           validateSql sql (buildAllowlist catalog)
           = inl (SqlValidationError r) ->
           queryExecutor w query
           = (QFailure SQL_VALIDATION_ERROR (message r), []))
    /\ (forall sql catalog r,
           loadAiCatalog (catalogFile w) = inr catalog ->
           validateSql sql (buildAllowlist catalog)
           = inl (SqlValidationError r) ->
           sqlExecutor w sql = (SFailure SQL_VALIDATION_ERROR (message r), [])).
Proof.
  intros w. split; [|split; [|split; [|split]]].
  - intros query.
    destruct (queryExecutor_trace w query) as [E|(c & sql & v & Hc & Hv & E)];
      rewrite E.
    + destruct (loadAiCatalog (catalogFile w)); [reflexivity | apply gated_nil].
    + rewrite Hc. now apply gated_validated_then_run.
  - intros sql.
    destruct (sqlExecutor_trace w sql) as [E|(c & v & Hc & Hv & E)]; rewrite E.
    + destruct (loadAiCatalog (catalogFile w)); [reflexivity | apply gated_nil].
    + rewrite Hc. now apply gated_validated_then_run.
  - intros query Hs.
    unfold queryExecutor, tryCatch, queryExecutorBody, bind, lift, ret.
    rewrite Hs. eauto.
  - intros query first rest relation sql catalog r Hs Hr Hne Hg Hload Hv.
    unfold queryExecutor, tryCatch, queryExecutorBody, callValidateSql, bind,
      lift, ret.
    rewrite Hs, Hr.
    destruct relation as [|c rel]; [now destruct Hne|].
    rewrite Hg, Hload, Hv. reflexivity.
  - intros sql catalog r Hload Hv.
    unfold sqlExecutor, tryCatch, sqlExecutorBody, callValidateSql, bind,
      lift, ret.
    rewrite Hload, Hv. reflexivity.
Qed.

Lemma execution_gated_witness :
  searchCatalog (catalogFile worldLtv) (js "costs") = inr []
  /\ loadAiCatalog (catalogFile worldLtv) = inr catalogLtv
  /\ validateSql scenarioC (buildAllowlist catalogLtv)
     = inl (SqlValidationError MultiStatement)
  /\ snd (queryExecutor worldLtv (js "ltv"))
     = [EvValidated sqlLtv {| table := js "`db`.`ltv_weekly`";
                              referencedColumns := [js "week"; js "avg_ltv_12"] |};
        EvRunSelect sqlLtv limits]
  /\ gated (buildAllowlist catalogLtv) (snd (queryExecutor worldLtv (js "ltv")))
  /\ (exists msg,
         queryExecutor worldLtv (js "costs") = (QFailure NO_MODEL_FOUND msg, []))
  /\ sqlExecutor worldLtv scenarioC
     = (SFailure SQL_VALIDATION_ERROR (message MultiStatement), []).
Proof.
  pose proof (execution_gated worldLtv) as (Hq & _ & Hnone & _ & Hsql).
  split; [reflexivity|]. split; [reflexivity|]. split; [reflexivity|].
  split; [reflexivity|]. split; [exact (Hq (js "ltv"))|].
  split; [apply Hnone; reflexivity|].
  apply (Hsql scenarioC catalogLtv); reflexivity.
Defined.

(** ** The SQL generator *)

(** C9, at a model with a selected dimension and no selected metric: the
    numeric columns are not projected, because the fall-back loop runs only
    when nothing at all was selected. *)
Theorem fallback_skipped_with_dimension :
  metricParts modelDimensionOnly = []
  /\ dimensionParts modelDimensionOnly = [js "week"]
  /\ numericParts modelDimensionOnly = [js "week"; js "avg(revenue) AS revenue"]
  /\ selectPartsOf modelDimensionOnly = [js "week"]
  /\ generateSql modelDimensionOnly (js "`db`.`revenue_weekly`")
     = Some (js "SELECT week" ++ newline ::
             js "FROM `db`.`revenue_weekly`" ++ newline ::
             js "GROUP BY week" ++ newline ::
             js "ORDER BY week").
Proof. repeat split; reflexivity. Qed.

(** ** The keyword scan, read backwards *)

Lemma allChars_In (c : ascii) : In c allChars.
Proof.
  rewrite <- (ascii_nat_embedding c). apply in_map, in_seq.
  pose proof (nat_ascii_bounded c). lia.
Qed.

Lemma lowerLetters_In (x : ascii) : isLowerAZ x = true -> In x lowerLetters.
Proof.
  unfold isLowerAZ, inRange, code. intros H.
  apply andb_true_iff in H as [H1 H2].
  apply Nat.leb_le in H1, H2.
  rewrite <- (ascii_nat_embedding x). apply in_map, in_seq. lia.
Qed.

(** A property of code units that holds on the whole table. *)
Lemma on_all_chars (P : ascii -> bool) :
  forallb P allChars = true -> forall c, P c = true.
Proof.
  intros H c. rewrite forallb_forall in H. apply H, allChars_In.
Qed.

Lemma lower_matches_lower (x c : ascii) :
  isLowerAZ x = true ->
  chr_eqb (canonicalize x) (canonicalize (toLowerChar c)) = true ->
  toLowerChar c = x.
Proof.
  assert (H : forallb (fun x => forallb (fun c =>
              implb (chr_eqb (canonicalize x) (canonicalize (toLowerChar c)))
                    (chr_eqb (toLowerChar c) x)) allChars) lowerLetters = true)
    by (vm_compute; reflexivity).
  intros Hx Hc.
  rewrite forallb_forall in H. specialize (H x (lowerLetters_In x Hx)).
  rewrite forallb_forall in H. specialize (H c (allChars_In c)).
  rewrite Hc in H. simpl in H. now apply chr_eqb_eq.
Qed.

Lemma lowerAZ_word (x : ascii) : isLowerAZ x = true -> isWordChar x = true.
Proof.
  intros H. unfold isWordChar. rewrite H. now rewrite orb_true_r.
Qed.

Lemma searchFrom_inv {A} (m : cursor -> option A) (s : str) :
  forall prev a,
    searchFrom m prev s = Some a ->
    exists pre rest,
      s = pre ++ rest /\ m (Cursor (last (map Some pre) prev) rest) = Some a.
Proof.
  induction s as [|c r IH]; intros prev a H; simpl in H.
  - destruct (m (Cursor prev [])) eqn:E; [|discriminate H].
    injection H as ->. exists [], []. auto.
  - destruct (m (Cursor prev (c :: r))) eqn:E.
    + injection H as ->. exists [], (c :: r). auto.
    + apply IH in H as (pre & rest & -> & H).
      exists (c :: pre), rest. split; [reflexivity|].
      simpl map. now rewrite last_cons_default.
Qed.

Lemma lit_ci_inv (w : str) :
  forall b rest k,
    lit_ci w (Cursor b rest) = Some k ->
    exists t rest',
      rest = t ++ rest'
      /\ k = Cursor (last (map Some t) b) rest'
      /\ Forall2 (fun x c => chr_eqb (canonicalize x) (canonicalize c) = true) w t.
Proof.
  induction w as [|x w IH]; intros b rest k H; simpl in H.
  - injection H as <-. exists [], rest. repeat split. constructor.
  - destruct rest as [|c r]; [discriminate H|].
    destruct (chr_eqb (canonicalize x) (canonicalize c)) eqn:E; [|discriminate H].
    apply IH in H as (t & rest' & -> & -> & F).
    exists (c :: t), rest'. repeat split.
    + simpl map. now rewrite last_cons_default.
    + now constructor.
Qed.

(** In lowered text a match of a lower-case literal is the literal. *)
Lemma lowered_match_is_literal (kw : str) :
  forallb isLowerAZ kw = true ->
  forall t,
    Forall2 (fun x c => chr_eqb (canonicalize x)
                                (canonicalize (toLowerChar c)) = true) kw t ->
    toLowerCase t = kw.
Proof.
  intros Hkw t F. induction F as [|x c kw t Hxc F IH]; [reflexivity|].
  simpl in Hkw. apply andb_true_iff in Hkw as [Hx Hkw].
  simpl. now rewrite (lower_matches_lower _ _ Hx Hxc), (IH Hkw).
Qed.

Lemma Forall2_map_r {A B C} (R : A -> C -> Prop) (f : B -> C) (l : list A) :
  forall t, Forall2 R l (map f t) -> Forall2 (fun x c => R x (f c)) l t.
Proof.
  induction l as [|x l IH]; intros [|c t] H; inversion H; subst;
    constructor; auto.
Qed.

(** A match of the word pattern in lowered text is an occurrence of the
    keyword itself, with no word character on either side. *)
Lemma test_occursAsWord (kw n : str) :
  kw <> [] ->
  forallb isLowerAZ kw = true ->
  test (wordPattern kw) (lower n) = true ->
  occursAsWord kw (lower n).
Proof.
  intros Hne Hkw Ht. unfold test, search in Ht.
  destruct (searchFrom (wordPattern kw) None (lower n)) as [k|] eqn:E;
    [clear Ht | discriminate Ht].
  apply searchFrom_inv in E as (pre' & rest & En & E).
  unfold wordPattern in E.
  destruct (atBoundary (Cursor (last (map Some pre') None) rest)) eqn:B1;
    [|discriminate E]. simpl guard in E. cbv iota in E.
  destruct (lit_ci kw _) as [k1|] eqn:L; [|discriminate E].
  destruct (atBoundary k1) eqn:B2; [|discriminate E]. clear E.
  apply lit_ci_inv in L as (t' & rest' & -> & -> & F).
  rewrite En. unfold lower, toLowerCase in En.
  apply map_eq_app in En as (pre & rest0 & _ & Hpre & En).
  apply map_eq_app in En as (t & post & _ & Ht & Hpost).
  subst t'.
  apply Forall2_map_r in F.
  pose proof (lowered_match_is_literal kw Hkw t F) as Hlit.
  unfold toLowerCase in Hlit. rewrite Hlit in *. clear Hlit F t.
  assert (Hh : isWordOpt (hd_error kw) = true).
  { destruct kw as [|x kw]; [congruence|]. simpl in Hkw |- *.
    apply andb_true_iff in Hkw as [Hx _]. now apply lowerAZ_word. }
  assert (Hl : forall d, isWordOpt (last (map Some kw) d) = true).
  { clear - Hne Hkw. induction kw as [|x kw IH]; [congruence|].
    intros d. simpl in Hkw. apply andb_true_iff in Hkw as [Hx Hkw].
    simpl map. rewrite last_cons_default.
    destruct kw as [|y kw]; [simpl; now apply lowerAZ_word|].
    apply IH; [discriminate | exact Hkw]. }
  exists pre', rest'. split; [reflexivity|]. split.
  - unfold atBoundary in B1. simpl in B1.
    replace (hd_error (kw ++ rest')) with (hd_error kw) in B1
      by (destruct kw; [congruence | reflexivity]).
    rewrite Hh in B1. unfold lastOf.
    destruct (isWordOpt _); [discriminate B1 | reflexivity].
  - unfold atBoundary in B2. simpl in B2. rewrite Hl in B2.
    destruct (isWordOpt _); [discriminate B2 | reflexivity].
Qed.

Lemma forbidden_lowerAZ (kw : str) :
  In kw FORBIDDEN_KEYWORDS -> kw <> [] /\ forallb isLowerAZ kw = true.
Proof.
  assert (H : forallb (fun kw => nonEmpty kw && forallb isLowerAZ kw)
                      FORBIDDEN_KEYWORDS = true) by reflexivity.
  rewrite forallb_forall in H. intros Hin. apply H in Hin.
  apply andb_true_iff in Hin as [H1 H2]. split; [|exact H2].
  destruct kw; [discriminate H1 | discriminate].
Qed.

Lemma find_first {A} (f : A -> bool) (l : list A) (x : A) :
  find f l = Some x ->
  exists before after,
    l = before ++ x :: after /\ f x = true
    /\ forall y, In y before -> f y = false.
Proof.
  induction l as [|y l IH]; [discriminate|]. simpl.
  destruct (f y) eqn:E.
  - intros [= ->]. exists [], l. repeat split; auto. intros ? [].
  - intros H. apply IH in H as (before & after & -> & Hx & Hb).
    exists (y :: before), after. repeat split; auto.
    intros z [<-|Hz]; auto.
Qed.

Lemma containsForbidden_None (s : str) :
  containsForbidden s = None ->
  forall kw, In kw FORBIDDEN_KEYWORDS -> ~ occursAsWord kw s.
Proof.
  intros Hnone kw Hin Hw. unfold containsForbidden in Hnone.
  pose proof (find_none _ _ Hnone kw Hin) as Hf. simpl in Hf.
  rewrite (occursAsWord_test _ _ (forbidden_wordLike _ Hin) Hw) in Hf.
  discriminate Hf.
Qed.

(** The keyword scan is run on the lower-cased text.  It finds nothing
    exactly when no denylisted keyword is a standalone word of that
    lower-cased text, and otherwise it reports the first keyword, in the
    order of the denylist, that is one. *)
Theorem keyword_scan_exact :
  forall n,
    (containsForbidden (lower n) = None <->
     forall kw, In kw FORBIDDEN_KEYWORDS -> ~ occursAsWord kw (lower n))
    /\ (forall kw,
           containsForbidden (lower n) = Some kw ->
           exists before after,
             FORBIDDEN_KEYWORDS = before ++ kw :: after
             /\ occursAsWord kw (lower n)
             /\ forall k, In k before -> ~ occursAsWord k (lower n)).
Proof.
  intros n. split; [split|].
  - apply containsForbidden_None.
  - intros H. unfold containsForbidden. apply find_all_false.
    intros kw Hin. destruct (test (wordPattern kw) (lower n)) eqn:E;
      [|reflexivity].
    exfalso. apply (H kw Hin).
    destruct (forbidden_lowerAZ kw Hin) as [Hne Hlow].
    now apply test_occursAsWord.
  - intros kw H. unfold containsForbidden in H.
    apply find_first in H as (before & after & E & Hkw & Hb).
    exists before, after. split; [exact E|].
    assert (Hin : In kw FORBIDDEN_KEYWORDS)
      by (rewrite E; apply in_elt).
    destruct (forbidden_lowerAZ kw Hin) as [Hne Hlow].
    split; [now apply test_occursAsWord|].
    intros k Hk Hw.
    assert (Hink : In k FORBIDDEN_KEYWORDS)
      by (rewrite E; apply in_or_app; now left).
    pose proof (Hb k Hk) as Hf. simpl in Hf.
    rewrite (occursAsWord_test _ _ (forbidden_wordLike _ Hink) Hw) in Hf.
    discriminate Hf.
Qed.

Lemma keyword_scan_exact_witness :
  containsForbidden (lower useAsColumn) = Some (js "use")
  /\ exists before after,
       FORBIDDEN_KEYWORDS = before ++ js "use" :: after
       /\ occursAsWord (js "use") (lower useAsColumn)
       /\ forall k, In k before -> ~ occursAsWord k (lower useAsColumn).
Proof.
  split; [reflexivity|].
  exact (proj2 (keyword_scan_exact useAsColumn) (js "use") eq_refl).
Defined.

(** ** What an accepted query looks like *)

Lemma frontGates_passed (n raw : str) :
  frontGates n = inr raw ->
  n <> []
  /\ hasMultiStatement n = false
  /\ startsWithSelectOrWith (lower n) = true
  /\ containsForbidden (lower n) = None
  /\ test selectStarPattern n = false
  /\ extractFromTable n = Some raw.
Proof.
  unfold frontGates.
  destruct n as [|c n]; [discriminate|].
  change (negb (nonEmpty (c :: n))) with false. cbv iota.
  destruct (hasMultiStatement (c :: n)); [discriminate|].
  destruct (startsWithSelectOrWith (lower (c :: n))); [|discriminate].
  simpl negb. cbv iota.
  destruct (containsForbidden (lower (c :: n))) as [[|x kw]|] eqn:Ef.
  - exfalso. unfold containsForbidden in Ef. apply find_some in Ef as [Hin _].
    destruct (forbidden_nonEmpty _ Hin) as (? & ? & E). discriminate E.
  - discriminate.
  - destruct (test selectStarPattern (c :: n)); [discriminate|].
    destruct (extractFromTable (c :: n)) as [[|x r]|]; try discriminate.
    intros [= <-]. repeat split; auto. discriminate.
Qed.

(** A query the validator accepts is, once normalized, a single statement
    that begins with [select] or [with] and has no select-star pattern; its
    lower-cased text has no denylisted keyword as a standalone word; its
    table is a key of the allowlist equal to the FROM target up to quotes,
    and every referenced column is allowed for that key. *)
Theorem accepted_query_is_safe :
  forall sql al v,
    validateSql sql al = inr v ->
    normalize sql <> []
    /\ ~ In ";"%char (normalize sql)
    /\ startsWithSelectOrWith (lower (normalize sql)) = true
    /\ (forall kw, In kw FORBIDDEN_KEYWORDS ->
                   ~ occursAsWord kw (lower (normalize sql)))
    /\ ~ selectStarText (normalize sql)
    /\ exists raw cols,
         extractFromTable (normalize sql) = Some raw
         /\ In (table v) (mapKeys (tables al))
         /\ stripQuotesTable (table v) = stripQuotesTable raw
         /\ mapGet (table v) (tables al) = Some cols
         /\ referencedColumns v = findReferencedColumns (normalize sql) raw
         /\ forall c, In c (referencedColumns v) -> In c cols.
Proof.
  intros sql al v Hv.
  apply validateSql_inr in Hv as (raw & cols & Hf & Hk & Hs & Hg & Hr & Hc).
  apply frontGates_passed in Hf as (Hne & Hm & Hst & Hkw & Hstar & Hx).
  split; [exact Hne|]. split.
  { intros Hin. apply includes_char in Hin.
    unfold hasMultiStatement in Hm. change (js ";") with [";"%char] in Hm.
    congruence. }
  split; [exact Hst|]. split.
  { now apply containsForbidden_None. }
  split.
  { intros Hs'. apply selectStarText_test in Hs'. congruence. }
  exists raw, cols. auto 10.
Qed.

Lemma accepted_query_is_safe_witness :
  validateSql selectAB allowlistTab
  = inr {| table := js "T"; referencedColumns := [js "a"; js "b"] |}
  /\ ~ In ";"%char (normalize selectAB)
  /\ (forall kw, In kw FORBIDDEN_KEYWORDS ->
                 ~ occursAsWord kw (lower (normalize selectAB)))
  /\ ~ selectStarText (normalize selectAB).
Proof.
  assert (H : validateSql selectAB allowlistTab
              = inr {| table := js "T"; referencedColumns := [js "a"; js "b"] |})
    by reflexivity.
  destruct (accepted_query_is_safe selectAB allowlistTab _ H)
    as (_ & H1 & _ & H3 & H2 & _).
  split; [exact H | split; [exact H1 | split; [exact H3 | exact H2]]].
Defined.

(** ** The FROM target *)

Lemma starThen_inv {A} (p : ascii -> bool) (cont : str -> cursor -> option A)
      (s : str) :
  forall acc prev a,
    starThen p cont acc prev s = Some a ->
    exists run rest,
      s = run ++ rest
      /\ forallb p run = true
      /\ cont (rev run ++ acc) (Cursor (last (map Some run) prev) rest) = Some a.
Proof.
  induction s as [|c r IH]; intros acc prev a H; simpl in H.
  - exists [], []. auto.
  - destruct (p c) eqn:Ep; [|exists [], (c :: r); auto].
    destruct (starThen p cont (c :: acc) (Some c) r) as [a'|] eqn:E.
    + injection H as ->. apply IH in E as (run & rest & -> & Hrun & Hc).
      exists (c :: run), rest. split; [reflexivity|]. split.
      * simpl. now rewrite Ep.
      * simpl map. rewrite last_cons_default. simpl rev.
        now rewrite <- app_assoc.
    + exists [], (c :: r). auto.
Qed.

Lemma plusThen_inv {A} (p : ascii -> bool) (cont : str -> cursor -> option A)
      (prev : option ascii) (s : str) (a : A) :
  plusThen p cont (Cursor prev s) = Some a ->
  exists run rest,
    s = run ++ rest
    /\ run <> []
    /\ forallb p run = true
    /\ cont (rev run) (Cursor (last (map Some run) prev) rest) = Some a.
Proof.
  unfold plusThen. simpl after. destruct s as [|c r]; [discriminate|].
  destruct (p c) eqn:Ep; [|discriminate].
  intros H. apply starThen_inv in H as (run & rest & -> & Hrun & Hc).
  exists (c :: run), rest. split; [reflexivity|]. split; [discriminate|].
  split.
  - simpl. now rewrite Ep.
  - simpl map. rewrite last_cons_default. exact Hc.
Qed.

Lemma letter_matches_lower (x c : ascii) :
  isLowerAZ x = true ->
  chr_eqb (canonicalize x) (canonicalize c) = true ->
  toLowerChar c = x.
Proof.
  assert (H : forallb (fun x => forallb (fun c =>
              implb (chr_eqb (canonicalize x) (canonicalize c))
                    (chr_eqb (toLowerChar c) x)) allChars) lowerLetters = true)
    by (vm_compute; reflexivity).
  intros Hx Hc.
  rewrite forallb_forall in H. specialize (H x (lowerLetters_In x Hx)).
  rewrite forallb_forall in H. specialize (H c (allChars_In c)).
  rewrite Hc in H. simpl in H. now apply chr_eqb_eq.
Qed.

(** A match of a lower-case literal under flag [i] is the literal up to
    letter case. *)
Lemma match_is_literal (kw : str) :
  forallb isLowerAZ kw = true ->
  forall t,
    Forall2 (fun x c => chr_eqb (canonicalize x) (canonicalize c) = true) kw t ->
    toLowerCase t = kw.
Proof.
  intros Hkw t F. induction F as [|x c kw t Hxc F IH]; [reflexivity|].
  simpl in Hkw. apply andb_true_iff in Hkw as [Hx Hkw].
  simpl. now rewrite (letter_matches_lower _ _ Hx Hxc), (IH Hkw).
Qed.

Lemma wordPattern_inv (kw : str) (b : option ascii) (s : str) (k : cursor) :
  kw <> [] ->
  forallb isLowerAZ kw = true ->
  wordPattern kw (Cursor b s) = Some k ->
  exists w rest,
    s = w ++ rest
    /\ toLowerCase w = kw
    /\ isWordOpt b = false
    /\ isWordOpt (hd_error rest) = false
    /\ k = Cursor (last (map Some w) b) rest.
Proof.
  intros Hne Hkw H. unfold wordPattern in H.
  destruct (atBoundary (Cursor b s)) eqn:B1; [|discriminate H].
  simpl guard in H. cbv iota in H.
  destruct (lit_ci kw (Cursor b s)) as [k1|] eqn:L; [|discriminate H].
  destruct (atBoundary k1) eqn:B2; [|discriminate H].
  injection H as <-.
  apply lit_ci_inv in L as (w & rest & -> & -> & F).
  pose proof (match_is_literal kw Hkw w F) as Hlit.
  assert (Hw : forallb isWordChar w = true /\ w <> []).
  { rewrite <- Hlit in Hkw, Hne. clear - Hkw Hne. split.
    - induction w as [|c w IH]; [reflexivity|]. simpl in *.
      apply andb_true_iff in Hkw as [Hc Hkw].
      rewrite <- toLowerChar_word, (lowerAZ_word _ Hc). simpl.
      destruct w; [reflexivity|]. apply IH; [discriminate | exact Hkw].
    - intros ->. now apply Hne. }
  destruct Hw as [Hw Hwne].
  exists w, rest. repeat split; auto.
  - unfold atBoundary in B1. simpl in B1.
    destruct w as [|c w]; [congruence|]. simpl in B1, Hw.
    apply andb_true_iff in Hw as [Hc _]. rewrite Hc in B1.
    destruct (isWordOpt b); [discriminate B1 | reflexivity].
  - unfold atBoundary in B2. simpl in B2.
    assert (G : isWordOpt (last (map Some w) b) = true).
    { clear - Hw Hwne. revert b. induction w as [|c w IH]; [congruence|].
      intros b. simpl in Hw. apply andb_true_iff in Hw as [Hc Hw].
      simpl map. rewrite last_cons_default.
      destruct w as [|d w]; [exact Hc|]. apply IH; [exact Hw | discriminate]. }
    rewrite G in B2.
    destruct (isWordOpt (hd_error rest)); [discriminate B2 | reflexivity].
Qed.

Lemma last_snoc_word (g : str) :
  (exists acc, g = rev acc /\ isWordOpt (hd_error acc) = true) ->
  exists body c, g = body ++ [c] /\ isWordChar c = true.
Proof.
  intros ([|c acc] & -> & H); [discriminate H|].
  exists (rev acc), c. auto.
Qed.

(** What [extractFromTable] gives: a non-empty run of backticks, double
    quotes, word characters and dots that ends with a word character (a
    closing quote is left out), standing after the word [from] in any
    letter case and at least one white-space code unit. *)
Theorem from_target_shape :
  forall n raw,
    extractFromTable n = Some raw ->
    forallb isTableChar raw = true
    /\ (exists body c, raw = body ++ [c] /\ isWordChar c = true)
    /\ exists pre w ws post,
         n = pre ++ w ++ ws ++ raw ++ post
         /\ toLowerCase w = js "from"
         /\ isWordOpt (lastOf pre) = false
         /\ ws <> []
         /\ forallb isWhiteSpace ws = true.
Proof.
  intros n raw H. unfold extractFromTable, search in H.
  apply searchFrom_inv in H as (pre & s & -> & H).
  unfold fromPattern in H.
  destruct (wordPattern (js "from") _) as [k1|] eqn:W; [|discriminate H].
  apply wordPattern_inv in W as (w & s1 & -> & Hw & Hpre & _ & ->);
    [|discriminate | reflexivity].
  apply plusThen_inv in H as (ws & s2 & -> & Hwsne & Hws & H).
  change (plusThen isTableChar groupEnd
            (Cursor (last (map Some ws) (last (map Some w) (last (map Some pre) None)))
                    s2) = Some raw) in H.
  pose proof H as H'.
  apply plusThen_inv in H as (run & post & -> & Hrne & Hrun & H).
  unfold groupEnd in H. destruct (guard _); [|discriminate H].
  injection H as <-. rewrite rev_involutive.
  split; [exact Hrun|]. split.
  - unfold plusThen in H'. simpl after in H'.
    destruct (run ++ post) as [|c r] eqn:E; [discriminate H'|].
    destruct (isTableChar c); [|discriminate H'].
    apply group_ends_with_word in H' as Hacc; [|reflexivity].
    apply last_snoc_word in Hacc. rewrite rev_involutive in Hacc.
    exact Hacc.
  - exists pre, w, ws, post. repeat split; auto.
Qed.

Lemma from_target_shape_witness :
  extractFromTable quotedFrom = Some (js "`db`.`t")
  /\ forallb isTableChar (js "`db`.`t") = true
  /\ (exists body c, js "`db`.`t" = body ++ [c] /\ isWordChar c = true)
  /\ exists pre w ws post,
       quotedFrom = pre ++ w ++ ws ++ js "`db`.`t" ++ post
       /\ toLowerCase w = js "from"
       /\ isWordOpt (lastOf pre) = false
       /\ ws <> []
       /\ forallb isWhiteSpace ws = true.
Proof.
  split; [reflexivity|].
  exact (from_target_shape quotedFrom (js "`db`.`t") eq_refl).
Defined.

(** ** The referenced columns *)

Lemma matchAll_In (m : str -> option str) (tok : str) (s : str) :
  forall skip, In tok (matchAll m skip s) -> exists t, m t = Some tok.
Proof.
  induction s as [|c r IH]; intros skip H; [contradiction|].
  simpl in H. destruct skip as [|k]; [|now apply IH in H].
  destruct (m (c :: r)) as [tok'|] eqn:E; [|now apply IH in H].
  destruct H as [<-|H]; [eauto | now apply IH in H].
Qed.

Lemma takeWhile_all (p : ascii -> bool) (s : str) :
  forallb p (takeWhile p s) = true.
Proof.
  induction s as [|c r IH]; [reflexivity|].
  simpl. destruct (p c) eqn:E; [|reflexivity]. simpl. now rewrite E.
Qed.

Lemma word_not_dot (c : ascii) : isWordChar c = true -> chr_eqb c dot = false.
Proof.
  revert c. assert (H : forall c, implb (isWordChar c) (negb (chr_eqb c dot)) = true)
    by (apply on_all_chars; vm_compute; reflexivity).
  intros c Hc. specialize (H c). rewrite Hc in H. simpl in H.
  now apply negb_true_iff.
Qed.

Lemma identStart_word (c : ascii) : isIdentStart c = true -> isWordChar c = true.
Proof.
  unfold isIdentStart, isWordChar. intros H.
  apply orb_true_iff in H as [H|H]; [|now rewrite H, orb_true_r].
  apply orb_true_iff in H as [H|H]; rewrite H; [reflexivity|].
  now rewrite orb_true_r.
Qed.

Lemma isIdent_words (s : str) : isIdent s = true -> forallb isWordChar s = true.
Proof.
  destruct s as [|c r]; [discriminate|]. simpl. intros H.
  apply andb_true_iff in H as [H1 H2].
  now rewrite (identStart_word _ H1), H2.
Qed.

Lemma split_words (a : str) : forallb isWordChar a = true -> split dot a = [a].
Proof.
  induction a as [|c a IH]; [reflexivity|]. simpl. intros H.
  apply andb_true_iff in H as [Hc Ha].
  now rewrite (word_not_dot _ Hc), (IH Ha).
Qed.

Lemma split_words_dot (a b : str) :
  forallb isWordChar a = true -> split dot (a ++ dot :: b) = a :: split dot b.
Proof.
  induction a as [|c a IH]; simpl; intros H.
  - reflexivity.
  - apply andb_true_iff in H as [Hc Ha].
    now rewrite (word_not_dot _ Hc), (IH Ha).
Qed.

(** A token is an identifier, or two identifiers joined by a dot. *)
Lemma identPattern_shape (t tok : str) :
  identPattern t = Some tok ->
  isIdent tok = true
  \/ exists a b, tok = a ++ dot :: b /\ isIdent a = true /\ isIdent b = true.
Proof.
  unfold identPattern. destruct t as [|c r]; [discriminate|].
  destruct (isIdentStart c) eqn:Ec; [|discriminate].
  assert (Ha : isIdent (c :: takeWhile isWordChar r) = true)
    by (simpl; now rewrite Ec, takeWhile_all).
  destruct (dropWhile isWordChar r) as [|d [|e r2]];
    try (intros [= <-]; now left).
  destruct ((code d =? 46) && isIdentStart e) eqn:E;
    [|intros [= <-]; now left].
  apply andb_true_iff in E as [Ed Ee]. intros [= <-]. right.
  exists (c :: takeWhile isWordChar r), (e :: takeWhile isWordChar r2).
  split; [|split; [exact Ha|]].
  - apply Nat.eqb_eq in Ed. unfold code in Ed.
    replace d with dot; [reflexivity|].
    rewrite <- (ascii_nat_embedding d), Ed. reflexivity.
  - simpl. now rewrite Ee, takeWhile_all.
Qed.

Lemma token_segments_ident (t tok c : str) :
  identPattern t = Some tok -> In c (split dot tok) -> isIdent c = true.
Proof.
  intros H Hin. apply identPattern_shape in H as [H|(a & b & -> & Ha & Hb)].
  - rewrite (split_words _ (isIdent_words _ H)) in Hin.
    destruct Hin as [<-|[]]. exact H.
  - rewrite (split_words_dot _ _ (isIdent_words _ Ha)) in Hin.
    rewrite (split_words _ (isIdent_words _ Hb)) in Hin.
    destruct Hin as [<-|[<-|[]]]; assumption.
Qed.

Lemma findReferencedColumns_NoDup (n fromTable : str) :
  NoDup (findReferencedColumns n fromTable).
Proof.
  unfold findReferencedColumns.
  generalize (matchAll identPattern 0 n). intros tokens.
  generalize (NoDup_nil str). generalize (@nil str).
  induction tokens as [|t tokens IH]; intros cols H; [exact H|].
  simpl. apply IH. destruct (columnOfToken fromTable t); [|exact H].
  now apply setAdd_NoDup.
Qed.

(** The referenced columns are pairwise different bare identifiers: the
    last dotted segments of tokens of the text. *)
Theorem referenced_columns_shape :
  forall n fromTable,
    NoDup (findReferencedColumns n fromTable)
    /\ forall c,
         In c (findReferencedColumns n fromTable) ->
         isIdent c = true
         /\ exists tok, In tok (matchAll identPattern 0 n)
                        /\ In c (split dot tok).
Proof.
  intros n fromTable. split; [apply findReferencedColumns_NoDup|].
  intros c Hc.
  apply findReferencedColumns_origin in Hc as (tok & Hin & Hc).
  apply columnOfToken_Some in Hc as [Hseg _].
  destruct (matchAll_In _ _ _ _ Hin) as [t Ht].
  split; [exact (token_segments_ident _ _ _ Ht Hseg) | eauto].
Qed.

Lemma referenced_columns_shape_witness :
  findReferencedColumns (normalize dottedColumns) (js "T") = [js "a"; js "b"]
  /\ In (js "a") (findReferencedColumns (normalize dottedColumns) (js "T"))
  /\ isIdent (js "a") = true
  /\ exists tok, In tok (matchAll identPattern 0 (normalize dottedColumns))
                 /\ In (js "a") (split dot tok).
Proof.
  assert (H : In (js "a") (findReferencedColumns (normalize dottedColumns) (js "T")))
    by (vm_compute; tauto).
  split; [reflexivity | split; [exact H|]].
  exact (proj2 (referenced_columns_shape (normalize dottedColumns) (js "T"))
               (js "a") H).
Defined.

(** ** The normalized text *)

Lemma dropWhile_length (p : ascii -> bool) (s : str) :
  length (dropWhile p s) <= length s.
Proof.
  induction s as [|c r IH]; simpl; [lia|].
  destruct (p c); simpl; lia.
Qed.

Lemma dropWhile_hd (p : ascii -> bool) (s : str) (c : ascii) :
  hd_error (dropWhile p s) = Some c -> p c = false.
Proof.
  induction s as [|x r IH]; simpl; [discriminate|].
  destruct (p x) eqn:E; [exact IH|]. simpl. now intros [= <-].
Qed.

Lemma takeWhile_dropWhile (p : ascii -> bool) (s : str) :
  s = takeWhile p s ++ dropWhile p s.
Proof.
  induction s as [|c r IH]; [reflexivity|].
  simpl. destruct (p c); [simpl; now rewrite <- IH | reflexivity].
Qed.

Lemma collapse_skip (s : str) :
  replaceAll whiteSpaceLen (js " ") (length (takeWhile isWhiteSpace s)) s
  = replaceAll whiteSpaceLen (js " ") 0 (dropWhile isWhiteSpace s).
Proof.
  induction s as [|c r IH]; [reflexivity|].
  simpl takeWhile. simpl dropWhile.
  destruct (isWhiteSpace c); [exact IH | reflexivity].
Qed.

Lemma collapse_ws (c : ascii) (r : str) :
  isWhiteSpace c = true ->
  replaceAll whiteSpaceLen (js " ") 0 (c :: r)
  = " "%char :: replaceAll whiteSpaceLen (js " ") 0 (dropWhile isWhiteSpace r).
Proof.
  intros Hc. simpl replaceAll. unfold whiteSpaceLen at 1.
  simpl takeWhile. rewrite Hc. simpl length. cbv iota.
  simpl app. now rewrite collapse_skip.
Qed.

Lemma collapse_other (c : ascii) (r : str) :
  isWhiteSpace c = false ->
  replaceAll whiteSpaceLen (js " ") 0 (c :: r)
  = c :: replaceAll whiteSpaceLen (js " ") 0 r.
Proof.
  intros Hc. simpl replaceAll. unfold whiteSpaceLen at 1.
  simpl takeWhile. rewrite Hc. reflexivity.
Qed.

Lemma collapse_singleSpaced (s : str) :
  singleSpaced false (replaceAll whiteSpaceLen (js " ") 0 s) = true.
Proof.
  remember (length s) as k eqn:Ek.
  assert (Hk : length s <= k) by lia. clear Ek.
  revert s Hk. induction k as [|k IH]; intros s Hk.
  - destruct s; [reflexivity | simpl in Hk; lia].
  - destruct s as [|c r]; [reflexivity|]. simpl in Hk.
    destruct (isWhiteSpace c) eqn:Hc.
    + rewrite (collapse_ws _ _ Hc).
      change (singleSpaced false (" "%char :: ?x))
        with (singleSpaced true x).
      pose proof (dropWhile_length isWhiteSpace r) as Hl.
      destruct (dropWhile isWhiteSpace r) as [|d r'] eqn:Ed; [reflexivity|].
      assert (Hd : isWhiteSpace d = false)
        by (apply (dropWhile_hd isWhiteSpace r); now rewrite Ed).
      rewrite (collapse_other _ _ Hd). simpl. rewrite Hd.
      apply IH. simpl in Hl. lia.
    + rewrite (collapse_other _ _ Hc). simpl. rewrite Hc.
      apply IH. lia.
Qed.

Lemma singleSpaced_dropWhile (s : str) :
  forall b, singleSpaced b s = true ->
            singleSpaced true (dropWhile isWhiteSpace s) = true.
Proof.
  induction s as [|c r IH]; intros b H; [reflexivity|].
  simpl in H |- *. destruct (isWhiteSpace c) eqn:Hc.
  - apply andb_true_iff in H as [_ H]. now apply (IH true).
  - simpl. now rewrite Hc.
Qed.

Lemma singleSpaced_prefix (s t : str) :
  forall b, singleSpaced b (s ++ t) = true -> singleSpaced b s = true.
Proof.
  induction s as [|c r IH]; intros b H; [reflexivity|].
  simpl in H |- *. destruct (isWhiteSpace c).
  - apply andb_true_iff in H as [H1 H2]. rewrite H1. simpl. now apply IH.
  - now apply IH.
Qed.

Lemma trim_split (s : str) :
  exists tail,
    dropWhile isWhiteSpace s = trim s ++ tail.
Proof.
  unfold trim. exists (rev (takeWhile isWhiteSpace (rev (dropWhile isWhiteSpace s)))).
  rewrite <- rev_app_distr, <- takeWhile_dropWhile. now rewrite rev_involutive.
Qed.

Lemma trim_singleSpaced (s : str) (b : bool) :
  singleSpaced b s = true -> singleSpaced true (trim s) = true.
Proof.
  intros H. apply singleSpaced_dropWhile in H.
  destruct (trim_split s) as [tail E]. rewrite E in H.
  now apply singleSpaced_prefix in H.
Qed.

Lemma trim_last (s : str) (c : ascii) :
  lastOf (trim s) = Some c -> isWhiteSpace c = false.
Proof.
  unfold trim, lastOf. intros H.
  apply (dropWhile_hd isWhiteSpace (rev (dropWhile isWhiteSpace s))).
  destruct (dropWhile isWhiteSpace (rev (dropWhile isWhiteSpace s))) as [|d l];
    [discriminate H|].
  simpl rev in H. rewrite map_app in H. simpl (map Some [d]) in H.
  rewrite last_last in H. simpl. exact H.
Qed.

Lemma singleSpaced_blank (s : str) :
  forall b c, singleSpaced b s = true -> In c s -> isWhiteSpace c = true ->
              code c = 32.
Proof.
  induction s as [|x r IH]; intros b c H Hin Hc; [contradiction|].
  simpl in H. destruct Hin as [->|Hin].
  - rewrite Hc in H. apply andb_true_iff in H as [H _].
    apply andb_true_iff in H as [H _]. now apply Nat.eqb_eq.
  - destruct (isWhiteSpace x).
    + apply andb_true_iff in H as [_ H]. now apply (IH true).
    + now apply (IH false).
Qed.

Lemma singleSpaced_adjacent (pre : str) :
  forall b x y post,
    singleSpaced b (pre ++ x :: y :: post) = true ->
    isWhiteSpace x = true -> isWhiteSpace y = false.
Proof.
  induction pre as [|c pre IH]; intros b x y post H Hx.
  - simpl in H. rewrite Hx in H. apply andb_true_iff in H as [_ H].
    destruct (isWhiteSpace y); [|reflexivity].
    apply andb_true_iff in H as [H _]. apply andb_true_iff in H as [_ H].
    discriminate H.
  - simpl in H. destruct (isWhiteSpace c).
    + apply andb_true_iff in H as [_ H]. now apply (IH true x y post).
    + now apply (IH false x y post).
Qed.

Lemma normalize_singleSpaced (sql : str) :
  singleSpaced true (normalize sql) = true.
Proof.
  unfold normalize. apply (trim_singleSpaced _ false), collapse_singleSpaced.
Qed.

(** The normalized text has no white space except single blanks (U+0020)
    between other code units: it neither begins nor ends with white space,
    and no two white-space code units are next to each other. *)
Theorem normalize_spacing :
  forall sql,
    (forall c, In c (normalize sql) -> isWhiteSpace c = true -> c = " "%char)
    /\ (forall pre x y post,
           normalize sql = pre ++ x :: y :: post ->
           isWhiteSpace x = true -> isWhiteSpace y = false)
    /\ (forall c, hd_error (normalize sql) = Some c -> isWhiteSpace c = false)
    /\ (forall c, lastOf (normalize sql) = Some c -> isWhiteSpace c = false).
Proof.
  intros sql. pose proof (normalize_singleSpaced sql) as H.
  split; [|split; [|split]].
  - intros c Hin Hc.
    pose proof (singleSpaced_blank _ _ _ H Hin Hc) as E. unfold code in E.
    rewrite <- (ascii_nat_embedding c), E. reflexivity.
  - intros pre x y post E Hx. rewrite E in H.
    exact (singleSpaced_adjacent _ _ _ _ _ H Hx).
  - intros c Hc. destruct (normalize sql) as [|d r]; [discriminate Hc|].
    injection Hc as ->. simpl in H.
    destruct (isWhiteSpace c); [|reflexivity].
    apply andb_true_iff in H as [H _]. apply andb_true_iff in H as [_ H].
    discriminate H.
  - intros c. apply trim_last.
Qed.

Lemma normalize_spacing_witness :
  normalize raggedQuery = js "SELECT a, b FROM T"
  /\ In " "%char (normalize raggedQuery)
  /\ (forall c, In c (normalize raggedQuery) -> isWhiteSpace c = true ->
                c = " "%char)
  /\ (forall c, hd_error (normalize raggedQuery) = Some c ->
                isWhiteSpace c = false).
Proof.
  destruct (normalize_spacing raggedQuery) as (H1 & _ & H3 & _).
  split; [reflexivity|]. split; [vm_compute; tauto|].
  split; [exact H1 | exact H3].
Defined.

(** ** Blank input *)

Lemma whiteSpace_not_dash_slash (c : ascii) :
  isWhiteSpace c = true ->
  chr_eqb "-"%char c = false /\ chr_eqb "/"%char c = false.
Proof.
  assert (H : forall c, implb (isWhiteSpace c)
                          (negb (chr_eqb "-"%char c) && negb (chr_eqb "/"%char c))
                        = true)
    by (apply on_all_chars; vm_compute; reflexivity).
  intros Hc. specialize (H c). rewrite Hc in H. simpl in H.
  apply andb_true_iff in H as [H1 H2].
  split; now apply negb_true_iff.
Qed.

Lemma replaceAll_none (f : str -> option nat) (repl : str) (c : ascii) (r : str) :
  f (c :: r) = None ->
  replaceAll f repl 0 (c :: r) = c :: replaceAll f repl 0 r.
Proof. intros H. simpl. now rewrite H. Qed.

Lemma no_comment_at_blank (c : ascii) (r : str) :
  isWhiteSpace c = true ->
  lineCommentLen (c :: r) = None /\ blockCommentLen (c :: r) = None.
Proof.
  intros Hc. destruct (whiteSpace_not_dash_slash c Hc) as [Hd Hs].
  unfold lineCommentLen, blockCommentLen.
  change (startsWith (c :: r) (js "--"))
    with (chr_eqb "-"%char c && startsWith r (js "-")).
  change (startsWith (c :: r) (js "/*"))
    with (chr_eqb "/"%char c && startsWith r (js "*")).
  now rewrite Hd, Hs.
Qed.

Lemma comments_keep_blank (s : str) :
  forallb isWhiteSpace s = true ->
  replaceAll lineCommentLen [] 0 s = s
  /\ replaceAll blockCommentLen [] 0 s = s.
Proof.
  induction s as [|c r IH]; [auto|]. simpl forallb. intros H.
  apply andb_true_iff in H as [Hc Hr]. destruct (IH Hr) as [IH1 IH2].
  destruct (no_comment_at_blank c r Hc) as [H1 H2].
  rewrite (replaceAll_none _ _ _ _ H1), (replaceAll_none _ _ _ _ H2).
  now rewrite IH1, IH2.
Qed.

Lemma dropWhile_all (p : ascii -> bool) (s : str) :
  forallb p s = true -> dropWhile p s = [].
Proof.
  induction s as [|c r IH]; [reflexivity|]. simpl. intros H.
  apply andb_true_iff in H as [Hc Hr]. now rewrite Hc, (IH Hr).
Qed.

Lemma normalize_blank (s : str) :
  forallb isWhiteSpace s = true -> normalize s = [].
Proof.
  intros H. unfold normalize.
  destruct (comments_keep_blank s H) as [-> ->].
  destruct s as [|c r]; [reflexivity|].
  simpl in H. apply andb_true_iff in H as [Hc Hr].
  rewrite (collapse_ws _ _ Hc), (dropWhile_all _ _ Hr). reflexivity.
Qed.

(** A query of white space only (the empty string included) is rejected
    as empty, whatever the allowlist. *)
Theorem blank_query_rejected :
  forall sql al,
    forallb isWhiteSpace sql = true ->
    validateSql sql al = inl (SqlValidationError SqlEmpty).
Proof.
  intros sql al H. unfold validateSql. now rewrite (normalize_blank _ H).
Qed.

Lemma blank_query_rejected_witness :
  forallb isWhiteSpace blankQuery = true
  /\ validateSql blankQuery allowlistTab = inl (SqlValidationError SqlEmpty).
Proof.
  split; [reflexivity|].
  apply blank_query_rejected. reflexivity.
Defined.

(** ** Invariants of the allowlist *)

Lemma mapSet_keys_In {V} (k k' : str) (v : V) (m : list (str * V)) :
  In k' (mapKeys (mapSet k v m)) <-> k' = k \/ In k' (mapKeys m).
Proof.
  unfold mapKeys. induction m as [|[x y] m IH]; simpl.
  - intuition auto.
  - destruct (str_eqb x k) eqn:E; simpl.
    + apply str_eqb_eq in E. subst x. intuition auto.
    + rewrite IH. intuition auto.
Qed.

Lemma mapSet_keys_NoDup {V} (k : str) (v : V) (m : list (str * V)) :
  NoDup (mapKeys m) -> NoDup (mapKeys (mapSet k v m)).
Proof.
  unfold mapKeys. induction m as [|[x y] m IH]; simpl; intros H.
  - constructor; [intros [] | constructor].
  - inversion H as [|? ? Hx Hm]; subst.
    destruct (str_eqb x k) eqn:E; simpl; [now constructor|].
    constructor; [|now apply IH].
    intros Hin. apply (mapSet_keys_In k x v m) in Hin as [->|Hin].
    + now rewrite str_eqb_refl in E.
    + now apply Hx.
Qed.

Lemma mapGet_mapSet_cases {V} (k k' : str) (v v' : V) (m : list (str * V)) :
  mapGet k' (mapSet k v m) = Some v' ->
  (k' = k /\ v' = v) \/ (k' <> k /\ mapGet k' m = Some v').
Proof.
  destruct (str_eqb k k') eqn:E.
  - apply str_eqb_eq in E. subst k'. rewrite mapGet_mapSet_same.
    intros [= <-]. now left.
  - apply str_eqb_neq in E. rewrite (mapGet_mapSet_other _ _ _ _ E).
    intros H. right. split; [congruence | exact H].
Qed.

Lemma modelToTable_fold (ms : list AiCatalogModel) :
  forall al,
    modelToTable (fold_left addModel ms al)
    = fold_left addName ms (modelToTable al).
Proof.
  induction ms as [|m ms IH]; intros al; [reflexivity|].
  simpl. now rewrite IH.
Qed.

Lemma addTable_fold_keys (ms : list AiCatalogModel) (k : str) :
  forall t,
    In k (mapKeys (fold_left addTable ms t))
    <-> In k (mapKeys t) \/ exists m, In m ms /\ tableOf m = k.
Proof.
  induction ms as [|m ms IH]; intros t; simpl.
  - split; [auto | intros [H|(m & [] & _)]; exact H].
  - rewrite IH. unfold addTable at 1. rewrite mapSet_keys_In. split.
    + intros [[->|H]|(m' & Hm & E)].
      * right. exists m. split; [now left | reflexivity].
      * now left.
      * right. exists m'. split; [now right | exact E].
    + intros [H|(m' & [<-|Hm] & E)].
      * left. now right.
      * left. now left.
      * right. exists m'. split; assumption.
Qed.

Lemma addName_fold_keys (ms : list AiCatalogModel) (n : str) :
  forall t,
    In n (mapKeys (fold_left addName ms t))
    <-> In n (mapKeys t) \/ exists m, In m ms /\ name m = n.
Proof.
  induction ms as [|m ms IH]; intros t; simpl.
  - split; [auto | intros [H|(m & [] & _)]; exact H].
  - rewrite IH. unfold addName at 1. rewrite mapSet_keys_In. split.
    + intros [[->|H]|(m' & Hm & E)].
      * right. exists m. split; [now left | reflexivity].
      * now left.
      * right. exists m'. split; [now right | exact E].
    + intros [H|(m' & [<-|Hm] & E)].
      * left. now right.
      * left. now left.
      * right. exists m'. split; assumption.
Qed.

Lemma addTable_fold_NoDup (ms : list AiCatalogModel) :
  forall t, NoDup (mapKeys t) -> NoDup (mapKeys (fold_left addTable ms t)).
Proof.
  induction ms as [|m ms IH]; intros t H; [exact H|].
  simpl. apply IH. now apply mapSet_keys_NoDup.
Qed.

Lemma addName_fold_NoDup (ms : list AiCatalogModel) :
  forall t, NoDup (mapKeys t) -> NoDup (mapKeys (fold_left addName ms t)).
Proof.
  induction ms as [|m ms IH]; intros t H; [exact H|].
  simpl. apply IH. now apply mapSet_keys_NoDup.
Qed.

Lemma addName_fold_get (ms : list AiCatalogModel) (n t : str) :
  forall init,
    mapGet n (fold_left addName ms init) = Some t ->
    mapGet n init = Some t
    \/ exists m, In m ms /\ name m = n /\ tableOf m = t.
Proof.
  induction ms as [|m ms IH]; intros init H; [now left|].
  simpl in H. apply IH in H as [H|(m' & Hm & E)].
  - unfold addName in H. apply mapGet_mapSet_cases in H as [[-> ->]|[_ H]].
    + right. exists m. split; [now left | split; reflexivity].
    + now left.
  - right. exists m'. split; [now right | exact E].
Qed.

Lemma tableOf_nonEmpty (m : AiCatalogModel) : tableOf m <> [].
Proof.
  unfold tableOf.
  assert (F : (if truthy (schema m)
               then match schema m with
                    | Some s => backtick :: s ++ backtick :: js "." ++ backtick
                                         :: name m ++ [backtick]
                    | None => []
                    end
               else backtick :: name m ++ [backtick]) <> []).
  { destruct (schema m) as [[|c s]|]; simpl; discriminate. }
  destruct (relation_name m) as [[|c r]|]; try exact F.
  destruct (trim (c :: r)); [exact F | discriminate].
Qed.

(** The allowlist built from a catalog: its table keys are pairwise
    different and are exactly the table identities of the models, none of
    them empty; its model names are pairwise different and are exactly the
    names of the models; and every table a model name maps to is a key of
    the table map. *)
Theorem allowlist_invariants :
  forall catalog,
    NoDup (mapKeys (tables (buildAllowlist catalog)))
    /\ NoDup (mapKeys (modelToTable (buildAllowlist catalog)))
    /\ (forall k, In k (mapKeys (tables (buildAllowlist catalog)))
                  <-> exists m, In m (models catalog) /\ tableOf m = k)
    /\ (forall k, In k (mapKeys (tables (buildAllowlist catalog))) -> k <> [])
    /\ (forall n, In n (mapKeys (modelToTable (buildAllowlist catalog)))
                  <-> exists m, In m (models catalog) /\ name m = n)
    /\ (forall n t,
           mapGet n (modelToTable (buildAllowlist catalog)) = Some t ->
           In t (mapKeys (tables (buildAllowlist catalog)))).
Proof.
  intros catalog. unfold buildAllowlist.
  rewrite tables_fold, modelToTable_fold. simpl tables. simpl modelToTable.
  assert (K : forall k, In k (mapKeys (fold_left addTable (models catalog) []))
                        <-> exists m, In m (models catalog) /\ tableOf m = k).
  { intros k. rewrite addTable_fold_keys. simpl. tauto. }
  split; [apply addTable_fold_NoDup; constructor|].
  split; [apply addName_fold_NoDup; constructor|].
  split; [exact K|]. split; [|split].
  - intros k Hk. apply K in Hk as (m & _ & <-). apply tableOf_nonEmpty.
  - intros n. rewrite addName_fold_keys. simpl. tauto.
  - intros n t H. apply addName_fold_get in H as [H|(m & Hm & _ & <-)];
      [discriminate H|].
    apply K. eauto.
Qed.

Lemma allowlist_invariants_witness :
  mapKeys (tables (buildAllowlist catalogTwo)) = [js "`db`.`t`"]
  /\ mapGet (js "second") (modelToTable (buildAllowlist catalogTwo))
     = Some (js "`db`.`t`")
  /\ In (js "`db`.`t`") (mapKeys (tables (buildAllowlist catalogTwo))).
Proof.
  destruct (allowlist_invariants catalogTwo) as (_ & _ & _ & _ & _ & H).
  split; [reflexivity | split; [reflexivity|]].
  apply (H (js "second")). reflexivity.
Defined.

(** A query accepted against the allowlist of a catalog names the table of
    a model of that catalog, and every column it references is a key of
    that model's [columns]. *)
Theorem accepted_query_in_catalog :
  forall sql catalog v,
    validateSql sql (buildAllowlist catalog) = inr v ->
    exists m,
      In m (models catalog)
      /\ tableOf m = table v
      /\ forall c, In c (referencedColumns v) -> In c (map fst (columns m)).
Proof.
  intros sql catalog v Hv.
  apply validateSql_inr in Hv as (raw & cols & _ & Hk & _ & Hg & _ & Hc).
  unfold buildAllowlist in Hk, Hg. rewrite tables_fold in Hk, Hg.
  simpl tables in Hk, Hg.
  apply addTable_fold_keys in Hk as [[]|Hm].
  apply last_with_identity in Hm as (before & m & after & E & Ht & Hafter).
  exists m. split; [rewrite E; apply in_elt|]. split; [exact Ht|].
  rewrite E, <- Ht in Hg. rewrite <- Ht in Hafter.
  rewrite (addTable_fold_last before after m [] Hafter) in Hg.
  injection Hg as <-. intros c Hin. now apply setOf_In, Hc.
Qed.

Lemma accepted_query_in_catalog_witness :
  validateSql sqlLtv (buildAllowlist catalogLtv)
  = inr {| table := js "`db`.`ltv_weekly`";
           referencedColumns := [js "week"; js "avg_ltv_12"] |}
  /\ exists m,
       In m (models catalogLtv)
       /\ tableOf m = js "`db`.`ltv_weekly`"
       /\ forall c, In c [js "week"; js "avg_ltv_12"] ->
                    In c (map fst (columns m)).
Proof.
  split; [reflexivity|].
  exact (accepted_query_in_catalog sqlLtv catalogLtv _ eq_refl).
Defined.

(** ** The relevance score *)

Lemma credit_nonEmpty (f : str) (l : list str) : credit f l <> [].
Proof.
  unfold credit. destruct (mem f l) eqn:E.
  - intros ->. discriminate E.
  - destruct l; discriminate.
Qed.

Lemma credit_NoDup (f : str) (l : list str) : NoDup l -> NoDup (credit f l).
Proof. apply setAdd_NoDup. Qed.

Lemma credit_In (f x : str) (l : list str) :
  In x (credit f l) <-> x = f \/ In x l.
Proof. apply setAdd_In. Qed.

Lemma consistent_weaken (names : list str) (f : str) (st : nat * list str) :
  consistent names st -> consistent (names ++ [f]) st.
Proof.
  intros (H1 & H2 & H3). repeat split; try apply H1; auto.
  intros x Hx. apply in_or_app. left. now apply H3.
Qed.

Lemma consistent_credit (names : list str) (f : str) (w : nat)
      (st : nat * list str) :
  0 < w ->
  consistent (names ++ [f]) st ->
  consistent (names ++ [f]) (fst st + w, credit f (snd st)).
Proof.
  intros Hw (H1 & H2 & H3). split; [|split]; simpl.
  - split; [lia | intros E; now apply credit_nonEmpty in E].
  - now apply credit_NoDup.
  - intros x Hx. apply credit_In in Hx as [->|Hx]; [|now apply H3].
    apply in_or_app. right. now left.
Qed.

Lemma consistent_items (names : list str) (f : str) (w : nat)
      (hit : str -> str -> bool) (queryWords items : list str) :
  0 < w ->
  forall st,
    consistent names st ->
    consistent (names ++ [f]) (scoreItems w f hit queryWords items st).
Proof.
  intros Hw st H. apply (consistent_weaken names f) in H.
  unfold scoreItems. revert st H.
  induction items as [|item items IH]; intros st H; [exact H|].
  simpl. apply IH.
  destruct (anyWord (hit item) queryWords); [|exact H].
  now apply consistent_credit.
Qed.

Lemma consistent_append (names : list str) (f : str) (w : nat) (b : bool)
      (st : nat * list str) :
  0 < w ->
  ~ In f names ->
  consistent names st ->
  consistent (names ++ [f])
             (if b then (fst st + w, snd st ++ [f]) else st).
Proof.
  intros Hw Hf H. destruct b; [|now apply consistent_weaken].
  destruct H as (H1 & H2 & H3). split; [|split]; simpl.
  - split; [lia | intros E; now apply app_eq_nil in E as [_ E]].
  - apply (Permutation_NoDup (Permutation_cons_append (snd st) f)).
    constructor; [|exact H2]. intros Hin. apply Hf. now apply H3.
  - intros x Hx. apply in_app_or in Hx as [Hx|[<-|[]]].
    + apply in_or_app. left. now apply H3.
    + apply in_or_app. right. now left.
Qed.

Lemma calculateRelevanceScore_consistent (m : AiCatalogModel) (query : str) :
  consistent FIELDS (calculateRelevanceScore m query).
Proof.
  unfold calculateRelevanceScore.
  set (queryLower := toLowerCase query).
  set (queryWords := splitWs queryLower).
  assert (S0 : consistent [] (0, @nil str)).
  { repeat split; simpl; auto; [constructor | intros x []]. }
  set (st1 := match description m with
              | Some (c :: d) => _ | _ => _ end).
  assert (S1 : consistent [js "description"] st1).
  { subst st1. destruct (description m) as [[|c d]|];
      try (apply (consistent_weaken [] (js "description")); exact S0).
    apply (consistent_append [] (js "description") 10 _ (0, [])); auto.
    lia. }
  set (st2 := match metrics m with Some ms => _ | None => _ end).
  assert (S2 : consistent (map js ["description"; "metrics"]%string) st2).
  { subst st2. destruct (metrics m) as [ms|].
    - apply (consistent_items [js "description"] (js "metrics") 5); [lia|exact S1].
    - now apply (consistent_weaken [js "description"] (js "metrics")). }
  set (st3 := match dimensions m with Some ds => _ | None => _ end).
  assert (S3 : consistent
                 (map js ["description"; "metrics"; "dimensions"]%string) st3).
  { subst st3. destruct (dimensions m) as [ds|].
    - apply (consistent_items (map js ["description"; "metrics"]%string)
               (js "dimensions") 3); [lia|exact S2].
    - now apply (consistent_weaken (map js ["description"; "metrics"]%string)
                   (js "dimensions")). }
  set (st4 := match grain m with Some (c :: g) => _ | _ => _ end).
  assert (S4 : consistent
                 (map js ["description"; "metrics"; "dimensions"; "grain"]%string)
                 st4).
  { subst st4.
    pose (names := map js ["description"; "metrics"; "dimensions"]%string).
    destruct (grain m) as [[|c g]|];
      try (apply (consistent_weaken names (js "grain")); exact S3).
    apply (consistent_append names (js "grain") 4); [lia | | exact S3].
    vm_compute. intros [H|[H|[H|[]]]]; discriminate H. }
  set (st5 := match domain m with Some (c :: d) => _ | _ => _ end).
  assert (S5 : consistent
                 (map js ["description"; "metrics"; "dimensions"; "grain";
                          "domain"]%string) st5).
  { subst st5.
    pose (names := map js ["description"; "metrics"; "dimensions"; "grain"]%string).
    destruct (domain m) as [[|c d]|];
      try (apply (consistent_weaken names (js "domain")); exact S4).
    apply (consistent_append names (js "domain") 2); [lia | | exact S4].
    vm_compute. intros [H|[H|[H|[H|[]]]]]; discriminate H. }
  apply (consistent_items
           (map js ["description"; "metrics"; "dimensions"; "grain";
                    "domain"]%string) (js "columns") 2); [lia | exact S5].
Qed.

(** The score of a model is 0 exactly when no field is credited; the
    credited fields are pairwise different and are among description,
    metrics, dimensions, grain, domain and columns. *)
Theorem score_and_matched_fields :
  forall m query,
    (fst (calculateRelevanceScore m query) = 0
     <-> snd (calculateRelevanceScore m query) = [])
    /\ NoDup (snd (calculateRelevanceScore m query))
    /\ forall f, In f (snd (calculateRelevanceScore m query)) -> In f FIELDS.
Proof.
  intros m query.
  destruct (calculateRelevanceScore_consistent m query) as (H1 & H2 & H3).
  auto.
Qed.

Lemma score_and_matched_fields_witness :
  calculateRelevanceScore modelLtv (js "weekly ltv")
  = (22, map js ["description"; "metrics"; "dimensions"; "grain"]%string)
  /\ In (js "grain") (snd (calculateRelevanceScore modelLtv (js "weekly ltv")))
  /\ In (js "grain") FIELDS.
Proof.
  assert (H : In (js "grain")
                 (snd (calculateRelevanceScore modelLtv (js "weekly ltv"))))
    by (vm_compute; tauto).
  split; [reflexivity | split; [exact H|]].
  exact (proj2 (proj2 (score_and_matched_fields modelLtv (js "weekly ltv")))
               (js "grain") H).
Defined.

(** ** Queries with an empty word *)

Lemma includes_nil (s : str) : includes s [] = true.
Proof. destruct s; reflexivity. Qed.

Lemma toLowerChar_whiteSpace (c : ascii) :
  isWhiteSpace (toLowerChar c) = isWhiteSpace c.
Proof.
  revert c.
  assert (H : forall c, Bool.eqb (isWhiteSpace (toLowerChar c)) (isWhiteSpace c)
                        = true)
    by (apply on_all_chars; vm_compute; reflexivity).
  intros c. now apply eqb_prop.
Qed.

Lemma splitWsFrom_trailing (r : str) (c : ascii) :
  isWhiteSpace c = true ->
  forall inRun acc,
    (inRun = true -> acc = []) ->
    In [] (splitWsFrom inRun acc (r ++ [c])).
Proof.
  intros Hc. induction r as [|x r IH]; intros inRun acc Hacc; simpl.
  - rewrite Hc. destruct inRun.
    + rewrite (Hacc eq_refl). simpl. now left.
    + simpl. right. now left.
  - destruct (isWhiteSpace x).
    + destruct inRun; [now apply IH|].
      right. now apply IH.
    + apply IH. discriminate.
Qed.

(** A query that is empty or begins or ends with white space has the
    empty string among its words. *)
Lemma empty_word (query : str) :
  query = []
  \/ (exists c, hd_error query = Some c /\ isWhiteSpace c = true)
  \/ (exists c, lastOf query = Some c /\ isWhiteSpace c = true) ->
  In [] (splitWs (toLowerCase query)).
Proof.
  intros [->|[(c & Hh & Hc)|(c & Hl & Hc)]].
  - now left.
  - destruct query as [|x r]; [discriminate Hh|]. injection Hh as ->.
    unfold splitWs. simpl. rewrite toLowerChar_whiteSpace, Hc. now left.
  - unfold lastOf in Hl.
    destruct (exists_last (l := query)) as (r & x & ->).
    { intros ->. discriminate Hl. }
    rewrite map_app in Hl. simpl (map Some [x]) in Hl.
    rewrite last_last in Hl. injection Hl as ->.
    unfold splitWs, toLowerCase. rewrite map_app. simpl (map toLowerChar [c]).
    apply splitWsFrom_trailing; [|discriminate].
    now rewrite toLowerChar_whiteSpace.
Qed.

Lemma scoreItems_mono (w : nat) (f : str) (hit : str -> str -> bool)
      (queryWords items : list str) :
  forall st, fst st <= fst (scoreItems w f hit queryWords items st).
Proof.
  unfold scoreItems. induction items as [|item items IH]; intros st; [simpl; lia|].
  simpl. etransitivity; [|apply IH].
  destruct (anyWord (hit item) queryWords); simpl; lia.
Qed.

Lemma description_score (m : AiCatalogModel) (query : str) :
  truthy (description m) = true ->
  In [] (splitWs (toLowerCase query)) ->
  10 <= score query m.
Proof.
  intros Hd Hw. unfold score, calculateRelevanceScore.
  set (queryWords := splitWs (toLowerCase query)) in *.
  destruct (description m) as [[|c d]|]; try discriminate Hd.
  assert (E : existsb (fun word => includes (toLowerCase (c :: d)) word)
                      queryWords = true).
  { apply existsb_exists. exists []. split; [exact Hw | apply includes_nil]. }
  rewrite E, orb_true_r.
  etransitivity; [|apply scoreItems_mono].
  assert (G : forall (st st' : nat * list str) (b : bool) (k : nat),
             fst st <= fst st' ->
             fst st <= fst (if b then (fst st' + k, snd st' ++ [js "x"]) else st')).
  { intros st st' b k H. destruct b; simpl; lia. }
  destruct (domain m) as [[|c1 d1]|]; destruct (grain m) as [[|c2 g2]|];
    repeat match goal with
           | |- context [if ?b then _ else _] => destruct b
           end;
    simpl fst;
    repeat (etransitivity; [|apply Nat.le_add_r]);
    destruct (dimensions m); destruct (metrics m);
    repeat (etransitivity; [|apply scoreItems_mono]); simpl; lia.
Qed.

(** An empty word matches everything: for a query that is empty or begins
    or ends with white space, every model of the loaded catalog with a
    non-empty description scores at least 10 and is among the results. *)
Theorem blank_edged_query_matches_described :
  forall file catalog query m,
    loadAiCatalog file = inr catalog ->
    (query = []
     \/ (exists c, hd_error query = Some c /\ isWhiteSpace c = true)
     \/ (exists c, lastOf query = Some c /\ isWhiteSpace c = true)) ->
    In m (models catalog) ->
    truthy (description m) = true ->
    10 <= score query m
    /\ exists results,
         searchCatalog file query = inr results
         /\ In (scoreOf query m) results.
Proof.
  intros file catalog query m Hload Hq Hm Hd.
  pose proof (description_score m query Hd (empty_word query Hq)) as Hs.
  split; [exact Hs|].
  exists (sort byScoreDesc (positives query (models catalog))).
  split; [now apply searchCatalog_loaded|].
  apply (Permutation_in _ (Permutation_sym (sort_perm _ relevanceScore _))).
  unfold positives. apply filter_In. split; [now apply in_map|].
  apply Nat.ltb_lt. change (relevanceScore (scoreOf query m)) with (score query m).
  lia.
Qed.

Lemma blank_edged_query_matches_described_witness :
  loadAiCatalog (Some catalogLtv) = inr catalogLtv
  /\ hd_error leadingBlank = Some " "%char
  /\ score leadingBlank modelLtv = 18
  /\ 10 <= score leadingBlank modelLtv
  /\ exists results,
       searchCatalog (Some catalogLtv) leadingBlank = inr results
       /\ In (scoreOf leadingBlank modelLtv) results.
Proof.
  split; [reflexivity | split; [reflexivity | split; [reflexivity|]]].
  apply (blank_edged_query_matches_described (Some catalogLtv) catalogLtv).
  - reflexivity.
  - right. left. exists " "%char. split; reflexivity.
  - left. reflexivity.
  - reflexivity.
Defined.

(** ** The first result of the search *)

Lemma filter_head_split {A} (f : A -> bool) (l : list A) (x : A) (rest : list A) :
  filter f l = x :: rest ->
  exists before after,
    l = before ++ x :: after /\ forall y, In y before -> f y = false.
Proof.
  induction l as [|y l IH]; [discriminate|]. simpl.
  destruct (f y) eqn:E.
  - intros [= -> _]. exists [], l. split; [reflexivity | intros ? []].
  - intros H. apply IH in H as (before & after & -> & Hb).
    exists (y :: before), after. split; [reflexivity|].
    intros z [<-|Hz]; auto.
Qed.

Lemma filter_filter_implied {A} (f g : A -> bool) (l : list A) :
  (forall x, f x = true -> g x = true) ->
  filter f (filter g l) = filter f l.
Proof.
  intros H. induction l as [|x l IH]; [reflexivity|]. simpl.
  destruct (g x) eqn:Eg; simpl.
  - now rewrite IH.
  - destruct (f x) eqn:Ef; [|exact IH].
    apply H in Ef. congruence.
Qed.

(** When the search of a loaded catalog has results, the first one has a
    positive score that no model of the catalog exceeds, and it belongs to
    the first model of the catalog that reaches this score. *)
Theorem first_result_is_best :
  forall file catalog query r rest,
    loadAiCatalog file = inr catalog ->
    searchCatalog file query = inr (r :: rest) ->
    0 < relevanceScore r
    /\ (forall m, In m (models catalog) -> score query m <= relevanceScore r)
    /\ exists before after,
         models catalog = before ++ model r :: after
         /\ r = scoreOf query (model r)
         /\ forall m, In m before -> score query m < relevanceScore r.
Proof.
  intros file catalog query r rest Hload Hs.
  rewrite (searchCatalog_loaded _ _ _ Hload) in Hs. injection Hs as Hs.
  pose proof (sort_perm _ relevanceScore (positives query (models catalog))) as P.
  pose proof (sort_sorted _ relevanceScore (positives query (models catalog))) as S.
  pose proof (sort_stable _ relevanceScore (relevanceScore r)
                (positives query (models catalog))) as T.
  change (sort (descending relevanceScore)) with (sort byScoreDesc) in P, S, T.
  rewrite Hs in P, S, T.
  assert (Hr : In r (positives query (models catalog)))
    by (apply (Permutation_in _ P); now left).
  unfold positives in Hr. apply filter_In in Hr as [_ Hpos].
  apply Nat.ltb_lt in Hpos.
  assert (Hmax : forall m, In m (models catalog) ->
                           score query m <= relevanceScore r).
  { intros m Hm. destruct (Nat.eq_dec (score query m) 0) as [E|E]; [lia|].
    assert (Hin : In (scoreOf query m) (r :: rest)).
    { apply (Permutation_in _ (Permutation_sym P)).
      unfold positives. apply filter_In. split; [now apply in_map|].
      apply Nat.ltb_lt. change (relevanceScore (scoreOf query m))
        with (score query m). lia. }
    destruct Hin as [E'|Hin]; [rewrite E'; exact (le_n _)|].
    inversion S as [|? ? _ Hall]; subst.
    rewrite Forall_forall in Hall. exact (Hall _ Hin). }
  split; [exact Hpos | split; [exact Hmax|]].
  simpl filter in T. rewrite Nat.eqb_refl in T.
  unfold positives in T.
  rewrite filter_filter_implied in T.
  2:{ intros x Hx. apply Nat.eqb_eq in Hx. apply Nat.ltb_lt. lia. }
  symmetry in T. apply filter_head_split in T as (before' & after' & E & Hb).
  apply map_eq_app in E as (before & l2 & Em & <- & E).
  destruct l2 as [|m0 after]; [discriminate E|].
  simpl in E. injection E as E _. subst r.
  exists before, after. split; [exact Em | split; [reflexivity|]].
  intros m Hm.
  assert (Hne : score query m <> score query m0).
  { specialize (Hb (scoreOf query m) (in_map _ _ _ Hm)).
    apply Nat.eqb_neq in Hb. exact Hb. }
  assert (Hle : score query m <= score query m0).
  { apply Hmax. rewrite Em. apply in_or_app. now left. }
  change (relevanceScore (scoreOf query m0)) with (score query m0). lia.
Qed.

Lemma first_result_is_best_witness :
  loadAiCatalog (Some catalogThree) = inr catalogThree
  /\ (exists r rest,
         searchCatalog (Some catalogThree) (js "costs ltv") = inr (r :: rest)
         /\ name (model r) = js "m2"
         /\ 0 < relevanceScore r
         /\ (forall m, In m (models catalogThree) ->
                       score (js "costs ltv") m <= relevanceScore r)
         /\ exists before after,
              models catalogThree = before ++ model r :: after
              /\ r = scoreOf (js "costs ltv") (model r)
              /\ forall m, In m before ->
                           score (js "costs ltv") m < relevanceScore r).
Proof.
  split; [reflexivity|].
  destruct (searchCatalog (Some catalogThree) (js "costs ltv"))
    as [e|[|r rest]] eqn:E; try (vm_compute in E; discriminate E).
  exists r, rest. split; [reflexivity|].
  split; [vm_compute in E; injection E as <- _; reflexivity|].
  exact (first_result_is_best (Some catalogThree) catalogThree (js "costs ltv")
                              r rest eq_refl E).
Defined.

(** The search of a loaded catalog is empty exactly when every model
    scores 0; a catalog that cannot be loaded makes the search throw. *)
Theorem search_empty_iff :
  forall file query,
    (forall catalog,
        loadAiCatalog file = inr catalog ->
        (searchCatalog file query = inr []
         <-> forall m, In m (models catalog) -> score query m = 0))
    /\ (forall e, loadAiCatalog file = inl e -> searchCatalog file query = inl e).
Proof.
  intros file query. split.
  - intros catalog Hload. rewrite (searchCatalog_loaded _ _ _ Hload).
    pose proof (sort_perm _ relevanceScore (positives query (models catalog))) as P.
    change (sort (descending relevanceScore)) with (sort byScoreDesc) in P.
    split.
    + intros [= E] m Hm. rewrite E in P. apply Permutation_nil in P.
      destruct (Nat.eq_dec (score query m) 0) as [Z|Z]; [exact Z|].
      assert (Hin : In (scoreOf query m) (positives query (models catalog))).
      { unfold positives. apply filter_In. split; [now apply in_map|].
        apply Nat.ltb_lt. change (relevanceScore (scoreOf query m))
          with (score query m). lia. }
      rewrite P in Hin. contradiction.
    + intros H. f_equal.
      assert (E : positives query (models catalog) = []).
      { unfold positives. generalize (models catalog) H. clear.
        intros ms H. induction ms as [|m ms IH]; [reflexivity|].
        cbn [map filter].
        assert (Z : (0 <? relevanceScore (scoreOf query m)) = false).
        { apply Nat.ltb_ge. change (score query m <= 0).
          rewrite (H m (or_introl eq_refl)). lia. }
        rewrite Z. apply IH. intros x Hx. apply H. now right. }
      now rewrite E.
  - intros e He. unfold searchCatalog. now rewrite He.
Qed.

Lemma search_empty_iff_witness :
  loadAiCatalog (Some catalogLtv) = inr catalogLtv
  /\ searchCatalog (Some catalogLtv) (js "costs") = inr []
  /\ forall m, In m (models catalogLtv) -> score (js "costs") m = 0.
Proof.
  split; [reflexivity | split; [reflexivity|]].
  apply (proj1 (proj1 (search_empty_iff (Some catalogLtv) (js "costs"))
                      catalogLtv eq_refl)).
  reflexivity.
Defined.

(** ** The catalog search tool *)

Lemma StronglySorted_map {A B} (f : A -> B) (R : B -> B -> Prop) (l : list A) :
  StronglySorted (fun a b => R (f a) (f b)) l -> StronglySorted R (map f l).
Proof.
  induction 1 as [|x l Hs IH Hall]; simpl; constructor; [exact IH|].
  rewrite Forall_forall in *. intros y Hy.
  apply in_map_iff in Hy as (z & <- & Hz). now apply Hall.
Qed.

(** On a loaded catalog the tool answers.  It reports failure exactly when
    every model scores 0; otherwise its list is not empty, is ordered by
    score descending, and every entry describes a model of the catalog of
    positive score, with the keys of that model's [columns]. *)
Theorem catalogSearchTool_reply :
  forall file catalog query,
    loadAiCatalog file = inr catalog ->
    exists reply,
      catalogSearchTool file query = inr reply
      /\ match reply with
         | CSFailure _ =>
             forall m, In m (models catalog) -> score query m = 0
         | CSSuccess entries =>
             entries <> []
             /\ StronglySorted
                  (fun a b => cs_relevanceScore b <= cs_relevanceScore a) entries
             /\ forall e, In e entries ->
                  exists m,
                    In m (models catalog)
                    /\ cs_modelName e = name m
                    /\ cs_columns e = map fst (columns m)
                    /\ cs_relevanceScore e = score query m
                    /\ 0 < score query m
         end.
Proof.
  intros file catalog query Hload. unfold catalogSearchTool.
  rewrite (searchCatalog_loaded _ _ _ Hload).
  pose proof (sort_perm _ relevanceScore (positives query (models catalog))) as P.
  pose proof (sort_sorted _ relevanceScore (positives query (models catalog))) as S.
  change (sort (descending relevanceScore)) with (sort byScoreDesc) in P, S.
  destruct (sort byScoreDesc (positives query (models catalog)))
    as [|r rest] eqn:E.
  - eexists. split; [reflexivity|]. intros m Hm.
    apply Permutation_nil in P.
    destruct (Nat.eq_dec (score query m) 0) as [Z|Z]; [exact Z|].
    assert (Hin : In (scoreOf query m) (positives query (models catalog))).
    { unfold positives. apply filter_In. split; [now apply in_map|].
      apply Nat.ltb_lt. change (relevanceScore (scoreOf query m))
        with (score query m). lia. }
    rewrite P in Hin. contradiction.
  - eexists. split; [reflexivity|]. split; [discriminate|]. split.
    + apply (StronglySorted_map entryOf
               (fun a b => cs_relevanceScore b <= cs_relevanceScore a)).
      exact S.
    + intros e He. apply in_map_iff in He as (x & <- & Hx).
      apply (Permutation_in _ P) in Hx. unfold positives in Hx.
      apply filter_In in Hx as [Hx Hpos].
      apply in_map_iff in Hx as (m & <- & Hm).
      apply Nat.ltb_lt in Hpos. exists m. repeat split; auto.
Qed.

Lemma catalogSearchTool_reply_witness :
  loadAiCatalog (Some catalogThree) = inr catalogThree
  /\ option_map (map cs_modelName)
       (match catalogSearchTool (Some catalogThree) (js "ltv") with
        | inr (CSSuccess entries) => Some entries
        | _ => None
        end)
     = Some [js "m2"; js "m1"; js "m3"]
  /\ exists reply,
       catalogSearchTool (Some catalogThree) (js "ltv") = inr reply
       /\ match reply with
          | CSFailure _ =>
              forall m, In m (models catalogThree) -> score (js "ltv") m = 0
          | CSSuccess entries =>
              entries <> []
              /\ StronglySorted
                   (fun a b => cs_relevanceScore b <= cs_relevanceScore a)
                   entries
              /\ forall e, In e entries ->
                   exists m,
                     In m (models catalogThree)
                     /\ cs_modelName e = name m
                     /\ cs_columns e = map fst (columns m)
                     /\ cs_relevanceScore e = score (js "ltv") m
                     /\ 0 < score (js "ltv") m
          end.
Proof.
  split; [reflexivity | split; [reflexivity|]].
  exact (catalogSearchTool_reply (Some catalogThree) catalogThree (js "ltv")
                                 eq_refl).
Defined.

(** ** The outcomes of the two tools *)

Ltac unfold_tool :=
  unfold sqlExecutor, queryExecutor, tryCatch, sqlExecutorBody,
    queryExecutorBody, callValidateSql, runSelect, bind, lift, emit, ret.

(** The direct-SQL tool returns rows exactly when the catalog loads, the
    validator accepts the text and the client answers; it calls the client
    with the caller's text and the fixed limits only; what the loader or
    the client throws comes back as EXECUTION_ERROR with the thrown
    message; and it reports no other error than SQL_VALIDATION_ERROR,
    EXECUTION_ERROR and UNKNOWN_ERROR. *)
Theorem sqlExecutor_outcomes :
  forall w sql,
    (forall v res,
        fst (sqlExecutor w sql) = SSuccess v res
        <-> exists catalog,
              loadAiCatalog (catalogFile w) = inr catalog
              /\ validateSql sql (buildAllowlist catalog) = inr v
              /\ runSelectReply w sql limits = inr res)
    /\ (forall s lim,
           In (EvRunSelect s lim) (snd (sqlExecutor w sql)) ->
           s = sql /\ lim = limits)
    /\ (forall msg,
           loadAiCatalog (catalogFile w) = inl (Error msg) ->
           sqlExecutor w sql = (SFailure EXECUTION_ERROR msg, []))
    /\ (forall catalog v msg,
           loadAiCatalog (catalogFile w) = inr catalog ->
           validateSql sql (buildAllowlist catalog) = inr v ->
           runSelectReply w sql limits = inl (Error msg) ->
           sqlExecutor w sql
           = (SFailure EXECUTION_ERROR msg,
              [EvValidated sql v; EvRunSelect sql limits]))
    /\ (forall code msg,
           fst (sqlExecutor w sql) = SFailure code msg ->
           code = SQL_VALIDATION_ERROR \/ code = EXECUTION_ERROR
           \/ code = UNKNOWN_ERROR).
Proof.
  intros w sql. split; [|split; [|split; [|split]]].
  - intros v res. unfold_tool.
    destruct (loadAiCatalog (catalogFile w)) as [e|catalog] eqn:El.
    { split; [destruct e; discriminate | intros (c & Hc & _); discriminate Hc]. }
    destruct (validateSql sql (buildAllowlist catalog)) as [e|v0] eqn:Ev.
    { split; [destruct e; discriminate|].
      intros (c & [= <-] & Hv & _). congruence. }
    simpl. destruct (runSelectReply w sql limits) as [e|res0] eqn:Er.
    + split; [destruct e; discriminate|].
      intros (c & [= <-] & Hv & Hr). congruence.
    + simpl. split.
      * intros [= <- <-]. exists catalog. auto.
      * intros (c & [= <-] & Hv & Hr). congruence.
  - destruct (sqlExecutor_trace w sql) as [E|(c & v & _ & _ & E)]; rewrite E.
    + intros s lim [].
    + intros s lim [H|[H|[]]]; [discriminate H|]. injection H as <- <-. auto.
  - intros msg Hl. unfold_tool. now rewrite Hl.
  - intros catalog v msg Hl Hv Hr. unfold_tool. rewrite Hl, Hv. simpl.
    now rewrite Hr.
  - intros code msg. unfold_tool.
    destruct (loadAiCatalog (catalogFile w)) as [e|catalog].
    { destruct e; simpl; intros [= <- _]; auto. }
    destruct (validateSql sql (buildAllowlist catalog)) as [e|v].
    { destruct e; simpl; intros [= <- _]; auto. }
    simpl. destruct (runSelectReply w sql limits) as [e|res].
    + destruct e; simpl; intros [= <- _]; auto.
    + discriminate.
Qed.

Lemma sqlExecutor_outcomes_witness :
  loadAiCatalog (catalogFile worldDown) = inr catalogLtv
  /\ sqlExecutor worldDown sqlLtv
     = (SFailure EXECUTION_ERROR (js "connect ECONNREFUSED"),
        [EvValidated sqlLtv {| table := js "`db`.`ltv_weekly`";
                               referencedColumns := [js "week"; js "avg_ltv_12"] |};
         EvRunSelect sqlLtv limits])
  /\ (exists catalog,
         loadAiCatalog (catalogFile worldLtv) = inr catalog
         /\ validateSql sqlLtv (buildAllowlist catalog)
            = inr {| table := js "`db`.`ltv_weekly`";
                     referencedColumns := [js "week"; js "avg_ltv_12"] |}
         /\ runSelectReply worldLtv sqlLtv limits
            = inr {| rows := []; rowCount := 0 |}).
Proof.
  split; [reflexivity|]. split.
  - apply (proj1 (proj2 (proj2 (proj2 (sqlExecutor_outcomes worldDown sqlLtv))))
             catalogLtv); reflexivity.
  - apply (proj1 (sqlExecutor_outcomes worldLtv sqlLtv)). reflexivity.
Defined.

(** The natural-language tool returns rows exactly when the search has a
    first result, its model has a non-empty [relation_name] and a
    projection, the catalog loads, the validator accepts the generated
    text and the client answers; the client is called with the generated
    text and the fixed limits only; and a first model without
    [relation_name] or without a projection ends the run with
    NO_RELATION_NAME or NO_COLUMNS before anything is validated. *)
Theorem queryExecutor_outcomes :
  forall w query,
    (forall n d rel sql v res,
        fst (queryExecutor w query) = QSuccess n d rel sql v res
        <-> exists first rest catalog,
              searchCatalog (catalogFile w) query = inr (first :: rest)
              /\ n = name (model first)
              /\ d = description (model first)
              /\ relation_name (model first) = Some rel
              /\ rel <> []
              /\ generateSql (model first) rel = Some sql
              /\ loadAiCatalog (catalogFile w) = inr catalog
              /\ validateSql sql (buildAllowlist catalog) = inr v
              /\ runSelectReply w sql limits = inr res)
    /\ (forall s lim,
           In (EvRunSelect s lim) (snd (queryExecutor w query)) ->
           lim = limits
           /\ exists first rest rel,
                searchCatalog (catalogFile w) query = inr (first :: rest)
                /\ relation_name (model first) = Some rel
                /\ generateSql (model first) rel = Some s)
    /\ (forall first rest,
           searchCatalog (catalogFile w) query = inr (first :: rest) ->
           truthy (relation_name (model first)) = false ->
           exists msg,
             queryExecutor w query = (QFailure NO_RELATION_NAME msg, []))
    /\ (forall first rest rel,
           searchCatalog (catalogFile w) query = inr (first :: rest) ->
           relation_name (model first) = Some rel ->
           rel <> [] ->
           generateSql (model first) rel = None ->
           exists msg, queryExecutor w query = (QFailure NO_COLUMNS msg, [])).
Proof.
  intros w query. split; [|split; [|split]].
  - intros n d rel sql v res. unfold_tool.
    destruct (searchCatalog (catalogFile w) query) as [e|[|first rest]] eqn:Es.
    { split; [destruct e; discriminate | intros (f & r & c & H & _); discriminate H]. }
    { split; [discriminate | intros (f & r & c & H & _); discriminate H]. }
    destruct (relation_name (model first)) as [[|c0 rel0]|] eqn:Er.
    { split; [discriminate|].
      intros (f & r & c & [= <- _] & _ & _ & Hr & Hne & _).
      rewrite Er in Hr. injection Hr as <-. now destruct Hne. }
    2:{ split; [discriminate|].
        intros (f & r & c & [= <- _] & _ & _ & Hr & _).
        rewrite Er in Hr. discriminate Hr. }
    destruct (generateSql (model first) (c0 :: rel0)) as [sql0|] eqn:Eg.
    2:{ split; [discriminate|].
        intros (f & r & c & [= <- _] & _ & _ & Hr & _ & Hg & _).
        rewrite Er in Hr. injection Hr as <-. congruence. }
    destruct (loadAiCatalog (catalogFile w)) as [e|catalog] eqn:El.
    { split; [destruct e; discriminate|].
      intros (f & r & c & _ & _ & _ & _ & _ & _ & Hl & _). discriminate Hl. }
    destruct (validateSql sql0 (buildAllowlist catalog)) as [e|v0] eqn:Ev.
    { split; [destruct e; discriminate|].
      intros (f & r & c & [= <- _] & _ & _ & Hr & _ & Hg & [= <-] & Hv & _).
      rewrite Er in Hr. injection Hr as <-. congruence. }
    simpl. destruct (runSelectReply w sql0 limits) as [e|res0] eqn:Ep.
    + split; [destruct e; discriminate|].
      intros (f & r & c & [= <- _] & _ & _ & Hr & _ & Hg & [= <-] & Hv & Hp).
      rewrite Er in Hr. injection Hr as <-. congruence.
    + simpl. split.
      * intros [= <- <- <- <- <- <-]. exists first, rest, catalog.
        repeat split; auto. discriminate.
      * intros (f & r & c & [= <- _] & -> & -> & Hr & _ & Hg & [= <-] & Hv & Hp).
        rewrite Er in Hr. injection Hr as <-. congruence.
  - intros s lim. unfold_tool.
    destruct (searchCatalog (catalogFile w) query) as [e|[|first rest]];
      try contradiction.
    destruct (relation_name (model first)) as [[|c0 rel0]|] eqn:Er;
      try contradiction.
    destruct (generateSql (model first) (c0 :: rel0)) as [sql0|] eqn:Eg;
      try contradiction.
    destruct (loadAiCatalog (catalogFile w)) as [e|catalog]; try contradiction.
    destruct (validateSql sql0 (buildAllowlist catalog)) as [e|v0];
      try contradiction.
    simpl. destruct (runSelectReply w sql0 limits); simpl;
      (intros [H|[H|[]]]; [discriminate H|]); injection H as <- <-;
      (split; [reflexivity|]); exists first, rest, (c0 :: rel0); auto.
  - intros first rest Hs Ht. unfold_tool. rewrite Hs.
    destruct (relation_name (model first)) as [[|c0 rel0]|];
      try discriminate Ht; eauto.
  - intros first rest rel Hs Hr Hne Hg. unfold_tool. rewrite Hs, Hr.
    destruct rel as [|c0 rel0]; [now destruct Hne|].
    rewrite Hg. eauto.
Qed.

Lemma queryExecutor_outcomes_witness :
  searchCatalog (catalogFile worldOdd) (js "costs")
  = inr [scoreOf (js "costs") modelNoRelation]
  /\ truthy (relation_name modelNoRelation) = false
  /\ (exists msg,
         queryExecutor worldOdd (js "costs") = (QFailure NO_RELATION_NAME msg, []))
  /\ searchCatalog (catalogFile worldOdd) (js "profit")
     = inr [scoreOf (js "profit") modelNoColumns]
  /\ generateSql modelNoColumns (js "`db`.`empty`") = None
  /\ (exists msg,
         queryExecutor worldOdd (js "profit") = (QFailure NO_COLUMNS msg, []))
  /\ fst (queryExecutor worldLtv (js "ltv"))
     = QSuccess (js "ltv_weekly") (Some (js "LTV by week"))
                (js "`db`.`ltv_weekly`") sqlLtv
                {| table := js "`db`.`ltv_weekly`";
                   referencedColumns := [js "week"; js "avg_ltv_12"] |}
                {| rows := []; rowCount := 0 |}.
Proof.
  destruct (queryExecutor_outcomes worldOdd (js "costs")) as (_ & _ & H1 & _).
  destruct (queryExecutor_outcomes worldOdd (js "profit")) as (_ & _ & _ & H2).
  destruct (queryExecutor_outcomes worldLtv (js "ltv")) as (H3 & _).
  split; [reflexivity|]. split; [reflexivity|].
  split; [apply (H1 (scoreOf (js "costs") modelNoRelation) []); reflexivity|].
  split; [reflexivity|]. split; [reflexivity|].
  split; [apply (H2 (scoreOf (js "profit") modelNoColumns) []
                    (js "`db`.`empty`")); try reflexivity; discriminate|].
  apply H3. exists (scoreOf (js "ltv") modelLtv), [], catalogLtv.
  repeat split; try reflexivity. discriminate.
Defined.

(** ** The projection of the generator *)

Lemma mapGet_None_not_key {V} (k : str) (m : list (str * V)) :
  mapGet k m = None -> ~ In k (mapKeys m).
Proof.
  intros H Hin. apply mapGet_key_Some in Hin as [v Hv]. congruence.
Qed.

Lemma dimensionParts_nil (m : AiCatalogModel) :
  dimensionParts m = []
  <-> forall d, In d (orEmpty (dimensions m)) -> hasColumn m d = false.
Proof.
  unfold dimensionParts. generalize (orEmpty (dimensions m)). intros ds.
  induction ds as [|d ds IH]; simpl.
  - split; [intros _ ? [] | reflexivity].
  - destruct (hasColumn m d) eqn:E.
    + split; [discriminate|]. intros H.
      specialize (H d (or_introl eq_refl)). congruence.
    + rewrite IH. split.
      * intros H x [<-|Hx]; auto.
      * intros H x Hx. apply H. now right.
Qed.

Lemma metricParts_nil (m : AiCatalogModel) :
  metricParts m = []
  <-> forall x, In x (orEmpty (metrics m)) -> hasColumn m x = false.
Proof.
  unfold metricParts. generalize (orEmpty (metrics m)). intros ms.
  induction ms as [|x ms IH]; simpl.
  - split; [intros _ ? [] | reflexivity].
  - destruct (hasColumn m x) eqn:E.
    + split; [discriminate|]. intros H.
      specialize (H x (or_introl eq_refl)). congruence.
    + simpl. rewrite IH. split.
      * intros H y [<-|Hy]; auto.
      * intros H y Hy. apply H. now right.
Qed.

(** A key of [columns] that is listed as a dimension is a selected
    dimension. *)
Lemma own_dimension_selected (m : AiCatalogModel) (k : str) :
  In k (map fst (columns m)) ->
  mem k (orEmpty (dimensions m)) = true ->
  In k (dimensionParts m).
Proof.
  intros Hk Hd. unfold dimensionParts. apply filter_In.
  split; [now apply mem_In|].
  unfold hasColumn. destruct (mapGet k (columns m)) eqn:E; [reflexivity|].
  now apply mapGet_None_not_key in E.
Qed.

Lemma numericParts_without_dimensions (m : AiCatalogModel) :
  dimensionParts m = [] ->
  numericParts m
  = flat_map
      (fun e =>
         if dataTypeIncludes (snd e) (js "float")
            || dataTypeIncludes (snd e) (js "int")
         then [aggregated (js "avg") (fst e)]
         else [])
      (columns m).
Proof.
  intros Hd. unfold numericParts.
  assert (G : forall e, In e (columns m) ->
                        mem (fst e) (orEmpty (dimensions m)) = false).
  { intros e He. destruct (mem (fst e) (orEmpty (dimensions m))) eqn:E;
      [|reflexivity].
    exfalso. assert (Hk : In (fst e) (map fst (columns m))) by now apply in_map.
    pose proof (own_dimension_selected m _ Hk E) as Hin.
    rewrite Hd in Hin. contradiction. }
  cbv zeta. revert G. generalize (columns m). intros cols G.
  induction cols as [|e cols IH]; [reflexivity|].
  cbn [flat_map]. rewrite (G e (or_introl eq_refl)).
  rewrite IH by (intros x Hx; apply G; now right).
  destruct (_ || _); reflexivity.
Qed.

Lemma flat_map_nil {A B} (f : A -> list B) (l : list A) :
  flat_map f l = [] <-> forall x, In x l -> f x = [].
Proof.
  induction l as [|x l IH]; simpl.
  - split; [intros _ ? [] | reflexivity].
  - split.
    + intros H. apply app_eq_nil in H as [H1 H2].
      intros y [<-|Hy]; [exact H1 | now apply IH].
    + intros H. rewrite (H x (or_introl eq_refl)). simpl.
      apply IH. intros y Hy. apply H. now right.
Qed.

(** The generator gives up (NO_COLUMNS) exactly when no listed dimension
    and no listed metric can be read from [columns] and no column has a
    data type that contains float or int. *)
Theorem no_usable_columns_iff :
  forall m relation,
    generateSql m relation = None
    <-> (forall d, In d (orEmpty (dimensions m)) -> hasColumn m d = false)
        /\ (forall x, In x (orEmpty (metrics m)) -> hasColumn m x = false)
        /\ (forall k info,
               In (k, info) (columns m) ->
               dataTypeIncludes info (js "float") = false
               /\ dataTypeIncludes info (js "int") = false).
Proof.
  intros m relation.
  assert (G : generateSql m relation = None <-> selectPartsOf m = []).
  { unfold generateSql. destruct (selectPartsOf m); split; congruence. }
  rewrite G. unfold selectPartsOf.
  rewrite <- dimensionParts_nil, <- metricParts_nil. split.
  - intros H.
    destruct (dimensionParts m) as [|d ds] eqn:Ed; [|discriminate H].
    destruct (metricParts m) as [|x xs] eqn:Ex; [|discriminate H].
    simpl in H. rewrite (numericParts_without_dimensions m Ed) in H.
    split; [reflexivity | split; [reflexivity|]].
    intros k info Hin. rewrite flat_map_nil in H.
    specialize (H _ Hin). cbn [fst snd] in H.
    destruct (dataTypeIncludes info (js "float"));
      destruct (dataTypeIncludes info (js "int")); try discriminate H; auto.
  - intros (Hd & Hx & Hn). rewrite Hd, Hx. simpl.
    rewrite (numericParts_without_dimensions m Hd).
    apply flat_map_nil. intros [k info] Hin. cbn [fst snd].
    destruct (Hn k info Hin) as [-> ->]. reflexivity.
Qed.

Lemma no_usable_columns_iff_witness :
  generateSql modelNoColumns (js "`db`.`empty`") = None
  /\ (forall k info,
         In (k, info) (columns modelNoColumns) ->
         dataTypeIncludes info (js "float") = false
         /\ dataTypeIncludes info (js "int") = false).
Proof.
  split; [reflexivity|].
  apply (proj1 (no_usable_columns_iff modelNoColumns (js "`db`.`empty`"))).
  reflexivity.
Defined.

(** When the fall-back loop runs, it projects averages only: it runs when
    no dimension and no metric was selected, and then no key of [columns]
    is a listed dimension, so the branch that re-adds dimensions adds
    nothing. *)
Theorem fallback_projects_averages_only :
  forall m,
    dimensionParts m = [] ->
    metricParts m = [] ->
    selectPartsOf m = numericParts m
    /\ forall part,
         In part (selectPartsOf m) ->
         exists k info,
           In (k, info) (columns m)
           /\ part = aggregated (js "avg") k
           /\ (dataTypeIncludes info (js "float") = true
               \/ dataTypeIncludes info (js "int") = true).
Proof.
  intros m Hd Hx.
  assert (E : selectPartsOf m = numericParts m)
    by (unfold selectPartsOf; now rewrite Hd, Hx).
  split; [exact E|]. rewrite E, (numericParts_without_dimensions m Hd).
  intros part Hin. apply in_flat_map in Hin as ([k info] & Hk & Hp).
  cbn [fst snd] in Hp.
  destruct (dataTypeIncludes info (js "float")) eqn:Ef;
    destruct (dataTypeIncludes info (js "int")) eqn:Ei;
    cbn [orb In] in Hp;
    try contradiction;
    destruct Hp as [<-|[]]; exists k, info; auto.
Qed.

Lemma fallback_projects_averages_only_witness :
  dimensionParts modelFallback = []
  /\ metricParts modelFallback = []
  /\ selectPartsOf modelFallback
     = [js "avg(revenue) AS revenue"; js "avg(clicks) AS clicks"]
  /\ forall part,
       In part (selectPartsOf modelFallback) ->
       exists k info,
         In (k, info) (columns modelFallback)
         /\ part = aggregated (js "avg") k
         /\ (dataTypeIncludes info (js "float") = true
             \/ dataTypeIncludes info (js "int") = true).
Proof.
  split; [reflexivity | split; [reflexivity | split; [reflexivity|]]].
  exact (proj2 (fallback_projects_averages_only modelFallback eq_refl eq_refl)).
Defined.

(** ** Search results and the allowlist *)

(** Every result of the search carries a model of the loaded catalog, and
    the allowlist built from that catalog has a table for it, whether or
    not the model has a [relation_name]. *)
Theorem search_results_are_allowlisted :
  forall file catalog query results r,
    loadAiCatalog file = inr catalog ->
    searchCatalog file query = inr results ->
    In r results ->
    In (model r) (models catalog)
    /\ r = scoreOf query (model r)
    /\ exists cols,
         mapGet (tableOf (model r)) (tables (buildAllowlist catalog))
         = Some cols.
Proof.
  intros file catalog query results r Hload Hs Hr.
  rewrite (searchCatalog_loaded _ _ _ Hload) in Hs. injection Hs as <-.
  apply (Permutation_in _ (sort_perm _ relevanceScore _)) in Hr.
  unfold positives in Hr. apply filter_In in Hr as [Hr _].
  apply in_map_iff in Hr as (m & <- & Hm).
  split; [exact Hm | split; [reflexivity|]].
  apply mapGet_key_Some. unfold buildAllowlist. rewrite tables_fold.
  apply addTable_fold_keys. right. exists m. auto.
Qed.

Lemma search_results_are_allowlisted_witness :
  loadAiCatalog (catalogFile worldOdd) = inr catalogOdd
  /\ relation_name modelNoRelation = None
  /\ tableOf modelNoRelation = js "`db`.`costs`"
  /\ exists cols,
       mapGet (tableOf modelNoRelation) (tables (buildAllowlist catalogOdd))
       = Some cols.
Proof.
  split; [reflexivity | split; [reflexivity | split; [reflexivity|]]].
  apply (search_results_are_allowlisted
           (catalogFile worldOdd) catalogOdd (js "costs")
           [scoreOf (js "costs") modelNoRelation]
           (scoreOf (js "costs") modelNoRelation)).
  - reflexivity.
  - reflexivity.
  - left. reflexivity.
Defined.

(** ** Identifiers that name the table *)

Lemma split_segment_chars (d : ascii) (s : str) :
  forall seg c,
    In seg (split d s) -> In c seg -> In c s /\ chr_eqb c d = false.
Proof.
  induction s as [|x r IH]; intros seg c Hs Hc; simpl in Hs.
  - destruct Hs as [<-|[]]. contradiction.
  - destruct (chr_eqb x d) eqn:E.
    + destruct Hs as [<-|Hs]; [contradiction|].
      destruct (IH _ _ Hs Hc) as [H1 H2]. split; [now right | exact H2].
    + destruct (split d r) as [|h t] eqn:Es.
      * destruct Hs as [<-|[]]. destruct Hc as [<-|[]].
        split; [now left | exact E].
      * destruct Hs as [<-|Hs].
        -- destruct Hc as [<-|Hc]; [split; [now left | exact E]|].
           destruct (IH h c (or_introl eq_refl) Hc) as [H1 H2].
           split; [now right | exact H2].
        -- destruct (IH seg c (or_intror Hs) Hc) as [H1 H2].
           split; [now right | exact H2].
Qed.

(** A character of the FROM target that is no quote and no dot is a word
    character. *)
Lemma tableChar_word (c : ascii) :
  isTableChar c = true ->
  negb ((code c =? 34) || (code c =? 96)) = true ->
  chr_eqb c dot = false ->
  isWordChar c = true.
Proof.
  assert (H : forall c, implb (isTableChar c
                               && negb ((code c =? 34) || (code c =? 96))
                               && negb (chr_eqb c dot))
                              (isWordChar c) = true)
    by (apply on_all_chars; vm_compute; reflexivity).
  intros H1 H2 H3. specialize (H c). now rewrite H1, H2, H3 in H.
Qed.

Lemma word_not_whiteSpace (c : ascii) :
  isWordChar c = true -> isWhiteSpace c = false.
Proof.
  intros H. destruct (isWhiteSpace c) eqn:E; [|reflexivity].
  apply whiteSpace_not_word in E. congruence.
Qed.

Lemma table_segment_words (raw seg : str) :
  forallb isTableChar raw = true ->
  In seg (split dot (stripQuotesTable raw)) ->
  forallb isWordChar seg = true.
Proof.
  intros Hraw Hseg. apply forallb_forall. intros c Hc.
  destruct (split_segment_chars _ _ _ _ Hseg Hc) as [Hin Hd].
  unfold stripQuotesTable in Hin. apply filter_In in Hin as [Hin Hq].
  rewrite forallb_forall in Hraw. apply tableChar_word; auto.
Qed.

Lemma trim_words (s : str) : forallb isWordChar s = true -> trim s = s.
Proof.
  intros H.
  assert (G : forall t, forallb isWordChar t = true ->
                        dropWhile isWhiteSpace t = t).
  { intros [|c t]; [reflexivity|]. simpl. intros Ht.
    apply andb_true_iff in Ht as [Hc _].
    now rewrite (word_not_whiteSpace _ Hc). }
  unfold trim. rewrite (G s H), G; [apply rev_involutive|].
  apply forallb_forall. intros c Hc. apply in_rev in Hc.
  rewrite forallb_forall in H. now apply H.
Qed.

Lemma toLowerCase_words (s : str) :
  forallb isWordChar s = true -> forallb isWordChar (toLowerCase s) = true.
Proof.
  induction s as [|c s IH]; [reflexivity|]. simpl. intros H.
  apply andb_true_iff in H as [Hc Hs].
  now rewrite toLowerChar_word, Hc, (IH Hs).
Qed.

(** The segments the column extraction compares with are the dotted
    segments of the FROM target, quotes removed, in lower case. *)
Lemma table_segment_part (raw seg : str) :
  forallb isTableChar raw = true ->
  In seg (split dot (stripQuotesTable raw)) ->
  seg <> [] ->
  In (toLowerCase seg) (fromPartsOf raw).
Proof.
  intros Hraw Hseg Hne. unfold fromPartsOf. rewrite split_lower.
  apply filter_In. split.
  - rewrite map_map. apply in_map_iff. exists seg. split; [|exact Hseg].
    apply trim_words, toLowerCase_words.
    exact (table_segment_words _ _ Hraw Hseg).
  - destruct seg; [congruence | reflexivity].
Qed.

Lemma extractFromTable_chars (n raw : str) :
  extractFromTable n = Some raw -> forallb isTableChar raw = true.
Proof.
  intros H. unfold extractFromTable, search in H.
  apply searchFrom_inv in H as (pre & s & -> & H).
  unfold fromPattern in H.
  destruct (wordPattern (js "from") _) as [k1|] eqn:W; [|discriminate H].
  apply wordPattern_inv in W as (w & s1 & -> & _ & _ & _ & ->);
    [|discriminate | reflexivity].
  apply plusThen_inv in H as (ws & s2 & -> & _ & _ & H).
  apply plusThen_inv in H as (run & post & -> & _ & Hrun & H).
  destruct (guard _); [|discriminate H].
  injection H as <-. now rewrite rev_involutive.
Qed.

(** C10.  The column extraction splits the FROM target, quotes removed, at
    its dots and drops every token one of whose dotted segments equals, up
    to letter case, one of those segments: the table name as well as the
    schema name.  So in every accepted query no referenced column equals,
    up to case, a segment of the matched table, and an identifier of the
    body that shares a name with the table or its schema is not checked
    against the allowed columns: under [{`db`.`t`: {a}}] the queries
    [SELECT a, db, t FROM `db`.`t`] and [SELECT a, DB.x FROM `db`.`t`] are
    accepted with [a] as their only referenced column, although [db], [t]
    and [x] are no allowed columns and [SELECT a, x FROM `db`.`t`] is
    rejected for [x]; likewise [SELECT a, t FROM T] under [{T: {a}}]. *)
Theorem table_named_identifiers_skipped :
  (forall fromTable tok seg,
      forallb isTableChar fromTable = true ->
      In seg (split dot (stripQuotesTable fromTable)) ->
      seg <> [] ->
      In (toLowerCase seg) (split dot (toLowerCase tok)) ->
      columnOfToken fromTable tok = None)
  /\ (forall fromTable tok part,
         In part (split dot (toLowerCase tok)) ->
         In part (fromPartsOf fromTable) ->
         columnOfToken fromTable tok = None)
  /\ (forall sql al v c seg,
         validateSql sql al = inr v ->
         In c (referencedColumns v) ->
         In seg (split dot (stripQuotesTable (table v))) ->
         toLowerCase c <> toLowerCase seg)
  /\ (forall sql al v c,
         validateSql sql al = inr v ->
         In c (referencedColumns v) ->
         ~ In (toLowerCase c) (fromPartsOf (table v)))
  /\ (validateSql selectSchemaNames allowlistDbT
      = inr {| table := js "`db`.`t`"; referencedColumns := [js "a"] |}
      /\ validateSql selectSchemaColumn allowlistDbT
         = inr {| table := js "`db`.`t`"; referencedColumns := [js "a"] |}
      /\ validateSql selectOtherColumn allowlistDbT
         = inl (SqlValidationError (ColumnNotAllowlisted (js "x")))
      /\ matchAll identPattern 0 (normalize selectSchemaNames)
         = [js "SELECT"; js "a"; js "db"; js "t"; js "FROM"; js "db"; js "t"]
      /\ matchAll identPattern 0 (normalize selectSchemaColumn)
         = [js "SELECT"; js "a"; js "DB.x"; js "FROM"; js "db"; js "t"]
      /\ extractFromTable (normalize selectSchemaNames) = Some (js "`db`.`t")
      /\ fromPartsOf (js "`db`.`t") = [js "db"; js "t"]
      /\ mapGet (js "`db`.`t`") (tables allowlistDbT) = Some [js "a"])
  /\ (validateSql selectTableName allowlistTa
      = inr {| table := js "T"; referencedColumns := [js "a"] |}
      /\ In (js "t") (matchAll identPattern 0 (normalize selectTableName))
      /\ mapGet (js "T") (tables allowlistTa) = Some [js "a"]
      /\ ~ In (js "t") [js "a"]).
Proof.
  split; [|split; [|split; [|split; [|split]]]].
  - intros fromTable tok seg Hraw Hseg Hne Htok.
    apply (columnOfToken_table_part _ _ _ Htok).
    now apply table_segment_part.
  - apply columnOfToken_table_part.
  - intros sql al v c seg Hv Hc Hseg Heq.
    apply validateSql_inr in Hv as (raw & cols & Hf & _ & Hs & _ & Hr & _).
    apply frontGates_inr, extractFromTable_chars in Hf.
    rewrite Hs in Hseg. rewrite Hr in Hc.
    apply findReferencedColumns_origin in Hc as (tok & Hin & Hc).
    apply columnOfToken_Some in Hc as [Hcseg Hnot].
    destruct (matchAll_In _ _ _ _ Hin) as [t Ht].
    pose proof (token_segments_ident _ _ _ Ht Hcseg) as Hid.
    apply (Hnot (toLowerCase c)).
    + rewrite split_lower. now apply in_map.
    + rewrite Heq. apply table_segment_part; [exact Hf | exact Hseg |].
      intros ->. destruct c; [discriminate Hid | discriminate Heq].
  - intros sql al v c Hv Hc.
    apply validateSql_inr in Hv as (raw & cols & _ & _ & Hs & _ & Hr & _).
    rewrite (fromPartsOf_stripped _ _ Hs).
    rewrite Hr in Hc.
    apply findReferencedColumns_origin in Hc as (tok & _ & Hc).
    apply columnOfToken_Some in Hc as [Hseg Hnot].
    apply Hnot. rewrite split_lower. now apply in_map.
  - repeat split; reflexivity.
  - repeat split; try reflexivity.
    + vm_compute. tauto.
    + intros [H|[]]. discriminate H.
Qed.

Lemma table_named_identifiers_skipped_witness :
  forallb isTableChar (js "`db`.`t") = true
  /\ In (js "db") (split dot (stripQuotesTable (js "`db`.`t")))
  /\ js "db" <> []
  /\ In (toLowerCase (js "db")) (split dot (toLowerCase (js "DB.x")))
  /\ columnOfToken (js "`db`.`t") (js "DB.x") = None.
Proof.
  assert (H1 : forallb isTableChar (js "`db`.`t") = true) by reflexivity.
  assert (H2 : In (js "db") (split dot (stripQuotesTable (js "`db`.`t"))))
    by (vm_compute; tauto).
  assert (H3 : js "db" <> []) by discriminate.
  assert (H4 : In (toLowerCase (js "db")) (split dot (toLowerCase (js "DB.x"))))
    by (vm_compute; tauto).
  split; [exact H1 | split; [exact H2 | split; [exact H3 | split; [exact H4 |]]]].
  exact (proj1 table_named_identifiers_skipped
               (js "`db`.`t") (js "DB.x") (js "db") H1 H2 H3 H4).
Defined.
